(** * Word-list construction pipeline: shallow embedding and verified properties

    The development embeds the scripts that build the 65,536-word
    dictionary:

    - [TrulyReadable]   : [create_truly_readable_dictionary.generate_all_forms]
    - [FinalDict]       : [create_final_dictionary.main]
    - [FixSize]         : [scripts/fix_dictionary_size.fix_dictionary_size]
    - [ReadableDict]    : the padding loop of [create_readable_dictionary.main]
    - [LetterGen]       : [letter_wordlist_generator] (gate, alphabet pass,
                          convergence loop, trimming)
    - [Improver]        : [wordlist_openai_improver.refine_wordlist]
    - [FixDuplicates]   : [fix_dictionary_duplicates.main]

    Conventions.  A Python [str] is a [string] whose characters are code
    points below 256; a Python [set] of words is a [gset string]; a Python
    [int] is a [Z].  A Python [float] is taken to be finite, hence a
    rational [Q]: comparisons of finite floats are exact, and the one
    arithmetic operation on them, the subtraction of the loosening step,
    is a parameter of the loop (its result is rounded).  NaN and the
    infinities are not represented.  External services (the language
    model, the [wordfreq] tables) are parameters of the sections that use
    them. *)

From stdpp Require Import gmap strings list sorting.
From Stdlib Require Import Ascii QArith Qminmax.
From Stdlib Require OrderedTypeEx.
Close Scope Q_scope.
Open Scope string_scope.
Open Scope list_scope.

(** ** Python string primitives *)

Module Py.

Definition code (c : ascii) : N := N_of_ascii c.

Definition between (lo hi n : N) : bool := ((lo <=? n) && (n <=? hi))%N.

Definition in_range (lo hi : N) (c : ascii) : bool := between lo hi (code c).

(** [c] is one of the ASCII lower-case letters, the class [[a-z]]. *)
Definition is_az (c : ascii) : bool := in_range 97 122 c.

(** Upper-case letters among the first 256 code points. *)
Definition char_isupper (c : ascii) : bool :=
  let n := code c in
  between 65 90 n || between 192 214 n || between 216 222 n.

(** Lower-case letters among the first 256 code points (including the
    ordinal indicators and the micro sign, which [str.islower] accepts). *)
Definition char_islower (c : ascii) : bool :=
  let n := code c in
  between 97 122 n || between 223 246 n || between 248 255 n
  || (n =? 170)%N || (n =? 181)%N || (n =? 186)%N.

Definition char_isalpha (c : ascii) : bool :=
  char_isupper c || char_islower c.

Definition char_isspace (c : ascii) : bool :=
  let n := code c in
  between 9 13 n || between 28 32 n || (n =? 133)%N || (n =? 160)%N.

Definition char_lower (c : ascii) : ascii :=
  if char_isupper c then ascii_of_N (code c + 32) else c.

Definition chars (s : string) : list ascii := String.list_ascii_of_string s.

(** [len(s)] *)
Definition len (s : string) : Z := Z.of_nat (String.length s).

(** [s.isalpha()] : non-empty and every character alphabetic. *)
Definition isalpha (s : string) : bool :=
  negb (String.eqb s "") && forallb char_isalpha (chars s).

(** [all(ord(c) < 128 for c in s)] *)
Definition all_ascii (s : string) : bool :=
  forallb (fun c => (code c <? 128)%N) (chars s).

(** [s.isupper()] : no lower-case character and at least one upper-case one. *)
Definition isupper (s : string) : bool :=
  forallb (fun c => negb (char_islower c)) (chars s)
  && existsb char_isupper (chars s).

(** [s.islower()] : no upper-case character and at least one lower-case one. *)
Definition islower (s : string) : bool :=
  forallb (fun c => negb (char_isupper c)) (chars s)
  && existsb char_islower (chars s).

(** [s.lower()] *)
Definition lower (s : string) : string :=
  String.string_of_list_ascii (map char_lower (chars s)).

Fixpoint lstrip_chars (l : list ascii) : list ascii :=
  match l with
  | c :: l' => if char_isspace c then lstrip_chars l' else l
  | [] => []
  end.

(** [s.strip()] *)
Definition strip (s : string) : string :=
  String.string_of_list_ascii
    (rev (lstrip_chars (rev (lstrip_chars (chars s))))).

(** [s.endswith(suf)] *)
Definition endswith (s suf : string) : bool :=
  (String.length suf <=? String.length s)%nat
  && String.eqb
       (String.substring (String.length s - String.length suf) (String.length suf) s)
       suf.

(** [s.startswith(pre)] *)
Definition startswith (s pre : string) : bool := String.prefix pre s.

(** [s[:-k]] for a positive literal [k]. *)
Definition drop_last (k : nat) (s : string) : string :=
  String.substring 0 (String.length s - k) s.

(** [s[-k]] for a positive literal [k]; [None] is Python's [IndexError]. *)
Definition from_end (k : nat) (s : string) : option ascii :=
  if (k <=? String.length s)%nat then String.get (String.length s - k) s
  else None.

(** [c in letters] for a one-character [c]. *)
Definition char_in (c : ascii) (letters : string) : bool :=
  existsb (Ascii.eqb c) (chars letters).

(** [s[-k] in letters], only used under a guard that makes the index
    valid; an invalid index is reported as [false] by this helper and
    never arises at its call sites. *)
Definition from_end_in (k : nat) (s letters : string) : bool :=
  match from_end k s with
  | Some c => char_in c letters
  | None => false
  end.

(** Decimal rendering of a non-negative integer, zero-padded to at least
    [width] digits: the format spec [{n:0<width>d}]. *)
Fixpoint digits_fuel (fuel : nat) (n : N) (acc : list ascii) : list ascii :=
  match fuel with
  | O => acc
  | S fuel' =>
      let acc' := ascii_of_N (48 + n mod 10) :: acc in
      if (n / 10 =? 0)%N then acc' else digits_fuel fuel' (n / 10) acc'
  end.

Definition decimal (n : N) : list ascii :=
  digits_fuel (S (N.to_nat (N.log2 n))) n [].

Definition zero_padded (width : nat) (n : N) : string :=
  let d := decimal n in
  String.string_of_list_ascii (replicate (width - length d) "0"%char ++ d).

(** [sorted(words)] on strings: the order is the code-point order. *)
Definition str_le (a b : string) : Prop := String.leb a b = true.

Global Instance str_le_dec a b : Decision (str_le a b).
Proof. unfold str_le. apply _. Defined.

Definition sorted (l : list string) : list string := merge_sort str_le l.

End Py.

(** ** create_truly_readable_dictionary.py : the morphological expander *)

Module TrulyReadable.

(** The literal [irregular] dictionary of [generate_all_forms]. *)
Definition irregular_entries : list (string * list string) :=
  [
    ("be", ["am"; "is"; "are"; "was"; "were"; "been"; "being"]);
    ("have", ["has"; "had"; "having"]);
    ("do", ["does"; "did"; "done"; "doing"]);
    ("go", ["goes"; "went"; "gone"; "going"]);
    ("get", ["gets"; "got"; "gotten"; "getting"]);
    ("make", ["makes"; "made"; "making"; "maker"]);
    ("take", ["takes"; "took"; "taken"; "taking"]);
    ("come", ["comes"; "came"; "coming"]);
    ("see", ["sees"; "saw"; "seen"; "seeing"]);
    ("know", ["knows"; "knew"; "known"; "knowing"]);
    ("think", ["thinks"; "thought"; "thinking"]);
    ("give", ["gives"; "gave"; "given"; "giving"]);
    ("find", ["finds"; "found"; "finding"; "finder"]);
    ("tell", ["tells"; "told"; "telling"; "teller"]);
    ("work", ["works"; "worked"; "working"; "worker"]);
    ("call", ["calls"; "called"; "calling"; "caller"]);
    ("try", ["tries"; "tried"; "trying"]);
    ("use", ["uses"; "used"; "using"; "user"; "users"]);
    ("need", ["needs"; "needed"; "needing"]);
    ("feel", ["feels"; "felt"; "feeling"]);
    ("leave", ["leaves"; "left"; "leaving"]);
    ("put", ["puts"; "putting"]);
    ("mean", ["means"; "meant"; "meaning"]);
    ("keep", ["keeps"; "kept"; "keeping"; "keeper"]);
    ("let", ["lets"; "letting"]);
    ("begin", ["begins"; "began"; "begun"; "beginning"]);
    ("seem", ["seems"; "seemed"; "seeming"]);
    ("help", ["helps"; "helped"; "helping"; "helper"]);
    ("show", ["shows"; "showed"; "shown"; "showing"]);
    ("hear", ["hears"; "heard"; "hearing"]);
    ("play", ["plays"; "played"; "playing"; "player"]);
    ("run", ["runs"; "ran"; "running"; "runner"]);
    ("move", ["moves"; "moved"; "moving"; "mover"]);
    ("like", ["likes"; "liked"; "liking"]);
    ("live", ["lives"; "lived"; "living"]);
    ("bring", ["brings"; "brought"; "bringing"]);
    ("write", ["writes"; "wrote"; "written"; "writing"; "writer"]);
    ("sit", ["sits"; "sat"; "sitting"; "sitter"]);
    ("stand", ["stands"; "stood"; "standing"]);
    ("lose", ["loses"; "lost"; "losing"; "loser"]);
    ("pay", ["pays"; "paid"; "paying"; "payer"]);
    ("meet", ["meets"; "met"; "meeting"]);
    ("set", ["sets"; "setting"; "setter"]);
    ("learn", ["learns"; "learned"; "learning"; "learner"]);
    ("change", ["changes"; "changed"; "changing"; "changer"]);
    ("lead", ["leads"; "led"; "leading"; "leader"]);
    ("watch", ["watches"; "watched"; "watching"; "watcher"]);
    ("follow", ["follows"; "followed"; "following"; "follower"]);
    ("stop", ["stops"; "stopped"; "stopping"; "stopper"]);
    ("create", ["creates"; "created"; "creating"; "creator"]);
    ("speak", ["speaks"; "spoke"; "spoken"; "speaking"; "speaker"]);
    ("read", ["reads"; "reading"; "reader"]);
    ("spend", ["spends"; "spent"; "spending"; "spender"]);
    ("grow", ["grows"; "grew"; "grown"; "growing"; "grower"]);
    ("open", ["opens"; "opened"; "opening"; "opener"]);
    ("walk", ["walks"; "walked"; "walking"; "walker"]);
    ("win", ["wins"; "won"; "winning"; "winner"]);
    ("teach", ["teaches"; "taught"; "teaching"; "teacher"]);
    ("offer", ["offers"; "offered"; "offering"]);
    ("remember", ["remembers"; "remembered"; "remembering"]);
    ("love", ["loves"; "loved"; "loving"; "lover"]);
    ("consider", ["considers"; "considered"; "considering"]);
    ("appear", ["appears"; "appeared"; "appearing"]);
    ("buy", ["buys"; "bought"; "buying"; "buyer"]);
    ("wait", ["waits"; "waited"; "waiting"; "waiter"]);
    ("serve", ["serves"; "served"; "serving"; "server"]);
    ("die", ["dies"; "died"; "dying"]);
    ("send", ["sends"; "sent"; "sending"; "sender"]);
    ("build", ["builds"; "built"; "building"; "builder"]);
    ("stay", ["stays"; "stayed"; "staying"]);
    ("fall", ["falls"; "fell"; "fallen"; "falling"]);
    ("cut", ["cuts"; "cutting"; "cutter"]);
    ("reach", ["reaches"; "reached"; "reaching"]);
    ("kill", ["kills"; "killed"; "killing"; "killer"]);
    ("eat", ["eats"; "ate"; "eaten"; "eating"; "eater"]);
    ("drink", ["drinks"; "drank"; "drunk"; "drinking"; "drinker"]);
    ("sleep", ["sleeps"; "slept"; "sleeping"; "sleeper"]);
    ("wake", ["wakes"; "woke"; "woken"; "waking"])
  ].

Definition irregular : gmap string (list string) :=
  list_to_map irregular_entries.

(** The consonant-doubling guard
    [len(w) >= 3 and w[-1] in 'bcdgklmnprstvz' and w[-2] in 'aeiou'
     and w[-3] not in 'aeiou']. *)
Definition doubles_final (w : string) : bool :=
  (3 <=? Py.len w)%Z
  && Py.from_end_in 1 w "bcdgklmnprstvz"
  && Py.from_end_in 2 w "aeiou"
  && negb (Py.from_end_in 3 w "aeiou").

(** The guard [w.endswith('y') and len(w) > 2 and w[-2] not in 'aeiou']. *)
Definition consonant_y (w : string) : bool :=
  Py.endswith w "y" && (2 <? Py.len w)%Z && negb (Py.from_end_in 2 w "aeiou").

(** [w[-1]] as a one-character string, for [w + w[-1] + suffix]. *)
Definition last_char (w : string) : string :=
  match Py.from_end 1 w with
  | Some c => String c EmptyString
  | None => ""
  end.

Definition s_form (w : string) : string :=
  if consonant_y w then Py.drop_last 1 w +:+ "ies"
  else if existsb (Py.endswith w) ["s"; "ss"; "sh"; "ch"; "x"; "z"]
       then w +:+ "es"
       else w +:+ "s".

Definition ing_form (w : string) : string :=
  if Py.endswith w "e" && negb (Py.endswith w "ee")
  then Py.drop_last 1 w +:+ "ing"
  else if doubles_final w then w +:+ last_char w +:+ "ing"
       else w +:+ "ing".

Definition ed_form (w : string) : string :=
  if Py.endswith w "e" then w +:+ "d"
  else if consonant_y w then Py.drop_last 1 w +:+ "ied"
       else if doubles_final w then w +:+ last_char w +:+ "ed"
            else w +:+ "ed".

Definition er_form (w : string) : string :=
  if Py.endswith w "e" then w +:+ "r"
  else if consonant_y w then Py.drop_last 1 w +:+ "ier"
       else w +:+ "er".

Definition ly_form (w : string) : string :=
  if Py.endswith w "y" then Py.drop_last 1 w +:+ "ily"
  else w +:+ "ly".

(** The final comprehension [{f for f in forms if 2 <= len(f) <= 12}]. *)
Definition length_ok (f : string) : Prop := (2 <= Py.len f <= 12)%Z.

Global Instance length_ok_dec f : Decision (length_ok f).
Proof. unfold length_ok. apply _. Defined.

Definition generate_all_forms (base_word : string) : gset string :=
  let forms : gset string := {[ base_word ]} in
  let forms :=
    match irregular !! base_word with
    | Some explicit => forms ∪ list_to_set explicit
    | None =>
        forms ∪ {[ s_form base_word ]} ∪ {[ ing_form base_word ]}
              ∪ {[ ed_form base_word ]} ∪ {[ er_form base_word ]}
              ∪ {[ ly_form base_word ]}
    end in
  filter length_ok forms.

(** The literal list [core_words] of [main], the only words that the
    script expands: [for word in core_words:
      forms = generate_all_forms(word.lower())]. *)
Definition core_words : list string :=
  [
    "the"; "a"; "an"; "and"; "or"; "but"; "if"; "then"; "than"; "when"; "i";
    "me"; "my"; "mine"; "you"; "your"; "yours"; "he"; "him"; "his"; "she";
    "her"; "hers"; "it"; "its"; "we"; "us"; "our"; "ours"; "they"; "them";
    "their"; "theirs"; "this"; "that"; "these"; "those"; "what"; "which";
    "who"; "whom"; "whose"; "where"; "why"; "how"; "all"; "both"; "each";
    "every"; "any"; "some"; "no"; "none"; "one"; "two"; "three"; "four";
    "five"; "six"; "seven"; "eight"; "nine"; "ten"; "first"; "second";
    "third"; "next"; "last"; "many"; "few"; "more"; "most"; "less"; "least";
    "much"; "little"; "very"; "too"; "so"; "as"; "be"; "have"; "do"; "say";
    "go"; "get"; "make"; "know"; "think"; "take"; "see"; "come"; "want";
    "use"; "find"; "give"; "tell"; "work"; "call"; "try"; "ask"; "need";
    "feel"; "become"; "leave"; "put"; "mean"; "keep"; "let"; "begin";
    "seem"; "help"; "show"; "hear"; "play"; "run"; "move"; "like"; "live";
    "believe"; "bring"; "happen"; "write"; "provide"; "sit"; "stand";
    "lose"; "pay"; "meet"; "include"; "continue"; "set"; "learn"; "change";
    "lead"; "understand"; "watch"; "follow"; "stop"; "create"; "speak";
    "read"; "spend"; "grow"; "open"; "walk"; "win"; "teach"; "offer";
    "remember"; "love"; "consider"; "appear"; "buy"; "wait"; "serve"; "die";
    "send"; "expect"; "stay"; "fall"; "cut"; "reach"; "kill"; "raise";
    "pass"; "sell"; "require"; "report"; "decide"; "pull"; "carry"; "break";
    "hope"; "develop"; "drive"; "return"; "hold"; "turn"; "start"; "agree";
    "support"; "hit"; "eat"; "cover"; "catch"; "draw"; "choose"; "cause";
    "point"; "produce"; "build"; "join"; "plan"; "save"; "pick"; "wear";
    "form"; "present"; "fire"; "fight"; "throw"; "top"; "buy"; "enjoy";
    "deal"; "base"; "check"; "maintain"; "contain"; "exist"; "allow";
    "share"; "act"; "face"; "result"; "center"; "end"; "force"; "control";
    "test"; "cost"; "sound"; "remain"; "increase"; "indicate"; "suggest";
    "improve"; "hang"; "suffer"; "time"; "person"; "year"; "way"; "day";
    "thing"; "man"; "world"; "life"; "hand"; "part"; "child"; "eye";
    "woman"; "place"; "work"; "week"; "case"; "point"; "government";
    "company"; "number"; "group"; "problem"; "fact"; "money"; "lot";
    "right"; "study"; "book"; "water"; "room"; "mother"; "area"; "hour";
    "game"; "line"; "end"; "member"; "law"; "car"; "city"; "community";
    "name"; "president"; "team"; "minute"; "idea"; "kid"; "body";
    "information"; "back"; "parent"; "face"; "others"; "level"; "office";
    "door"; "health"; "person"; "art"; "war"; "history"; "party"; "result";
    "change"; "morning"; "reason"; "research"; "girl"; "guy"; "moment";
    "air"; "teacher"; "force"; "education"; "foot"; "boy"; "age"; "policy";
    "process"; "music"; "market"; "sense"; "nation"; "plan"; "college";
    "interest"; "death"; "experience"; "effect"; "use"; "class"; "control";
    "care"; "field"; "development"; "role"; "effort"; "rate"; "heart";
    "drug"; "show"; "leader"; "light"; "voice"; "wife"; "whole"; "police";
    "mind"; "price"; "report"; "decision"; "son"; "hope"; "view";
    "relationship"; "town"; "road"; "drive"; "arm"; "difference"; "value";
    "building"; "action"; "model"; "season"; "society"; "tax"; "director";
    "good"; "new"; "first"; "last"; "long"; "great"; "little"; "own";
    "other"; "old"; "right"; "big"; "high"; "different"; "small"; "large";
    "next"; "early"; "young"; "important"; "few"; "public"; "bad"; "same";
    "able"; "human"; "local"; "sure"; "best"; "low"; "black"; "white";
    "real"; "certain"; "free"; "whole"; "international"; "full"; "special";
    "easy"; "clear"; "recent"; "strong"; "possible"; "late"; "general";
    "personal"; "open"; "red"; "difficult"; "available"; "likely"; "short";
    "single"; "medical"; "current"; "wrong"; "private"; "past"; "foreign";
    "fine"; "common"; "poor"; "natural"; "significant"; "similar"; "hot";
    "dead"; "central"; "happy"; "serious"; "ready"; "simple"; "left";
    "physical"; "federal"; "entire"; "close"; "official"; "environmental";
    "computer"; "internet"; "website"; "email"; "phone"; "software";
    "system"; "network"; "data"; "file"; "user"; "password"; "account";
    "online"; "digital"; "server"; "database"; "app"; "mobile"; "device";
    "screen"; "click"; "download"; "upload"; "link"; "browser"; "search";
    "login"; "update"; "install"; "house"; "home"; "door"; "window"; "room";
    "table"; "chair"; "bed"; "floor"; "wall"; "car"; "street"; "road";
    "city"; "town"; "country"; "school"; "store"; "food"; "water"; "book";
    "paper"; "pen"; "phone"; "computer"; "money"; "card"; "key"; "bag";
    "box"; "tree"; "plant"; "flower"; "grass"; "animal"; "dog"; "cat";
    "bird"; "fish"; "horse"; "sun"; "moon"; "star"; "sky"; "cloud"; "rain";
    "snow"; "wind"; "mountain"; "river"; "today"; "tomorrow"; "yesterday";
    "morning"; "afternoon"; "evening"; "night"; "week"; "month"; "year";
    "monday"; "tuesday"; "wednesday"; "thursday"; "friday"; "saturday";
    "sunday"; "january"; "february"; "march"; "april"; "may"; "june";
    "july"; "august"; "september"; "october"; "november"; "december"
  ].

End TrulyReadable.

(** ** Reading a word file: [[line.strip() for line in f if line.strip()]] *)

Definition read_words (lines : list string) : list string :=
  filter (λ w, w ≠ "") (map Py.strip lines).

(** What a script leaves behind: the word list it wrote, or nothing. *)
Inductive outcome : Type :=
  | Written (words : list string)
  | NotWritten.

(** ** create_final_dictionary.py *)

Module FinalDict.

Record state : Type := mkState {
  unique_words : list string;
  seen : gset string
}.

Definition count (st : state) : Z := Z.of_nat (length (unique_words st)).

Definition push (w : string) (st : state) : state :=
  {| unique_words := unique_words st ++ [w]; seen := {[ w ]} ∪ seen st |}.

(** Order-preserving de-duplication, alphabetic words only. *)
Fixpoint dedupe (words : list string) (st : state) : state :=
  match words with
  | [] => st
  | word :: rest =>
      if bool_decide (word ∉ seen st) && Py.isalpha word
      then dedupe rest (push word st)
      else dedupe rest st
  end.

Definition suffixes : list string :=
  ["ly"; "ful"; "less"; "ness"; "ment"; "able"; "ible"; "ish"; "ize"; "ify"].

Definition prefixes : list string :=
  ["re"; "un"; "pre"; "post"; "over"; "under"; "out"; "up"; "down"; "anti"].

Definition colors : list string :=
  ["red"; "blue"; "green"; "black"; "white"; "yellow"; "pink"; "brown";
   "gray"; "orange"].

Definition objects : list string :=
  ["box"; "ball"; "hat"; "bag"; "cup"; "pen"; "book"; "door"; "key"; "star"].

(** The inner loop over the affixes of one base word; [mk] builds the
    candidate ([base + suffix] or [prefix + base]).  The loop is left as
    soon as the list is full. *)
Fixpoint try_affixes (mk : string → string) (affixes : list string)
    (st : state) : state :=
  match affixes with
  | [] => st
  | a :: rest =>
      let candidate := mk a in
      if bool_decide (candidate ∉ seen st) && (Py.len candidate <=? 12)%Z
      then
        let st' := push candidate st in
        if (65536 <=? count st')%Z then st' else try_affixes mk rest st'
      else try_affixes mk rest st
  end.

(** The outer loop over the base words. *)
Fixpoint try_bases (mk : string → string → string) (affixes : list string)
    (base_words : list string) (st : state) : state :=
  match base_words with
  | [] => st
  | base :: rest =>
      if (65536 <=? count st)%Z then st
      else try_bases mk affixes rest (try_affixes (mk base) affixes st)
  end.

(** The inner loop of the colour/object product: the size test comes
    first and only leaves the inner loop; there is no length test. *)
Fixpoint try_objects (color : string) (objs : list string) (st : state)
    : state :=
  match objs with
  | [] => st
  | obj :: rest =>
      if (65536 <=? count st)%Z then st
      else
        let candidate := color +:+ obj in
        if bool_decide (candidate ∉ seen st)
        then try_objects color rest (push candidate st)
        else try_objects color rest st
  end.

Fixpoint try_colors (cols : list string) (st : state) : state :=
  match cols with
  | [] => st
  | color :: rest => try_colors rest (try_objects color objects st)
  end.

Definition fill (st : state) : state :=
  if (count st <? 65536)%Z then
    let base_words := take (Z.to_nat 10000) (unique_words st) in
    let st := try_bases (λ base suffix, base +:+ suffix) suffixes base_words st in
    let st :=
      if (count st <? 65536)%Z
      then try_bases (λ base prefix, prefix +:+ base) prefixes base_words st
      else st in
    if (count st <? 65536)%Z then try_colors colors st else st
  else st.

(** [main], from the lines of the input file to the words written. *)
Definition main (lines : list string) : list string :=
  let words := read_words lines in
  let st := dedupe words {| unique_words := []; seen := ∅ |} in
  let st := fill st in
  take (Z.to_nat 65536) (unique_words st).

End FinalDict.

(** ** scripts/fix_dictionary_size.py *)

Module FixSize.

(** The test a line of the frequency list must pass to be appended. *)
Definition acceptable (current_words_set : gset string) (word : string) : bool :=
  negb (String.eqb word "")
  && bool_decide (word ∉ current_words_set)
  && (2 <=? Py.len word)%Z
  && Py.isalpha word
  && Py.all_ascii word.

(** The loop over the frequency list, left once enough words are found. *)
Fixpoint collect (current_words_set : gset string) (words_needed : Z)
    (freq_lines : list string) (replacement_words : list string)
    : list string :=
  match freq_lines with
  | [] => replacement_words
  | line :: rest =>
      let word := Py.strip line in
      if acceptable current_words_set word then
        let replacement_words := replacement_words ++ [word] in
        if (words_needed <=? Z.of_nat (length replacement_words))%Z
        then replacement_words
        else collect current_words_set words_needed rest replacement_words
      else collect current_words_set words_needed rest replacement_words
  end.

Definition fix_dictionary_size (dict_lines freq_lines : list string) : outcome :=
  let current_words := read_words dict_lines in
  let current_words_set : gset string := list_to_set current_words in
  let words_needed := (65536 - Z.of_nat (length current_words))%Z in
  if (words_needed <=? 0)%Z then NotWritten
  else
    let replacement_words := collect current_words_set words_needed freq_lines [] in
    let final_words := current_words ++ take (Z.to_nat words_needed) replacement_words in
    if bool_decide (size (list_to_set final_words : gset string) ≠ length final_words)
    then NotWritten
    else Written final_words.

(** What is known of a word appended from the frequency list. *)
Definition checked (present : list string) (w : string) : Prop :=
  Py.isalpha w = true ∧ Py.all_ascii w = true ∧ (2 ≤ Py.len w)%Z ∧ w ∉ present.

End FixSize.

(** ** create_readable_dictionary.py : padding the selection to full size *)

Module ReadableDict.

(** [while len(output_words) < 65536:
       output_words.append(f"word{len(output_words):05d}")]
    with an explicit iteration budget; [None] means the budget ran out. *)
Fixpoint pad (fuel : nat) (output_words : list string) : option (list string) :=
  if (Z.of_nat (length output_words) <? 65536)%Z then
    match fuel with
    | O => None
    | S fuel' =>
        pad fuel'
          (output_words
             ++ ["word" +:+ Py.zero_padded 5 (N.of_nat (length output_words))])
    end
  else Some output_words.

(** The shape of a padding entry. *)
Definition is_pad (w : string) : Prop :=
  ∃ n, w = "word" +:+ Py.zero_padded 5 n ∧ Py.isalpha w = false.

End ReadableDict.

(** ** Exceptions and runs

    A run either returns, raises, or exhausts the iteration budget that the
    embedding gives to Python's unbounded [while] loops.  [OutOfFuel] is an
    artefact of the embedding; the termination theorems show when it cannot
    arise. *)

Inductive exn : Type :=
  | RuntimeError (msg : string)
  | IndexError
  | ValueError
  | SystemExit (msg : string).

Inductive res (A : Type) : Type :=
  | Ok (a : A)
  | Raise (e : exn)
  | OutOfFuel.

Arguments Ok {A} a.
Arguments Raise {A} e.
Arguments OutOfFuel {A}.

Global Instance res_bind : MBind res := λ A B k m,
  match m with
  | Ok a => k a
  | Raise e => Raise e
  | OutOfFuel => OutOfFuel
  end.

Global Instance res_ret : MRet res := λ A a, Ok a.

(** Numeric comparisons on floats. *)
Definition Qltb (x y : Q) : bool := negb (Qle_bool y x).

(** [text.splitlines()] on code points below 256: a line ends at LF, VT,
    FF, CR (CR LF counting once), FS, GS, RS or NEL. *)
Definition is_linebreak (c : ascii) : bool :=
  let n := Py.code c in
  Py.between 10 13 n || Py.between 28 30 n || (n =? 133)%N.

Fixpoint splitlines_chars (l cur : list ascii) : list string :=
  match l with
  | [] => match cur with
          | [] => []
          | _ => [String.string_of_list_ascii (rev cur)]
          end
  | c :: rest =>
      if is_linebreak c then
        String.string_of_list_ascii (rev cur) ::
          match c, rest with
          | "013"%char, "010"%char :: rest' => splitlines_chars rest' []
          | _, _ => splitlines_chars rest []
          end
      else splitlines_chars rest (c :: cur)
  end.

Definition splitlines (s : string) : list string :=
  splitlines_chars (Py.chars s) [].
(** ** letter_wordlist_generator.py *)

Module LetterGen.

(** The command-line options that the algorithm reads. *)
Record options : Type := mkOptions {
  target_size : Z;
  max_cycles : Z;
  freq_threshold : Q;
  max_retries : Z;
  per_letter_max : Z;
  min_length : Z;
  max_length : Z;
  allow_proper_nouns : bool;
  auto_loosen : bool;
  loosen_step : Q;
  min_freq : Q
}.

(** [make_word_re(min_len, max_len)] compiles [^[a-z]{min_len,max_len}$];
    the pattern is kept as its two bounds.  This is what Python compiles
    when the bounds form a repetition, [repetition_bounds] below.  With
    a negative bound the braces are literal text (the pattern then
    matches one letter followed by the text [{min,max}]), with
    [max_len < min_len] the compilation raises [re.error], and with a
    bound of [MAXREPEAT] or more [OverflowError]: those patterns are
    outside this embedding, and the statements that speak of the
    pattern carry [repetition_bounds] as a hypothesis. *)
Record word_re : Type := mkWordRe { re_min : Z; re_max : Z }.

(** The bounds with which [[a-z]{min_len,max_len}] is a repetition
    ([MAXREPEAT] is 4294967295). *)
Definition repetition_bounds (min_len max_len : Z) : Prop :=
  (0 ≤ min_len ≤ max_len)%Z ∧ (max_len < 4294967295)%Z.

Definition make_word_re (min_len max_len : Z) : word_re :=
  {| re_min := min_len; re_max := max_len |}.

(** [re_word.fullmatch(word)] as a truth value. *)
Definition fullmatch (re_word : word_re) (word : string) : bool :=
  forallb Py.is_az (Py.chars word)
  && (re_min re_word <=? Py.len word)%Z
  && (Py.len word <=? re_max re_word)%Z.

Definition DEFAULT_BANNED : gset string :=
  Eval vm_compute in
  list_to_set
    ["cunt"; "damn"; "shit"; "fuck"; "dick"; "twat"; "piss"; "arse"; "crap";
     "bitch"; "bastard"; "bollock"; "bollocks"; "bugger"; "wank"; "prick"].

(** Works on the words of the output file and the calls made so far. *)
Record store : Type := mkStore {
  final_words : gset string;   (* the shared set [final_words] *)
  out_lines : list string;     (* lines appended to [out_fh] *)
  calls : nat                  (* requests sent to the model so far *)
}.

(** Why the main loop was left. *)
Inductive exit_reason : Type :=
  | MaxCyclesAbort
  | TargetReached
  | Stalled.

Record loop_state : Type := mkLoop {
  st_store : store;
  freq_current : Q;
  cycle : Z;
  passes : nat                 (* alphabet passes executed (ghost) *)
}.

Inductive control : Type :=
  | Continue (s : loop_state)
  | Break (why : exit_reason) (s : loop_state).

(** [scored[:target]] with Python's reading of a negative bound. *)
Definition slice_to {A : Type} (target : Z) (l : list A) : list A :=
  if (0 <=? target)%Z then take (Z.to_nat target) l
  else take (Z.to_nat (Z.of_nat (length l) + target)) l.

Section WithServices.

(** [wordfreq.zipf_frequency(word, "en")]. *)
Variable zipf_frequency : string → Q.

(** The [n]-th request to the chat endpoint: [None] is an
    [OpenAIError], [Some content] the message content returned. *)
Variable api : nat → option string.

(** [is_valid]; [None] is the [IndexError] of [word[0]] on an empty word. *)
Definition is_valid (word : string) (freq_threshold : Q)
    (banned : gset string) (re_word : word_re) (allow_proper : bool)
    : option bool :=
  if bool_decide (word ∈ banned) then Some false
  else if negb (fullmatch re_word word) then Some false
  else if Qltb (zipf_frequency word) freq_threshold then Some false
  else if negb allow_proper then
    match String.get 0 word with
    | Some c => if Py.char_isupper c then Some false else Some true
    | None => None
    end
  else Some true.

(** The attempts of [query_model]: [for attempt in range(1, retries + 1)]. *)
Fixpoint query_attempts (attempts : nat) (n : nat) : option string * nat :=
  match attempts with
  | O => (None, n)
  | S attempts' =>
      match api n with
      | Some content => (Some (Py.strip content), S n)
      | None => query_attempts attempts' (S n)
      end
  end.

(** [query_model]: the stripped reply, or [RuntimeError] after
    [retries] failed attempts; also the request counter afterwards. *)
Definition query_model (retries : Z) (n : nat) : res string * nat :=
  match query_attempts (Z.to_nat retries) n with
  | (Some text, n') => (Ok text, n')
  | (None, n') => (Raise (RuntimeError "OpenAI API failed too many times"), n')
  end.

Section Pass.

Variable opts : options.
Variable re_word : word_re.
Variable banned : gset string.
Variable freq_threshold : Q.

(** The selection of [new_batch] from the lines of a reply. *)
Fixpoint select_new (lines : list string) (final : gset string)
    (seen : gset string) : res (list string) :=
  match lines with
  | [] => Ok []
  | line :: rest =>
      let w := Py.lower (Py.strip line) in
      if negb (String.eqb w "")
         && bool_decide (w ∉ final) && bool_decide (w ∉ seen)
      then
        match is_valid w freq_threshold banned re_word
                (allow_proper_nouns opts) with
        | None => Raise IndexError
        | Some true => new_batch ← select_new rest final seen; Ok (w :: new_batch)
        | Some false => select_new rest final seen
        end
      else select_new rest final seen
  end.

(** The [while len(seen) < opts.per_letter_max] loop for one letter;
    the result carries [added_this_pass]. *)
Fixpoint letter_loop (fuel : nat) (seen : gset string)
    (st : store) (added : Z) : res (store * Z) :=
  if (Z.of_nat (size seen) <? per_letter_max opts)%Z then
    match fuel with
    | O => OutOfFuel
    | S fuel' =>
        let (reply, n') := query_model (max_retries opts) (calls st) in
        let st := {| final_words := final_words st;
                     out_lines := out_lines st; calls := n' |} in
        text ← reply;
        if String.eqb text "" then Ok (st, added)
        else
          new_batch ← select_new (splitlines text) (final_words st) seen;
          match new_batch with
          | [] => Ok (st, added)
          | _ =>
              letter_loop fuel'
                (seen ∪ list_to_set new_batch)
                {| final_words := final_words st ∪ list_to_set new_batch;
                   out_lines := out_lines st ++ new_batch;
                   calls := n' |}
                (added + Z.of_nat (length new_batch))%Z
          end
    end
  else Ok (st, added).

Definition starts_with (letter : ascii) (w : string) : Prop :=
  Py.startswith w (String letter EmptyString) = true.

Global Instance starts_with_dec letter w : Decision (starts_with letter w).
Proof. unfold starts_with. apply _. Defined.

(** [alphabet_pass]: the loop over the letters. *)
Fixpoint alphabet_letters (fuel : nat) (letters : list ascii)
    (st : store) (added : Z) : res (store * Z) :=
  match letters with
  | [] => Ok (st, added)
  | letter :: rest =>
      let seen := filter (starts_with letter) (final_words st) in
      '(st, added) ← letter_loop fuel seen st added;
      alphabet_letters fuel rest st added
  end.

Definition alphabet_pass (fuel : nat) (letters : string) (st : store)
    : res (store * Z) :=
  alphabet_letters fuel (Py.chars letters) st 0%Z.

End Pass.

(** Python tuple order on [(frequency, word)] pairs. *)
Definition tuple_le (a b : Q * string) : bool :=
  Qltb (fst a) (fst b)
  || (Qeq_bool (fst a) (fst b) && String.leb (snd a) (snd b)).

(** The order after [scored.sort(reverse=True)]: larger tuples first. *)
Definition ranks_before (a b : Q * string) : Prop := tuple_le b a = true.

Global Instance ranks_before_dec a b : Decision (ranks_before a b).
Proof. unfold ranks_before. apply _. Defined.

Definition score (w : string) : Q * string := (zipf_frequency w, w).

(** [w] is ranked at or before [w'] by the descending sort. *)
Definition outranks (w w' : string) : Prop := ranks_before (score w) (score w').

(** [trim_to_target] on the words in the order the set yields them. *)
Definition trim_list (enum : list string) (target min_len max_len : Z)
    : list string :=
  let re_word := make_word_re min_len max_len in
  let scored := score <$> filter (λ w, fullmatch re_word w = true) enum in
  let scored := merge_sort ranks_before scored in
  snd <$> slice_to target scored.

(** A list of scored words is the scoring of its word column. *)
Definition scored_list (l : list (Q * string)) : Prop :=
  Forall (λ x, x = score x.2) l.

(** [w] passes the pattern of [trim_to_target]. *)
Definition in_window (min_len max_len : Z) (w : string) : Prop :=
  fullmatch (make_word_re min_len max_len) w = true.

Global Instance in_window_dec min_len max_len w :
  Decision (in_window min_len max_len w).
Proof. unfold in_window. apply _. Defined.

(** The scored and sorted candidates inside [trim_list]. *)
Definition ranking (min_len max_len : Z) (enum : list string)
    : list (Q * string) :=
  merge_sort ranks_before (score <$> filter (in_window min_len max_len) enum).

Definition trim_to_target (words : gset string) (target min_len max_len : Z)
    : list string :=
  trim_list (elements words) target min_len max_len.

Section Main.

Variable opts : options.
Variable banned : gset string.

(** [x - y] on floats.  The thresholds are finite floats, that is,
    rationals, which [<] compares exactly; their difference is rounded,
    so the subtraction is left open: what is proved of the loop holds
    whatever the rounding.  (A NaN or an infinity among the options is
    outside this embedding.) *)
Variable fsub : Q → Q → Q.

(** One turn of the [while True] loop of [main]. *)
Definition cycle_step (fuel : nat) (s : loop_state) : res control :=
  let cycle' := (cycle s + 1)%Z in
  let s := {| st_store := st_store s; freq_current := freq_current s;
              cycle := cycle'; passes := passes s |} in
  if negb (max_cycles opts =? 0)%Z && (max_cycles opts <? cycle')%Z
  then Ok (Break MaxCyclesAbort s)
  else
    '(st, added) ← alphabet_pass opts
                      (make_word_re (min_length opts) (max_length opts))
                      banned (freq_current s) fuel
                      "abcdefghijklmnopqrstuvwxyz" (st_store s);
    let s := {| st_store := st; freq_current := freq_current s;
                cycle := cycle'; passes := S (passes s) |} in
    if negb (target_size opts =? 0)%Z
       && (target_size opts <=? Z.of_nat (size (final_words st)))%Z
    then Ok (Break TargetReached s)
    else if (added =? 0)%Z then
      if negb (auto_loosen opts)
         || Qltb (fsub (freq_current s) (loosen_step opts)) (min_freq opts)
      then Ok (Break Stalled s)
      else Ok (Continue
                 {| st_store := st;
                    freq_current := fsub (freq_current s) (loosen_step opts);
                    cycle := cycle'; passes := passes s |})
    else Ok (Continue s).

Fixpoint main_loop (fuel pass_fuel : nat) (s : loop_state)
    : res (exit_reason * loop_state) :=
  match fuel with
  | O => OutOfFuel
  | S fuel' =>
      c ← cycle_step pass_fuel s;
      match c with
      | Break why s' => Ok (why, s')
      | Continue s' => main_loop fuel' pass_fuel s'
      end
  end.

Definition state_of (c : control) : loop_state :=
  match c with
  | Continue s => s
  | Break _ s => s
  end.

(** [reaches s s']: the loop, entered in state [s], is at the head of
    a later turn in state [s']. *)
Inductive reaches : loop_state → loop_state → Prop :=
  | reaches_here s : reaches s s
  | reaches_next fuel s s' s'' :
      reaches s s' →
      cycle_step fuel s' = Ok (Continue s'') →
      reaches s s''.

(** The state in which [main] enters its loop; [existing] are the
    lines of the output file when the run resumes one (none for a new
    file).  The file is kept as its lines: a resumed file is taken to
    end with a line break, so that the first word appended starts a
    line of its own. *)
Definition initial (existing : list string) : loop_state :=
  {| st_store := {| final_words := list_to_set (read_words existing);
                    out_lines := existing; calls := 0 |};
     freq_current := freq_threshold opts;
     cycle := 0; passes := 0 |}.

(** What [main] leaves: the accepted set and the output file. *)
Record finished : Type := mkFinished {
  why_left : exit_reason;
  last_state : loop_state;
  result_words : gset string;
  result_file : list string
}.

Definition trim_surplus (s : loop_state) : gset string * list string :=
  let words := final_words (st_store s) in
  if negb (target_size opts =? 0)%Z
     && (target_size opts <? Z.of_nat (size words))%Z
  then
    let kept := trim_to_target words (target_size opts)
                  (min_length opts) (max_length opts) in
    (list_to_set kept, Py.sorted kept)
  else (words, out_lines (st_store s)).

Definition main (fuel pass_fuel : nat) (existing : list string)
    : res finished :=
  '(why, s) ← main_loop fuel pass_fuel (initial existing);
  let (words, file) := trim_surplus s in
  Ok {| why_left := why; last_state := s;
        result_words := words; result_file := file |}.

End Main.

End WithServices.

End LetterGen.

(** ** wordlist_openai_improver.py *)

Module Improver.

Record options : Type := mkOptions {
  batch_size : Z;
  freq_threshold : Q;
  max_retries : Z
}.

(** One entry of the [results] array of a parsed reply; every key may be
    missing. *)
Record verdict : Type := mkVerdict {
  v_word : option string;
  v_keep : option bool;
  v_reason : option string;
  v_replacements : option (list string)
}.

(** The message of a completed request, as [json.loads] sees it. *)
Inductive response : Type :=
  | Unparsable                                (* no function call, or invalid JSON *)
  | Parsed (results : option (list verdict)). (* a JSON object *)

(** What one request to the chat endpoint gives. *)
Inductive reply : Type :=
  | ApiError                                  (* [openai.error.OpenAIError] *)
  | Response (r : response).

(** A message after which a batch leaves the list as it is: it cannot be
    parsed, or it carries no results. *)
Definition quiet (r : response) : Prop :=
  r = Unparsable ∨ r = Parsed None ∨ r = Parsed (Some []).

(** [RE_NON_ALPHA.search(word)] : some character outside [[a-zA-Z]]. *)
Definition has_non_alpha (word : string) : bool :=
  existsb (λ c, let n := Py.code c in
                negb (Py.between 97 122 n || Py.between 65 90 n))
          (Py.chars word).

Definition placeholder_of (word : string) : string :=
  "_missing_" +:+ word +:+ "_".

(** [PLACEHOLDER_RE.match(w)] for [^_missing_[a-z]+_$]; the final [$]
    also accepts one trailing line feed. *)
Definition placeholder_body (body : list ascii) : bool :=
  match rev body with
  | "_"%char :: (_ :: _) as inner => forallb Py.is_az inner
  | _ => false
  end.

Definition is_placeholder (w : string) : bool :=
  String.prefix "_missing_" w
  && (let body := drop 9 (Py.chars w) in
      placeholder_body body
      || match rev body with
         | "010"%char :: inner => placeholder_body (rev inner)
         | _ => false
         end).

Definition BANNED : gset string :=
  Eval vm_compute in
  list_to_set
    ["cunt"; "dammit"; "damn"; "damned"; "dick"; "dicks";
     "shit"; "shits"; "fucker"; "fucking"; "fuck"; "fucks";
     "asshole"; "twat"; "bastard"; "bollocks"; "bugger"].

(** [words.remove(x)]: drops the first occurrence; [None] is the
    [ValueError] raised when there is none. *)
Fixpoint list_remove (x : string) (l : list string) : option (list string) :=
  match l with
  | [] => None
  | y :: l' =>
      if String.eqb x y then Some l'
      else l'' ← list_remove x l'; Some (y :: l'')
  end.

(** [chunked(seq, n)] for a positive [n]. *)
Fixpoint chunked_fuel (fuel : nat) (seq : list string) (n : nat)
    : list (list string) :=
  match fuel, seq with
  | _, [] => []
  | O, _ => []
  | S fuel', _ => take n seq :: chunked_fuel fuel' (drop n seq) n
  end.

(** [chunked(seq, n)]: [range(0, len(seq), n)] raises [ValueError] for a
    zero step and is empty for a negative one. *)
Definition chunked (seq : list string) (n : Z) : res (list (list string)) :=
  if (n =? 0)%Z then Raise ValueError
  else if (n <? 0)%Z then Ok []
  else Ok (chunked_fuel (length seq) seq (Z.to_nat n)).

(** The working data of [refine_wordlist]. *)
Record state : Type := mkState {
  words : list string;
  wordset : gset string;
  bloom : gset string;              (* the words added to the Bloom filter *)
  placeholders : list string;
  log : list (string * string * string);
  calls : nat
}.

Section WithServices.

(** [wordfreq.zipf_frequency(word, "en")]. *)
Variable zipf_frequency : string → Q.

(** [wordfreq.top_n_list("en", 50000)]. *)
Variable common_pool : list string.

(** The [n]-th request to the chat endpoint. *)
Variable api : nat → reply.

(** A Bloom filter answers yes for every word added to it, and may
    answer yes for others; this says for which. *)
Variable bloom_false_positive : gset string → string → bool.

Definition bloom_contains (added : gset string) (w : string) : bool :=
  bool_decide (w ∈ added) || bloom_false_positive added w.

Definition obvious_bad (word : string) (freq_threshold : Q) : bool :=
  bool_decide (word ∈ BANNED)
  || has_non_alpha word
  || Py.isupper word
  || Qltb (zipf_frequency word) freq_threshold.

Variable opts : options.

(** The initial purge: [for bw in list(wordset & BANNED)]. *)
Fixpoint purge (found : list string) (st : state) : res state :=
  match found with
  | [] => Ok st
  | bw :: rest =>
      match list_remove bw (words st) with
      | None => Raise ValueError
      | Some ws =>
          let ph := placeholder_of bw in
          purge rest
            {| words := ws ++ [ph];
               wordset := {[ ph ]} ∪ (wordset st ∖ {[ bw ]});
               bloom := {[ ph ]} ∪ bloom st;
               placeholders := placeholders st ++ [ph];
               log := log st;
               calls := calls st |}
      end
  end.

(** The retry loop around the request for one batch:
    [for attempt in range(1, opts.max_retries + 1)]; [None] is the
    loop's [else] branch, reached when every attempt failed. *)
Fixpoint request (attempts : nat) (n : nat) : option response * nat :=
  match attempts with
  | O => (None, n)
  | S attempts' =>
      match api n with
      | ApiError => request attempts' (S n)
      | Response r => (Some r, S n)
      end
  end.

(** The loop over the suggested replacements, left at the first one
    that is usable. *)
Fixpoint first_usable (alts : list string) (added : gset string)
    : option string :=
  match alts with
  | [] => None
  | a :: rest =>
      let alt := Py.lower a in
      if negb (String.eqb alt "") && Py.isalpha alt
         && negb (bloom_contains added alt)
         && negb (obvious_bad alt (freq_threshold opts))
      then Some alt
      else first_usable rest added
  end.

(** The body of [for rec in payload.get("results", [])]. *)
Definition apply_verdict (rec : verdict) (st : state) : res state :=
  let word := Py.lower (default "" (v_word rec)) in
  if bool_decide (word ∉ wordset st) then Ok st
  else if default true (v_keep rec) then Ok st
  else
    match list_remove word (words st) with
    | None => Raise ValueError
    | Some ws =>
        let reason := default "" (v_reason rec) in
        match first_usable (default [] (v_replacements rec)) (bloom st) with
        | Some alt =>
            Ok {| words := ws ++ [alt];
                  wordset := {[ alt ]} ∪ (wordset st ∖ {[ word ]});
                  bloom := {[ alt ]} ∪ bloom st;
                  placeholders := placeholders st;
                  log := log st ++ [(word, alt, reason)];
                  calls := calls st |}
        | None =>
            let ph := placeholder_of word in
            Ok {| words := ws ++ [ph];
                  wordset := {[ ph ]} ∪ (wordset st ∖ {[ word ]});
                  bloom := {[ ph ]} ∪ bloom st;
                  placeholders := placeholders st ++ [ph];
                  log := log st ++ [(word, ph, reason +:+ " (placeholder)")];
                  calls := calls st |}
        end
    end.

Fixpoint apply_verdicts (recs : list verdict) (st : state) : res state :=
  match recs with
  | [] => Ok st
  | rec :: rest => st' ← apply_verdict rec st; apply_verdicts rest st'
  end.

Definition with_calls (n : nat) (st : state) : state :=
  {| words := words st; wordset := wordset st; bloom := bloom st;
     placeholders := placeholders st; log := log st; calls := n |}.

(** The body of [for batch in chunked(candidates, opts.batch_size)]. *)
Definition process_batch (st : state) : res state :=
  match request (Z.to_nat (max_retries opts)) (calls st) with
  | (None, _) =>
      Raise (SystemExit "Too many consecutive OpenAI errors; aborting.")
  | (Some Unparsable, n) => Ok (with_calls n st)
  | (Some (Parsed results), n) =>
      apply_verdicts (default [] results) (with_calls n st)
  end.

Fixpoint process_batches (batches : list (list string)) (st : state)
    : res state :=
  match batches with
  | [] => Ok st
  | _ :: rest => st' ← process_batch st; process_batches rest st'
  end.

(** Advancing [pool_iter] to the next word that may fill a gap; the
    words passed over are consumed. *)
Fixpoint next_candidate (pool : list string) (added : gset string)
    : option (string * list string) :=
  match pool with
  | [] => None
  | candidate :: rest =>
      if Py.isalpha candidate
         && negb (bloom_contains added candidate)
         && negb (obvious_bad candidate (freq_threshold opts))
      then Some (candidate, rest)
      else next_candidate rest added
  end.

(** A pool word that cannot fill a gap, given the words [added] to the
    Bloom filter. *)
Definition unusable (added : gset string) (c : string) : Prop :=
  Py.isalpha c = false ∨ c ∈ added
  ∨ obvious_bad c (freq_threshold opts) = true.

(** [for idx, w in enumerate(words)]: the filling of the placeholders. *)
Fixpoint fill (ws : list string) (pool : list string) (added : gset string)
    : list string * gset string :=
  match ws with
  | [] => ([], added)
  | w :: rest =>
      if is_placeholder w then
        match next_candidate pool added with
        | Some (candidate, pool') =>
            let (rest', added') := fill rest pool' ({[ candidate ]} ∪ added) in
            (candidate :: rest', added')
        | None =>
            let (rest', added') := fill rest [] added in
            (w :: rest', added')
        end
      else
        let (rest', added') := fill rest pool added in
        (w :: rest', added')
  end.

Definition fill_placeholders (st : state) : state :=
  match placeholders st with
  | [] => st
  | _ =>
      let (ws, added) := fill (words st) common_pool (bloom st) in
      {| words := ws; wordset := wordset st; bloom := added;
         placeholders := placeholders st; log := log st; calls := calls st |}
  end.

(** The state in which the batches are processed: the list as loaded,
    with the banned words replaced by placeholders. *)
Definition load (lines : list string) : res state :=
  let words := map Py.lower (read_words lines) in
  if bool_decide (Z.of_nat (length words) ≠ 65536%Z)
  then Raise (SystemExit "Input list needs 65 536 words.")
  else
    let wordset : gset string := list_to_set words in
    purge (elements (wordset ∩ BANNED))
      {| words := words; wordset := wordset; bloom := wordset;
         placeholders := []; log := []; calls := 0 |}.

Definition candidates_of (st : state) : list string :=
  filter (λ w, obvious_bad w (freq_threshold opts) = false
               ∧ is_placeholder w = false) (words st).

(** The state just before the final length check. *)
Definition refine_state (lines : list string) : res state :=
  st ← load lines;
  batches ← chunked (candidates_of st) (batch_size opts);
  st ← process_batches batches st;
  Ok (fill_placeholders st).

(** [refine_wordlist]: the lines written to the output file. *)
Definition refine_wordlist (lines : list string) : res (list string) :=
  st ← refine_state lines;
  if bool_decide (Z.of_nat (length (words st)) ≠ 65536%Z)
  then Raise (SystemExit "Length drifted - investigate.")
  else Ok (Py.sorted (words st)).

End WithServices.

End Improver.

(** ** Sample services and options, used to exercise the statements *)

Module Examples.

(** A frequency table that rates every word 3.0. *)
Definition flat_zipf (w : string) : Q := 3#1.

(** A model that always answers with an empty message. *)
Definition silent_api (n : nat) : option string := Some "".

(** [--target-size 3 --auto-loosen --freq-threshold 3.0 --min-freq 1.0
     --loosen-step 0.25 --min-length 3 --max-length 10], other options
    at their defaults. *)
Definition sample_options : LetterGen.options :=
  LetterGen.mkOptions 3 20 (3#1) 5 6000 3 10 false true (1#4) (1#1).

(** The state after one silent pass: nothing added, threshold loosened. *)
Definition after_silent_pass : LetterGen.loop_state :=
  {| LetterGen.st_store :=
       {| LetterGen.final_words := ∅; LetterGen.out_lines := [];
          LetterGen.calls := 26 |};
     LetterGen.freq_current := ((3#1) - (1#4))%Q;
     LetterGen.cycle := 1; LetterGen.passes := 1 |}.

(** [--auto-loosen --loosen-step -0.25], the other options as in
    [sample_options]. *)
Definition raising_options : LetterGen.options :=
  LetterGen.mkOptions 3 20 (3#1) 5 6000 3 10 false true (-1#4) (1#1).

(** The state after one silent pass with the negative step. *)
Definition after_raising_pass : LetterGen.loop_state :=
  {| LetterGen.st_store :=
       {| LetterGen.final_words := ∅; LetterGen.out_lines := [];
          LetterGen.calls := 26 |};
     LetterGen.freq_current := ((3#1) - (-1#4))%Q;
     LetterGen.cycle := 1; LetterGen.passes := 1 |}.

Definition three_words : gset string := list_to_set ["apple"; "bee"; "cat"].

(** An accepted set of which ['ox'] and ['at'] are shorter than three
    letters (a resumed file may hold such words). *)
Definition short_and_long_words : gset string :=
  list_to_set ["apple"; "bee"; "ox"; "at"].

(** A frequency table that rates ['apple'] 5.0 and every other word 3.0. *)
Definition ranked_zipf (w : string) : Q :=
  if String.eqb w "apple" then 5#1 else 3#1.

(** A dictionary file of 65,536 lines: ['damn'] and 65,535 times ['cat']. *)
Definition damn_and_cats : list string :=
  "damn" :: replicate (Z.to_nat 65535) "cat".

(** The working state after loading ['damn'] and [n] times ['cat']: the
    banned word has given way to its placeholder. *)
Definition loaded_damn_and_cats (n : nat) : Improver.state :=
  {| Improver.words := replicate n "cat" ++ ["_missing_damn_"];
     Improver.wordset :=
       {[ "_missing_damn_" ]}
       ∪ (list_to_set ("damn" :: replicate n "cat") ∖ {[ "damn" ]});
     Improver.bloom :=
       {[ "_missing_damn_" ]} ∪ list_to_set ("damn" :: replicate n "cat");
     Improver.placeholders := ["_missing_damn_"];
     Improver.log := [];
     Improver.calls := 0 |}.

(** A frequency table that rates every word 5.0. *)
Definition common_zipf (w : string) : Q := 5#1.

(** The improver's defaults: [--batch-size 500 --freq-threshold 3.5
    --max-retries 5]. *)
Definition improver_defaults : Improver.options :=
  Improver.mkOptions 500 (7#2) 5.

(** A classifier that answers every batch with an empty result list. *)
Definition keeps_all (n : nat) : Improver.reply :=
  Improver.Response (Improver.Parsed (Some [])).

(** A classifier whose every message fails to parse. *)
Definition garbles_all (n : nat) : Improver.reply :=
  Improver.Response Improver.Unparsable.

(** A classifier that fails five times and from then on sends messages
    that fail to parse. *)
Definition fails_five_times (n : nat) : Improver.reply :=
  if (n <? 5)%nat then Improver.ApiError
  else Improver.Response Improver.Unparsable.

(** A Bloom filter without false positives. *)
Definition exact_bloom (added : gset string) (w : string) : bool := false.

(** A small working state holding the two words ['cat'] and ['cow']. *)
Definition cat_and_cow : Improver.state :=
  {| Improver.words := ["cat"; "cow"];
     Improver.wordset := list_to_set ["cat"; "cow"];
     Improver.bloom := list_to_set ["cat"; "cow"];
     Improver.placeholders := []; Improver.log := []; Improver.calls := 0 |}.

(** The verdict that rejects ['cat'] and proposes ['dog']. *)
Definition cat_rejected : Improver.verdict :=
  Improver.mkVerdict (Some "cat") (Some false) (Some "dull") (Some ["dog"]).

(** [cat_and_cow] after that verdict. *)
Definition cow_and_dog : Improver.state :=
  {| Improver.words := ["cow"; "dog"];
     Improver.wordset := list_to_set ["cow"; "dog"];
     Improver.bloom := list_to_set ["cat"; "cow"; "dog"];
     Improver.placeholders := [];
     Improver.log := [("cat", "dog", "dull")];
     Improver.calls := 0 |}.

End Examples.

(** ** Further scripts and the notions their properties are stated with *)

(** ** fix_dictionary_duplicates.py *)

Module FixDuplicates.

Record state : Type := mkState {
  unique_words : list string;
  seen : gset string
}.

Definition push (w : string) (st : state) : state :=
  {| unique_words := unique_words st ++ [w]; seen := {[ w ]} ∪ seen st |}.

(** Order-preserving de-duplication. *)
Fixpoint dedupe (words : list string) (st : state) : state :=
  match words with
  | [] => st
  | word :: rest =>
      if bool_decide (word ∉ seen st)
      then dedupe rest (push word st)
      else dedupe rest st
  end.

(** The numbered entry [f"word{idx:05d}"]. *)
Definition numbered (idx : N) : string := "word" +:+ Py.zero_padded 5 idx.

(** [while len(unique_words) < 65536: ...; idx += 1] with an explicit
    iteration budget; [None] means the budget ran out. *)
Fixpoint pad (fuel : nat) (idx : N) (st : state) : option state :=
  if (Z.of_nat (length (unique_words st)) <? 65536)%Z then
    match fuel with
    | O => None
    | S fuel' =>
        let new_word := numbered idx in
        pad fuel' (idx + 1)
          (if bool_decide (new_word ∉ seen st) then push new_word st else st)
    end
  else Some st.

(** [main], from the lines of the dictionary file to the words written
    back. *)
Definition main (fuel : nat) (lines : list string) : option (list string) :=
  let words := read_words lines in
  let st := dedupe words {| unique_words := []; seen := ∅ |} in
  st ← (if (Z.of_nat (length (unique_words st)) <? 65536)%Z
        then pad fuel 0 st else Some st);
  Some (take (Z.to_nat 65536) (unique_words st)).

(** The set mirrors the list, which has no repetition. *)
Definition well_formed (st : state) : Prop :=
  NoDup (unique_words st) ∧ ∀ w, w ∈ seen st ↔ w ∈ unique_words st.

End FixDuplicates.

(** ** create_truly_readable_dictionary.py : the end of [main] *)

Module TrulyReadableMain.

(** [while len(word_list) < 65536:
       word_list.append(f"word{idx:05d}"); idx += 1]
    with an explicit iteration budget; [None] means the budget ran out. *)
Fixpoint pad (fuel : nat) (idx : N) (word_list : list string)
    : option (list string) :=
  if (Z.of_nat (length word_list) <? 65536)%Z then
    match fuel with
    | O => None
    | S fuel' =>
        pad fuel' (idx + 1) (word_list ++ ["word" +:+ Py.zero_padded 5 idx])
    end
  else Some word_list.

(** From the set [all_words] to the list written:
    [sorted(list(all_words))[:65536]], filled up if it is short. *)
Definition finish (fuel : nat) (all_words : gset string)
    : option (list string) :=
  let word_list := take (Z.to_nat 65536) (Py.sorted (elements all_words)) in
  if (Z.of_nat (length word_list) <? 65536)%Z
  then pad fuel 0 word_list
  else Some word_list.

End TrulyReadableMain.

(** The number that a string of decimal digits denotes. *)
Definition digits_value (l : list ascii) : N :=
  fold_left (λ a c, 10 * a + (Py.code c - 48))%N l 0%N.

Module FinalDictInv.
Import FinalDict.

(** The set mirrors the list, which has no repetition and holds
    alphabetic words only. *)
Definition well_formed (st : state) : Prop :=
  NoDup (unique_words st)
  ∧ (∀ w, w ∈ seen st ↔ w ∈ unique_words st)
  ∧ Forall (λ w, Py.isalpha w = true) (unique_words st).

(** [st'] holds the words of [st], in the same places, and maybe more. *)
Definition extends (st st' : state) : Prop :=
  well_formed st' ∧ unique_words st `prefix_of` unique_words st'.

End FinalDictInv.

Module LetterGenInv.
Import LetterGen.

(** The options with the flag [--allow-proper-nouns] set to [b]. *)
Definition with_allow_proper_nouns (b : bool) (o : options) : options :=
  {| target_size := target_size o; max_cycles := max_cycles o;
     freq_threshold := freq_threshold o; max_retries := max_retries o;
     per_letter_max := per_letter_max o; min_length := min_length o;
     max_length := max_length o; allow_proper_nouns := b;
     auto_loosen := auto_loosen o; loosen_step := loosen_step o;
     min_freq := min_freq o |}.

(** The store after [new_batch] has been added and written. *)
Definition with_batch (new_batch : list string) (st : store) : store :=
  {| final_words := final_words st ∪ list_to_set new_batch;
     out_lines := out_lines st ++ new_batch;
     calls := calls st |}.

Definition with_calls (n : nat) (st : store) : store :=
  {| final_words := final_words st; out_lines := out_lines st; calls := n |}.

(** What the selection of [new_batch] lets through: a non-empty word
    that [is_valid] accepts. *)
Definition admitted (zipf_frequency : string → Q) (opts : options)
    (banned : gset string) (re_word : word_re) (thr : Q) (w : string)
    : Prop :=
  w ≠ ""
  ∧ is_valid zipf_frequency w thr banned re_word (allow_proper_nouns opts)
    = Some true.

End LetterGenInv.

Module LetterGenExamples.

(** A model whose first reply lists three words and whose later
    replies are empty. *)
Definition acorn_api (n : nat) : option string :=
  match n with
  | O => Some ("apple" +:+ String "010" ("able" +:+ String "010" "acorn"))
  | S _ => Some ""
  end.

(** [--target-size 2 --auto-loosen --freq-threshold 3.0 --min-freq 1.0
     --loosen-step 0.25 --min-length 3 --max-length 10]. *)
Definition two_word_options : LetterGen.options :=
  LetterGen.mkOptions 2 20 (3#1) 5 6000 3 10 false true (1#4) (1#1).

(** A model whose first reply holds the same word twice. *)
Definition repeating_api (n : nat) : option string :=
  match n with
  | O => Some ("tree" +:+ String "010" "tree")
  | S _ => Some ""
  end.

End LetterGenExamples.

Module ImproverInv.
Import Improver.

(** Every word of the set is in the list: what [words.remove] relies on. *)
Definition consistent (st : state) : Prop :=
  ∀ w, w ∈ wordset st → w ∈ words st.

(** [words.count(w)]. *)
Definition count (w : string) (l : list string) : nat :=
  length (filter (λ y, y = w) l).

(** The word is in the list but not in the set. *)
Definition stranded (bw : string) (st : state) : Prop :=
  (1 ≤ count bw (words st))%nat ∧ bw ∉ wordset st.

(** Where a written line comes from: the input, a placeholder, or a
    replacement that passed the filters. *)
Definition provenance (zipf_frequency : string → Q) (opts : options)
    (input : list string) (w : string) : Prop :=
  w ∈ input
  ∨ (∃ x, w = placeholder_of x)
  ∨ (Py.isalpha w = true
     ∧ obvious_bad zipf_frequency w (freq_threshold opts) = false).

End ImproverInv.

Module Examples2.

Definition two_damns_and_cats : list string :=
  "damn" :: "damn" :: replicate (Z.to_nat 65534) "cat".

End Examples2.

(** * Properties *)

(** ** The morphological expander *)

Module TrulyReadableFacts.
Import TrulyReadable.

Lemma length_prefix (n : nat) (s : string) :
  (n ≤ String.length s)%nat → String.length (String.substring 0 n s) = n.
Proof.
  revert n. induction s as [|c s IH]; intros [|n] Hn; simpl in *;
    [done|lia|done|].
  rewrite IH; [done|lia].
Qed.

Lemma len_app (s t : string) : Py.len (s +:+ t) = (Py.len s + Py.len t)%Z.
Proof.
  unfold Py.len. induction s as [|c s IH]; simpl; [reflexivity|lia].
Qed.

Lemma endswith_length (s suf : string) :
  Py.endswith s suf = true → (String.length suf ≤ String.length s)%nat.
Proof.
  unfold Py.endswith. intros H. apply andb_true_iff in H as [H _].
  by apply Nat.leb_le.
Qed.

(** The words of [core_words] that end in ['ie']. *)
Lemma core_words_in_ie :
  filter (λ w, Py.endswith (Py.lower w) "ie" = true) core_words = ["die"].
Proof. vm_compute. reflexivity. Qed.

Lemma die_is_irregular :
  Py.lower "die" = "die"
  ∧ irregular !! "die" = Some ["dies"; "died"; "dying"]
  ∧ "dying" ∈ generate_all_forms "die".
Proof.
  split; [reflexivity|]. split; [vm_compute; reflexivity|].
  apply (bool_decide_unpack _). vm_compute. exact I.
Qed.




End TrulyReadableFacts.

(** ** The size-fixing scripts *)

Module SizeFacts.
Import FixSize ReadableDict.

(** C1.  On a dictionary file holding the single word ['cat'],
    [create_final_dictionary.main] writes 121 words, and with an empty
    frequency list [fix_dictionary_size] writes the single word back:
    both finish normally with far fewer than 65,536 words. *)
Theorem short_input_is_written_short :
  Z.of_nat (length (FinalDict.main ["cat"])) = 121%Z
  ∧ FixSize.fix_dictionary_size ["cat"] [] = Written ["cat"].
Proof. split; vm_compute; reflexivity. Qed.

(** *** Decimal rendering never gives an alphabetic string *)

Lemma digits_fuel_suffix fuel n acc :
  ∃ pre, Py.digits_fuel fuel n acc = pre ++ acc.
Proof.
  revert n acc. induction fuel as [|fuel IH]; intros n acc; simpl.
  - by exists [].
  - destruct (n / 10 =? 0)%N.
    + by eexists [_].
    + destruct (IH (n / 10)%N (ascii_of_N (48 + n mod 10) :: acc)) as [pre ->].
      exists (pre ++ [ascii_of_N (48 + n mod 10)]). by rewrite <- app_assoc.
Qed.

Lemma decimal_ends_in_digit n :
  ∃ pre, Py.decimal n = pre ++ [ascii_of_N (48 + n mod 10)].
Proof.
  unfold Py.decimal. simpl. destruct (n / 10 =? 0)%N.
  - by exists [].
  - apply digits_fuel_suffix.
Qed.

Lemma digit_not_alpha (m : N) :
  (m < 10)%N → Py.char_isalpha (ascii_of_N (48 + m)) = false.
Proof.
  intros Hm.
  assert (Hall : forallb (λ k, negb (Py.char_isalpha (ascii_of_N (48 + N.of_nat k))))
                   (seq 0 10) = true) by (vm_compute; reflexivity).
  rewrite forallb_forall in Hall.
  specialize (Hall (N.to_nat m)).
  rewrite N2Nat.id in Hall. apply negb_true_iff, Hall, in_seq. lia.
Qed.

Lemma chars_append a b : Py.chars (a +:+ b) = Py.chars a ++ Py.chars b.
Proof.
  unfold Py.chars. induction a as [|c a IH]; simpl; [done|]. by rewrite IH.
Qed.

Lemma pad_word_not_alpha n :
  Py.isalpha ("word" +:+ Py.zero_padded 5 n) = false.
Proof.
  unfold Py.isalpha. apply andb_false_iff. right.
  rewrite chars_append. unfold Py.zero_padded, Py.chars at 2.
  rewrite String.list_ascii_of_string_of_list_ascii.
  destruct (decimal_ends_in_digit n) as [pre ->].
  rewrite !forallb_app. simpl.
  rewrite digit_not_alpha by (apply N.mod_lt; lia).
  by rewrite !andb_false_r.
Qed.

(** *** The padding loop of [create_readable_dictionary] *)

Lemma pad_spec fuel ws :
  (65536 - Z.of_nat (length ws) ≤ Z.of_nat fuel)%Z →
  ∃ pads, ReadableDict.pad fuel ws = Some (ws ++ pads) ∧ Forall is_pad pads.
Proof.
  revert ws. induction fuel as [|fuel IH]; intros ws Hfuel.
  - exists []. simpl. rewrite app_nil_r.
    destruct (Z.ltb_spec (Z.of_nat (length ws)) 65536); [lia|done].
  - cbn [ReadableDict.pad].
    destruct (Z.ltb_spec (Z.of_nat (length ws)) 65536).
    + destruct (IH (ws ++ ["word" +:+ Py.zero_padded 5 (N.of_nat (length ws))]))
        as (pads & -> & Hpads).
      { rewrite length_app. simpl. lia. }
      eexists (_ :: pads). rewrite <- app_assoc. split; [done|].
      constructor; [|done]. eexists. split; [done|apply pad_word_not_alpha].
    + exists []. by rewrite app_nil_r.
Qed.

(** One entry short of full size, the loop appends ['word65535']. *)
Lemma pad_last ws :
  Z.of_nat (length ws) = 65535%Z →
  pad 1 ws = Some (ws ++ ["word65535"]).
Proof.
  intros Hlen. cbn [pad].
  destruct (Z.ltb_spec (Z.of_nat (length ws)) 65536); [|lia].
  destruct (Z.ltb_spec
              (Z.of_nat (length (ws ++ ["word" +:+ Py.zero_padded 5
                                           (N.of_nat (length ws))])))
              65536) as [Hlt|_].
  { rewrite length_app in Hlt. simpl in Hlt. lia. }
  replace (N.of_nat (length ws)) with 65535%N by lia.
  done.
Qed.

(** *** The words that [fix_dictionary_size] appends *)

Lemma acceptable_checked present w :
  FixSize.acceptable (list_to_set present) w = true → checked present w.
Proof.
  unfold FixSize.acceptable, FixSize.checked.
  rewrite !andb_true_iff, bool_decide_eq_true, Z.leb_le, elem_of_list_to_set.
  tauto.
Qed.

Lemma collect_checked present needed freq acc :
  Forall (checked present) acc →
  Forall (checked present)
    (FixSize.collect (list_to_set present) needed freq acc).
Proof.
  revert acc. induction freq as [|line freq IH]; intros acc Hacc; simpl; [done|].
  destruct (FixSize.acceptable _ _) eqn:Hok; [|by apply IH].
  assert (Forall (checked present) (acc ++ [Py.strip line])).
  { apply Forall_app. split; [done|].
    constructor; [by apply acceptable_checked|done]. }
  destruct (_ <=? _)%Z; [done|by apply IH].
Qed.

(** C2 (amended).  The words that [fix_dictionary_size] appends to the
    dictionary are alphabetic, ASCII, at least two characters long and
    new; the words already present are written back as they are, and
    neither lower case nor the 12-character maximum is enforced.  The
    entries with which [create_readable_dictionary] pads its selection
    are ['word'] followed by a zero-padded number, and are not
    alphabetic; the padding loop always comes to an end. *)
Theorem appended_words_are_checked
    (dict_lines freq_lines out ws : list string) (fuel : nat) :
  FixSize.fix_dictionary_size dict_lines freq_lines = Written out →
  (65536 - Z.of_nat (length ws) ≤ Z.of_nat fuel)%Z →
  (∃ added, out = read_words dict_lines ++ added
            ∧ Forall (checked (read_words dict_lines)) added)
  ∧ (∃ pads, ReadableDict.pad fuel ws = Some (ws ++ pads)
             ∧ Forall is_pad pads).
Proof.
  intros Hout Hfuel. split; [|by apply pad_spec].
  unfold FixSize.fix_dictionary_size in Hout.
  destruct (_ <=? 0)%Z; [done|].
  destruct (bool_decide _); [done|].
  injection Hout as <-. eexists. split; [done|].
  apply Forall_take, collect_checked. constructor.
Qed.

Lemma appended_words_are_checked_witness :
  (∃ added, ["cat"; "Extraordinarily"] = read_words ["cat"] ++ added
            ∧ Forall (checked (read_words ["cat"])) added)
  ∧ (∃ pads, ReadableDict.pad (Z.to_nat 65536) [] = Some ([] ++ pads)
             ∧ Forall is_pad pads).
Proof.
  apply (appended_words_are_checked ["cat"] ["Extraordinarily"; "cat"]).
  - vm_compute. reflexivity.
  - simpl length. lia.
Defined.

(** C2 (as stated) fails: [fix_dictionary_size] appends the frequency-list
    entry ['Extraordinarily'], which is neither lower case nor at most 12
    characters long, and the padding of [create_readable_dictionary]
    appends ['word65535'], which is not alphabetic. *)
Lemma emitted_word_outside_the_format :
  FixSize.fix_dictionary_size ["cat"] ["Extraordinarily"]
    = Written ["cat"; "Extraordinarily"]
  ∧ Py.islower "Extraordinarily" = false
  ∧ Py.len "Extraordinarily" = 15%Z
  ∧ (∃ out, ReadableDict.pad 1 (replicate (Z.to_nat 65535) "cat") = Some out
            ∧ "word65535" ∈ out)
  ∧ Py.isalpha "word65535" = false.
Proof.
  split; [vm_compute; reflexivity|].
  split; [vm_compute; reflexivity|].
  split; [vm_compute; reflexivity|].
  split; [|vm_compute; reflexivity].
  exists (replicate (Z.to_nat 65535) "cat" ++ ["word65535"]).
  split; [|apply elem_of_app; right; apply list_elem_of_singleton; done].
  apply pad_last. rewrite length_replicate. lia.
Qed.

End SizeFacts.

(** ** The letter-by-letter generator *)

Module LetterGenFacts.
Import LetterGen.

Lemma Qltb_lt x y : Qltb x y = true ↔ (x < y)%Q.
Proof.
  unfold Qltb. rewrite negb_true_iff, <- not_true_iff_false, Qle_bool_iff.
  split; [apply Qnot_le_lt|apply Qlt_not_le].
Qed.

Lemma Qltb_ge x y : Qltb x y = false ↔ (y <= x)%Q.
Proof. unfold Qltb. by rewrite negb_false_iff, Qle_bool_iff. Qed.

Section Gate.

Variable zipf_frequency : string → Q.

(** The gate is monotone in the threshold. *)
Lemma is_valid_relaxes
    (w : string) (t1 t2 : Q) (banned : gset string) (re_word : word_re)
    (allow_proper : bool) :
  (t2 <= t1)%Q →
  is_valid zipf_frequency w t1 banned re_word allow_proper = Some true →
  is_valid zipf_frequency w t2 banned re_word allow_proper = Some true.
Proof.
  intros Hle. unfold is_valid.
  destruct (bool_decide (w ∈ banned)); [done|].
  destruct (negb (fullmatch re_word w)); [done|].
  destruct (Qltb (zipf_frequency w) t1) eqn:Ht1; [done|].
  apply Qltb_ge in Ht1.
  assert (Qltb (zipf_frequency w) t2 = false) as ->; [|done].
  apply Qltb_ge. by apply Qle_trans with t1.
Qed.

End Gate.

Section Loop.

Variable zipf_frequency : string → Q.
Variable api : nat → option string.
Variable opts : options.
Variable banned : gset string.
Variable fsub : Q → Q → Q.

Local Abbreviation is_valid := (is_valid zipf_frequency).
Local Abbreviation select_new := (select_new zipf_frequency opts).
Local Abbreviation letter_loop := (letter_loop zipf_frequency api opts).
Local Abbreviation alphabet_letters := (alphabet_letters zipf_frequency api opts).
Local Abbreviation cycle_step :=
  (cycle_step zipf_frequency api opts banned fsub).
Local Abbreviation main_loop :=
  (main_loop zipf_frequency api opts banned fsub).
Local Abbreviation reaches := (reaches zipf_frequency api opts banned fsub).

Lemma query_model_fuel retries n :
  (query_model api retries n).1 ≠ OutOfFuel.
Proof. unfold query_model. by destruct (query_attempts _ _ _) as [[?|] ?]. Qed.

Lemma select_new_accepts re_word thr lines final seen batch :
  select_new re_word banned thr lines final seen = Ok batch →
  Forall (λ w, (w ∉ seen) ∧ (w ∉ final)
               ∧ (is_valid w thr banned re_word (allow_proper_nouns opts)
                  = Some true)) batch.
Proof.
  revert batch. induction lines as [|line lines IH]; intros batch; simpl.
  - by intros [= <-].
  - destruct (_ && _) eqn:Hnew; [|by apply IH].
    destruct (is_valid _ _ _ _ _) as [[|]|] eqn:Hvalid; [|by apply IH|done].
    unfold mbind, res_bind.
    destruct (select_new _ _ _ lines final seen) as [rest| |]; [|done|done].
    intros [= <-]. constructor; [|by apply IH].
    apply andb_true_iff in Hnew as [Hnew Hseen].
    apply andb_true_iff in Hnew as [_ Hfinal].
    apply bool_decide_eq_true in Hseen, Hfinal. done.
Qed.

Lemma select_new_fuel re_word thr lines final seen :
  select_new re_word banned thr lines final seen ≠ OutOfFuel.
Proof.
  induction lines as [|line lines IH]; simpl; [done|].
  destruct (_ && _); [|done].
  destruct (is_valid _ _ _ _ _) as [[|]|]; [|done|done].
  unfold mbind, res_bind.
  by destruct (select_new _ _ _ lines final seen).
Qed.

(** A non-empty batch of unseen words makes [seen] strictly larger. *)
Lemma seen_grows (seen : gset string) (w : string) (batch : list string) :
  w ∉ seen → (size seen < size (seen ∪ list_to_set (w :: batch)))%nat.
Proof.
  intros Hw. apply subset_size. split.
  - apply union_subseteq_l.
  - intros Hsub. apply Hw, Hsub, elem_of_union_r.
    rewrite list_to_set_cons. apply elem_of_union_l, elem_of_singleton. done.
Qed.

Lemma letter_loop_total re_word thr fuel seen st added :
  (per_letter_max opts - Z.of_nat (size seen) ≤ Z.of_nat fuel)%Z →
  letter_loop re_word banned thr fuel seen st added ≠ OutOfFuel.
Proof.
  revert seen st added.
  induction fuel as [|fuel IH]; intros seen st added Hfuel;
    cbn [LetterGen.letter_loop];
    destruct (Z.ltb_spec (Z.of_nat (size seen)) (per_letter_max opts));
    try done; try lia.
  pose proof (query_model_fuel (max_retries opts) (calls st)) as Hq.
  destruct (query_model api (max_retries opts) (calls st)) as [reply n'].
  simpl in Hq. unfold mbind, res_bind.
  destruct reply as [text| |]; [|done|done].
  destruct (String.eqb text ""); [done|].
  cbn [final_words].
  pose proof (select_new_fuel re_word thr (splitlines text) (final_words st) seen) as Hs.
  pose proof (select_new_accepts re_word thr (splitlines text) (final_words st) seen) as Ha.
  destruct (select_new _ _ _ _ _ seen) as [batch| |]; [|done|done].
  destruct batch as [|w batch]; [done|].
  apply IH.
  specialize (Ha _ eq_refl). apply Forall_cons in Ha as [[Hw _] _].
  pose proof (seen_grows seen w batch Hw). lia.
Qed.

Lemma letter_loop_grows re_word thr fuel seen st added st' added' :
  letter_loop re_word banned thr fuel seen st added = Ok (st', added') →
  final_words st ⊆ final_words st'.
Proof.
  revert seen st added.
  induction fuel as [|fuel IH]; intros seen st added;
    cbn [LetterGen.letter_loop];
    destruct (Z.of_nat (size seen) <? per_letter_max opts)%Z;
    try done; try (by intros [= <- <-]).
  destruct (query_model api (max_retries opts) (calls st)) as [reply n'].
  unfold mbind, res_bind.
  destruct reply as [text| |]; [|done|done].
  destruct (String.eqb text ""); [by intros [= <- <-]|].
  cbn [final_words out_lines].
  destruct (select_new _ _ _ _ _ seen) as [batch| |]; [|done|done].
  destruct batch as [|w batch]; [by intros [= <- <-]|].
  intros Hrec. apply IH in Hrec. cbn [final_words] in Hrec.
  etrans; [|exact Hrec]. apply union_subseteq_l.
Qed.

(** A letter loop that counts new words has enlarged the accepted set. *)
Lemma letter_loop_progress re_word thr fuel seen st added st' added' :
  letter_loop re_word banned thr fuel seen st added = Ok (st', added') →
  added' = added ∨ (size (final_words st) < size (final_words st'))%nat.
Proof.
  destruct fuel as [|fuel]; cbn [LetterGen.letter_loop];
    destruct (Z.of_nat (size seen) <? per_letter_max opts)%Z;
    try done; try (by intros [= <- <-]; left).
  destruct (query_model api (max_retries opts) (calls st)) as [reply n'].
  unfold mbind, res_bind.
  destruct reply as [text| |]; [|done|done].
  destruct (String.eqb text ""); [by intros [= <- <-]; left|].
  cbn [final_words out_lines].
  pose proof (select_new_accepts re_word thr (splitlines text) (final_words st) seen) as Ha.
  destruct (select_new _ _ _ _ _ seen) as [batch| |]; [|done|done].
  destruct batch as [|w batch]; [by intros [= <- <-]; left|].
  intros Hrec. right.
  specialize (Ha _ eq_refl). apply Forall_cons in Ha as [(_ & Hw & _) _].
  apply letter_loop_grows in Hrec. cbn [final_words] in Hrec.
  apply subseteq_size in Hrec.
  pose proof (seen_grows (final_words st) w batch Hw). lia.
Qed.

Lemma alphabet_letters_total re_word thr fuel letters st added :
  (per_letter_max opts ≤ Z.of_nat fuel)%Z →
  alphabet_letters re_word banned thr fuel letters st added ≠ OutOfFuel.
Proof.
  intros Hfuel. revert st added.
  induction letters as [|letter letters IH]; intros st added; simpl; [done|].
  unfold mbind, res_bind.
  set (seen := filter _ (final_words st)).
  pose proof (letter_loop_total re_word thr fuel seen st added) as Hl.
  destruct (letter_loop _ _ _ _ seen st added) as [[st' added']| |].
  - apply IH.
  - done.
  - apply Hl. lia.
Qed.

Lemma alphabet_letters_grows re_word thr fuel letters st added st' added' :
  alphabet_letters re_word banned thr fuel letters st added = Ok (st', added') →
  final_words st ⊆ final_words st'.
Proof.
  revert st added.
  induction letters as [|letter letters IH]; intros st added; simpl.
  - by intros [= <- <-].
  - unfold mbind, res_bind.
    destruct (letter_loop _ _ _ _ _ st added) as [[st1 added1]| |] eqn:Hl;
      [|done|done].
    intros Hrest. apply letter_loop_grows in Hl. apply IH in Hrest.
    by etrans.
Qed.

Lemma alphabet_letters_progress re_word thr fuel letters st added st' added' :
  alphabet_letters re_word banned thr fuel letters st added = Ok (st', added') →
  added' = added ∨ (size (final_words st) < size (final_words st'))%nat.
Proof.
  revert st added.
  induction letters as [|letter letters IH]; intros st added; simpl.
  - intros [= <- <-]. by left.
  - unfold mbind, res_bind.
    destruct (letter_loop _ _ _ _ _ st added) as [[st1 added1]| |] eqn:Hl;
      [|done|done].
    intros Hrest.
    pose proof (letter_loop_grows _ _ _ _ _ _ _ _ Hl) as Hsub1.
    pose proof (alphabet_letters_grows _ _ _ _ _ _ _ _ Hrest) as Hsub2.
    apply subseteq_size in Hsub1, Hsub2.
    apply letter_loop_progress in Hl. apply IH in Hrest.
    destruct Hl as [->|Hl]; destruct Hrest as [->|Hrest];
      [by left|right; lia|right; lia|right; lia].
Qed.

(** Closes the cases of [cycle_step] that leave the loop. *)
Local Ltac left_loop :=
  cbn; repeat split; auto; intros ? [=].

(** What one turn of the main loop does to the state. *)
Lemma cycle_step_spec fuel s c :
  cycle_step fuel s = Ok c →
  final_words (st_store s) ⊆ final_words (st_store (state_of c))
  ∧ cycle (state_of c) = (cycle s + 1)%Z
  ∧ (freq_current (state_of c) = freq_current s
     ∨ (freq_current (state_of c) = fsub (freq_current s) (loosen_step opts)
        ∧ (min_freq opts <= fsub (freq_current s) (loosen_step opts))%Q))
  ∧ (∀ s', c = Continue s' →
           final_words (st_store s') = final_words (st_store s) →
           freq_current s' = fsub (freq_current s) (loosen_step opts)).
Proof.
  unfold LetterGen.cycle_step, alphabet_pass.
  destruct (_ && _); [by intros [= <-]; left_loop|].
  unfold mbind, res_bind. cbn [st_store freq_current cycle passes].
  destruct (alphabet_letters _ _ _ _ _ _ _) as [[st added]| |] eqn:Hpass;
    [|done|done].
  pose proof (alphabet_letters_progress _ _ _ _ _ _ _ _ Hpass) as Hprog.
  apply alphabet_letters_grows in Hpass.
  destruct (_ && _); [by intros [= <-]; left_loop|].
  destruct (Z.eqb_spec added 0) as [->|Hadded].
  - destruct (negb (auto_loosen opts)); [by intros [= <-]; left_loop|].
    cbn [orb].
    destruct (Qltb _ _) eqn:Hfloor; [by intros [= <-]; left_loop|].
    apply Qltb_ge in Hfloor. intros [= <-]. cbn.
    repeat split; auto. by intros s' [= <-].
  - intros [= <-]. cbn. repeat split; auto.
    intros s' [= <-]. cbn. intros Hsame.
    destruct Hprog as [?|Hlt]; [done|]. rewrite Hsame in Hlt. lia.
Qed.

(** The pass counter follows the cycle counter, and a turn that is
    not the abort has its cycle number within the ceiling. *)
Lemma cycle_step_passes fuel s c :
  cycle_step fuel s = Ok c →
  match c with
  | Break MaxCyclesAbort s' =>
      passes s' = passes s ∧ (max_cycles opts < cycle s + 1)%Z
  | Break _ s' | Continue s' =>
      passes s' = S (passes s)
      ∧ (max_cycles opts = 0 ∨ cycle s + 1 ≤ max_cycles opts)%Z
  end.
Proof.
  unfold LetterGen.cycle_step.
  destruct (Z.eqb_spec (max_cycles opts) 0) as [Hz|Hz];
    destruct (Z.ltb_spec (max_cycles opts) (cycle s + 1)); cbn [negb andb];
    try (by intros [= <-]; split; [done|lia]).
  all: unfold mbind, res_bind; cbn [st_store freq_current cycle passes];
    destruct (alphabet_pass _ _ _ _ _ _ _ _ _) as [[st added]| |];
    [|done|done];
    destruct (_ && _); [by intros [= <-]; split; [done|lia]|];
    destruct (added =? 0)%Z; [|by intros [= <-]; split; [done|lia]];
    destruct (_ || _); by intros [= <-]; split; [done|lia].
Qed.

Lemma cycle_step_total fuel s :
  (per_letter_max opts ≤ Z.of_nat fuel)%Z →
  cycle_step fuel s ≠ OutOfFuel.
Proof.
  intros Hfuel. unfold LetterGen.cycle_step, alphabet_pass.
  destruct (_ && _); [done|].
  unfold mbind, res_bind. cbn [st_store freq_current cycle passes].
  pose proof (alphabet_letters_total
                (make_word_re (min_length opts) (max_length opts))
                (freq_current s) fuel
                (Py.chars "abcdefghijklmnopqrstuvwxyz") (st_store s) 0%Z Hfuel).
  destruct (alphabet_letters _ _ _ _ _ _ _) as [[st added]| |]; [|done|done].
  destruct (_ && _); [done|].
  destruct (added =? 0)%Z; [|done].
  by destruct (_ || _).
Qed.

Lemma reaches_floor s s' :
  (min_freq opts <= freq_current s)%Q →
  reaches s s' → (min_freq opts <= freq_current s')%Q.
Proof.
  intros Hs. induction 1 as [|fuel s s' s'' _ IH Hstep]; [done|].
  apply cycle_step_spec in Hstep as (_ & _ & [Heq|[Heq Hfloor]] & _);
    cbn [state_of] in *; rewrite Heq; auto.
Qed.

Lemma reaches_relaxes s s' :
  (∀ x, (fsub x (loosen_step opts) <= x)%Q) →
  reaches s s' →
  (freq_current s' <= freq_current s)%Q
  ∧ final_words (st_store s) ⊆ final_words (st_store s').
Proof.
  intros Hlower. induction 1 as [|fuel s s' s'' _ [IHq IHw] Hstep].
  - split; [apply Qle_refl|done].
  - apply cycle_step_spec in Hstep as (Hsub & _ & Hfreq & _).
    cbn [state_of] in *. split; [|by etrans].
    destruct Hfreq as [->|[-> _]]; [done|].
    apply Qle_trans with (freq_current s'); [apply Hlower|done].
Qed.


(** The loop comes to an end within the ceiling. *)
Lemma main_loop_bounded fuel pass_fuel s :
  (per_letter_max opts ≤ Z.of_nat pass_fuel)%Z →
  (1 ≤ max_cycles opts)%Z →
  cycle s = Z.of_nat (passes s) →
  (cycle s ≤ max_cycles opts)%Z →
  (max_cycles opts - cycle s < Z.of_nat fuel)%Z →
  match main_loop fuel pass_fuel s with
  | Ok (why, s') =>
      (Z.of_nat (passes s') ≤ max_cycles opts)%Z
      ∧ (why = MaxCyclesAbort → Z.of_nat (passes s') = max_cycles opts)
  | Raise _ => True
  | OutOfFuel => False
  end.
Proof.
  intros Hpass Hmax. revert s.
  induction fuel as [|fuel IH]; intros s Hcount Hle Hfuel; [lia|].
  cbn [LetterGen.main_loop]. unfold mbind, res_bind.
  pose proof (cycle_step_total pass_fuel s Hpass) as Htotal.
  pose proof (cycle_step_spec pass_fuel s) as Hspec.
  pose proof (cycle_step_passes pass_fuel s) as Hcnt.
  destruct (cycle_step pass_fuel s) as [c| |]; [|done|done].
  destruct (Hspec c eq_refl) as (_ & Hcycle & _ & _).
  specialize (Hcnt c eq_refl).
  destruct c as [s'|why s']; cbn [state_of] in *.
  - destruct Hcnt as [Hp Hc]. apply IH; lia.
  - destruct why; destruct Hcnt as [Hp Hc]; split; try done; lia.
Qed.

(** C8.  With [max_cycles >= 1] the run of [main] comes to an end: given
    budgets above [max_cycles] and [per_letter_max] it never runs out of
    them.  It either raises (the model failed [max_retries] times in a
    row) or returns after at most [max_cycles] alphabet passes, and when
    it left the loop because of the ceiling it made exactly
    [max_cycles] passes. *)
Theorem main_terminates_within_max_cycles
    (existing : list string) (fuel pass_fuel : nat) :
  (1 ≤ max_cycles opts)%Z →
  (max_cycles opts < Z.of_nat fuel)%Z →
  (per_letter_max opts ≤ Z.of_nat pass_fuel)%Z →
  (∃ e, main zipf_frequency api opts banned fsub fuel pass_fuel existing = Raise e)
  ∨ (∃ r, main zipf_frequency api opts banned fsub fuel pass_fuel existing = Ok r
          ∧ (Z.of_nat (passes (last_state r)) ≤ max_cycles opts)%Z
          ∧ (why_left r = MaxCyclesAbort →
             Z.of_nat (passes (last_state r)) = max_cycles opts)).
Proof.
  intros Hmax Hfuel Hpass. unfold main, mbind, res_bind.
  pose proof (main_loop_bounded fuel pass_fuel (initial opts existing)
                Hpass Hmax eq_refl) as Hloop.
  cbn [initial cycle] in Hloop.
  destruct (main_loop fuel pass_fuel _) as [[why s]| |].
  - right. destruct (trim_surplus _ _ _) as [words file].
    eexists. split; [done|]. cbn. apply Hloop; lia.
  - left. by eexists.
  - exfalso. apply Hloop; lia.
Qed.

End Loop.

(** *** The loop with the exact difference *)

Lemma exact_difference_lowers (step x : Q) :
  (0 <= step)%Q → (x - step <= x)%Q.
Proof.
  intros Hstep. rewrite <- (Qplus_0_r x) at 2.
  unfold Qminus. apply Qplus_le_r. by apply (Qopp_le_compat 0).
Qed.

Section ExactDifference.

Variable zipf_frequency : string → Q.
Variable api : nat → option string.
Variable opts : options.
Variable banned : gset string.

Local Abbreviation is_valid := (is_valid zipf_frequency).
Local Abbreviation reaches :=
  (reaches zipf_frequency api opts banned Qminus).

(** C7.  Acceptance is monotone under relaxation: a word valid at
    threshold [t1] is valid at every [t2 <= t1] (same banned set, length
    window and proper-noun setting).  Consequently, as the loop goes on
    (with a non-negative step) the threshold only drops, no word leaves
    the accepted set, and a word valid at the threshold of an earlier
    turn is valid at the threshold of every later one.  (The loop is
    taken with the exact difference here.) *)
Theorem accepted_words_stay_valid
    (w : string) (t1 t2 : Q) (banned' : gset string) (re_word : word_re)
    (allow_proper : bool) (s s' : loop_state) :
  (t2 <= t1)%Q →
  is_valid w t1 banned' re_word allow_proper = Some true →
  is_valid w t2 banned' re_word allow_proper = Some true
  ∧ ((0 <= loosen_step opts)%Q →
     reaches s s' →
     (freq_current s' <= freq_current s)%Q
     ∧ final_words (st_store s) ⊆ final_words (st_store s')
     ∧ (is_valid w (freq_current s) banned' re_word allow_proper = Some true →
        is_valid w (freq_current s') banned' re_word allow_proper = Some true)).
Proof.
  intros Hle Hvalid. split; [by apply is_valid_relaxes with t1|].
  intros Hstep0 Hreach.
  destruct (reaches_relaxes zipf_frequency api opts banned Qminus s s'
              (λ x, exact_difference_lowers _ x Hstep0) Hreach) as [Hq Hw].
  repeat split; [done|done|].
  by apply is_valid_relaxes.
Qed.

End ExactDifference.

(** *** The ranking used for trimming *)

Lemma str_leb_trans a b c :
  String.leb a b = true → String.leb b c = true → String.leb a c = true.
Proof.
  unfold String.leb. intros Hab Hbc.
  destruct (String.compare a b) eqn:Eab; [|clear Hab|done].
  - apply String.compare_eq_iff in Eab as ->. done.
  - destruct (String.compare b c) eqn:Ebc; [| |done].
    + apply String.compare_eq_iff in Ebc as <-. by rewrite Eab.
    + apply OrderedTypeEx.String_as_OT.cmp_lt in Eab, Ebc.
      pose proof (OrderedTypeEx.String_as_OT.lt_trans _ _ _ Eab Ebc) as Hac.
      apply OrderedTypeEx.String_as_OT.cmp_lt in Hac.
      unfold OrderedTypeEx.String_as_OT.cmp in Hac. by rewrite Hac.
Qed.

Section Trim.

Variable zipf_frequency : string → Q.

Local Abbreviation tuple_le := (tuple_le).
Local Abbreviation ranks_before := (ranks_before).
Local Abbreviation score := (score zipf_frequency).
Local Abbreviation outranks := (outranks zipf_frequency).
Local Abbreviation scored_list := (scored_list zipf_frequency).

Lemma tuple_le_spec a b :
  tuple_le a b = true
  ↔ (a.1 < b.1)%Q ∨ ((a.1 == b.1)%Q ∧ String.leb a.2 b.2 = true).
Proof.
  unfold LetterGen.tuple_le.
  by rewrite orb_true_iff, andb_true_iff, Qltb_lt, Qeq_bool_iff.
Qed.

Global Instance ranks_before_total : Total ranks_before.
Proof.
  intros a b. unfold LetterGen.ranks_before. rewrite !tuple_le_spec.
  destruct (Q_dec a.1 b.1) as [[Hlt|Hgt]|Heq]; [by right; left|by left; left|].
  destruct (String.leb_total a.2 b.2); [right|left]; right; split; done.
Qed.

Global Instance ranks_before_trans : Transitive ranks_before.
Proof.
  intros a b c. unfold LetterGen.ranks_before. rewrite !tuple_le_spec.
  intros [Hba|[Hba Hsba]] [Hcb|[Hcb Hscb]].
  - left. by apply Qlt_trans with b.1.
  - left. by rewrite Hcb.
  - left. by rewrite <- Hba.
  - right. split; [by rewrite Hcb|]. by apply str_leb_trans with b.2.
Qed.

Lemma outranks_antisym w w' : outranks w w' → outranks w' w → w = w'.
Proof.
  unfold LetterGen.outranks, LetterGen.ranks_before.
  rewrite !tuple_le_spec. cbn.
  intros [H1|[H1 H1']] [H2|[H2 H2']].
  - exfalso. apply (Qlt_irrefl (zipf_frequency w)).
    by apply Qlt_trans with (zipf_frequency w').
  - exfalso. apply (Qlt_irrefl (zipf_frequency w')). by rewrite H2 in H1.
  - exfalso. apply (Qlt_irrefl (zipf_frequency w)). by rewrite H1 in H2.
  - by apply String.leb_antisym.
Qed.

Lemma scored_list_fmap ws : scored_list (score <$> ws).
Proof. apply Forall_fmap, Forall_forall. done. Qed.

Lemma scored_list_column l : scored_list l → score <$> (snd <$> l) = l.
Proof.
  induction 1 as [|x l Hx _ IH]; [done|]. cbn. by rewrite IH, <- Hx.
Qed.

Lemma strongly_sorted_column l :
  StronglySorted ranks_before (score <$> l) → StronglySorted outranks l.
Proof.
  induction l as [|w l IH]; [constructor|].
  cbn. intros Hs. apply StronglySorted_inv in Hs as [Hl Hw].
  constructor; [by apply IH|].
  rewrite Forall_fmap in Hw. exact Hw.
Qed.

Lemma filter_all {A} (P : A → Prop) `{!∀ x, Decision (P x)} (l : list A) :
  Forall P l → filter P l = l.
Proof.
  induction 1 as [|x l Hx _ IH]; [done|].
  by rewrite filter_cons_True, IH.
Qed.

Section Ranked.

Variables (min_len max_len : Z).

Local Abbreviation in_window := (in_window min_len max_len).
Local Abbreviation ranking := (ranking zipf_frequency min_len max_len).

Lemma trim_list_ranking enum target :
  trim_list zipf_frequency enum target min_len max_len
  = snd <$> slice_to target (ranking enum).
Proof. done. Qed.

Lemma ranking_scored enum : scored_list (ranking enum).
Proof.
  unfold LetterGen.scored_list, LetterGen.ranking.
  rewrite merge_sort_Permutation. apply scored_list_fmap.
Qed.

Lemma ranking_sorted enum : StronglySorted ranks_before (ranking enum).
Proof. apply StronglySorted_merge_sort; apply _. Qed.

(** The ranking depends on the candidates, not on the order in
    which the set yields them. *)
Lemma ranking_order_free enum enum' :
  enum ≡ₚ enum' → ranking enum = ranking enum'.
Proof.
  intros Hperm.
  apply (Sorted_unique_strong ranks_before).
  - intros x y Hx Hy Hxy Hyx.
    pose proof (ranking_scored enum) as Hsx.
    pose proof (ranking_scored enum') as Hsy.
    unfold LetterGen.scored_list in *. rewrite Forall_forall in Hsx, Hsy.
    rewrite (Hsx x Hx), (Hsy y Hy) in Hxy, Hyx |- *.
    f_equal. by apply outranks_antisym.
  - apply StronglySorted_Sorted, ranking_sorted.
  - apply StronglySorted_Sorted, ranking_sorted.
  - unfold LetterGen.ranking. rewrite !merge_sort_Permutation. by rewrite Hperm.
Qed.

Lemma ranking_elem x enum :
  x ∈ ranking enum ↔ ∃ w, x = score w ∧ w ∈ enum ∧ in_window w.
Proof.
  unfold LetterGen.ranking. rewrite merge_sort_Permutation, list_elem_of_fmap.
  split.
  - intros (w & -> & Hw). apply list_elem_of_filter in Hw as [? ?]. eauto.
  - intros (w & -> & ? & ?). exists w. split; [done|].
    by apply list_elem_of_filter.
Qed.

Lemma elem_of_take_l {A} (x : A) k l : x ∈ take k l → x ∈ l.
Proof.
  intros Hx. rewrite <- (take_drop k l). by apply elem_of_app; left.
Qed.

Lemma strongly_sorted_weaken {A} (R R' : A → A → Prop) (l : list A) :
  (∀ x y, R x y → R' x y) → StronglySorted R l → StronglySorted R' l.
Proof.
  intros Himpl. induction 1 as [|x l _ IH Hx]; constructor; [done|].
  eapply Forall_impl; [exact Hx|]. intros y. apply Himpl.
Qed.

Lemma outranks_spec w w' :
  outranks w w'
  ↔ (zipf_frequency w' < zipf_frequency w)%Q
    ∨ ((zipf_frequency w' == zipf_frequency w)%Q ∧ String.leb w' w = true).
Proof.
  unfold LetterGen.outranks, LetterGen.ranks_before.
  by rewrite tuple_le_spec.
Qed.

Lemma ranking_column enum :
  snd <$> ranking enum ≡ₚ filter in_window enum.
Proof.
  unfold LetterGen.ranking. rewrite merge_sort_Permutation.
  rewrite <- list_fmap_compose.
  rewrite (list_fmap_ext (snd ∘ score) id (filter in_window enum))
    by done.
  by rewrite list_fmap_id.
Qed.


End Ranked.

End Trim.

Import Examples.



(** Of three accepted words, the most frequent one is kept first and the
    tie between the other two goes to the later one in text order. *)
Example trim_three_words :
  trim_to_target ranked_zipf three_words 2 3 10 = ["apple"; "cat"].
Proof. vm_compute. reflexivity. Qed.

(** In the sample runs the thresholds are 3.0 and 0.25, whose float
    difference is exact: the subtraction is [Qminus]. *)
Lemma silent_pass :
  cycle_step flat_zipf silent_api sample_options DEFAULT_BANNED Qminus 1
    (initial sample_options [])
  = Ok (Continue after_silent_pass).
Proof. vm_compute. reflexivity. Qed.



Lemma accepted_words_stay_valid_witness :
  is_valid flat_zipf "cat" (2#1) DEFAULT_BANNED (make_word_re 3 10) false
  = Some true
  ∧ (freq_current after_silent_pass
     <= freq_current (initial sample_options []))%Q
  ∧ final_words (st_store (initial sample_options []))
    ⊆ final_words (st_store after_silent_pass)
  ∧ (is_valid flat_zipf "cat" (freq_current (initial sample_options []))
       DEFAULT_BANNED (make_word_re 3 10) false = Some true →
     is_valid flat_zipf "cat" (freq_current after_silent_pass)
       DEFAULT_BANNED (make_word_re 3 10) false = Some true).
Proof.
  destruct (accepted_words_stay_valid flat_zipf silent_api sample_options
              DEFAULT_BANNED "cat" (3#1) (2#1) DEFAULT_BANNED
              (make_word_re 3 10) false
              (initial sample_options []) after_silent_pass) as [H1 H2].
  - vm_compute. discriminate.
  - vm_compute. reflexivity.
  - split; [exact H1|]. apply H2.
    + vm_compute. discriminate.
    + apply (reaches_next _ _ _ _ _ 1 _ (initial sample_options []));
        [apply reaches_here|apply silent_pass].
Defined.

Lemma main_terminates_within_max_cycles_witness :
  (∃ e, main flat_zipf silent_api sample_options DEFAULT_BANNED Qminus
          21 (Z.to_nat 6000) [] = Raise e)
  ∨ (∃ r, main flat_zipf silent_api sample_options DEFAULT_BANNED Qminus
            21 (Z.to_nat 6000) [] = Ok r
          ∧ (Z.of_nat (passes (last_state r)) ≤ max_cycles sample_options)%Z
          ∧ (why_left r = MaxCyclesAbort →
             Z.of_nat (passes (last_state r)) = max_cycles sample_options)).
Proof.
  apply main_terminates_within_max_cycles.
  - vm_compute. discriminate.
  - vm_compute. reflexivity.
  - vm_compute. discriminate.
Defined.

End LetterGenFacts.

(** ** The refinement pipeline *)

Module ImproverFacts.
Import Improver.

Lemma list_remove_length x l l' :
  list_remove x l = Some l' → length l = S (length l').
Proof.
  revert l'. induction l as [|y l IH]; intros l'; simpl; [done|].
  destruct (String.eqb x y); [by intros [= ->]|].
  destruct (list_remove x l) as [l''|]; [|done].
  intros [= <-]. simpl. f_equal. by apply IH.
Qed.

Lemma sorted_length l : length (Py.sorted l) = length l.
Proof. unfold Py.sorted. by rewrite merge_sort_Permutation. Qed.

Lemma purge_length found st st' :
  purge found st = Ok st' → length (words st') = length (words st).
Proof.
  revert st. induction found as [|bw found IH]; intros st; simpl.
  - by intros [= <-].
  - destruct (list_remove bw (words st)) as [ws|] eqn:Hrm; [|done].
    intros Hrest. apply IH in Hrest. rewrite Hrest. cbn [words].
    apply list_remove_length in Hrm. rewrite length_app. simpl. lia.
Qed.

Lemma load_length lines st :
  load lines = Ok st → Z.of_nat (length (words st)) = 65536%Z.
Proof.
  unfold load. case_bool_decide as Hlen; [done|].
  intros Hpurge. apply purge_length in Hpurge. rewrite Hpurge. cbn [words].
  lia.
Qed.

Section Run.

Variable zipf_frequency : string → Q.
Variable common_pool : list string.
Variable api : nat → reply.
Variable bloom_false_positive : gset string → string → bool.
Variable opts : options.

Local Abbreviation apply_verdict :=
  (apply_verdict zipf_frequency bloom_false_positive opts).
Local Abbreviation apply_verdicts :=
  (apply_verdicts zipf_frequency bloom_false_positive opts).
Local Abbreviation process_batch :=
  (process_batch zipf_frequency api bloom_false_positive opts).
Local Abbreviation process_batches :=
  (process_batches zipf_frequency api bloom_false_positive opts).
Local Abbreviation fill := (fill zipf_frequency bloom_false_positive opts).
Local Abbreviation fill_placeholders :=
  (fill_placeholders zipf_frequency common_pool bloom_false_positive opts).
Local Abbreviation refine_state :=
  (refine_state zipf_frequency common_pool api bloom_false_positive opts).
Local Abbreviation refine_wordlist :=
  (refine_wordlist zipf_frequency common_pool api bloom_false_positive opts).

(** What one verdict does: nothing, or the removal of the word paired
    with the append of one entry. *)
Lemma apply_verdict_cases rec st st' :
  apply_verdict rec st = Ok st' →
  let word := Py.lower (default "" (v_word rec)) in
  (st' = st ∧ (word ∉ wordset st ∨ default true (v_keep rec) = true))
  ∨ (word ∈ wordset st ∧ default true (v_keep rec) = false
     ∧ ∃ ws entry, list_remove word (words st) = Some ws
                   ∧ words st' = ws ++ [entry]
                   ∧ (entry = placeholder_of word
                      ∨ (Py.isalpha entry = true
                         ∧ obvious_bad zipf_frequency entry
                             (freq_threshold opts) = false))).
Proof.
  unfold Improver.apply_verdict. cbn zeta.
  case_bool_decide as Hin; [intros [= <-]; left; auto|].
  destruct (default true (v_keep rec)) eqn:Hkeep; [intros [= <-]; left; auto|].
  destruct (list_remove _ (words st)) as [ws|] eqn:Hrm; [|done].
  destruct (first_usable _ _ _ _ _) as [alt|] eqn:Halt; intros [= <-];
    right; (split; [done|]); (split; [done|]);
    exists ws; eexists; (split; [done|]); (split; [done|]); [right|by left].
  clear -Halt. revert Halt.
  generalize (default [] (v_replacements rec)). intros alts.
  induction alts as [|a alts IH]; simpl; [done|].
  destruct (_ && _) eqn:Hok; [|done].
  intros [= <-]. rewrite !andb_true_iff, !negb_true_iff in Hok. tauto.
Qed.

Lemma apply_verdict_length rec st st' :
  apply_verdict rec st = Ok st' → length (words st') = length (words st).
Proof.
  intros Hstep. apply apply_verdict_cases in Hstep.
  destruct Hstep as [[-> _]|(_ & _ & ws & entry & Hrm & -> & _)]; [done|].
  apply list_remove_length in Hrm. rewrite length_app. simpl. lia.
Qed.

Lemma apply_verdicts_length recs st st' :
  apply_verdicts recs st = Ok st' → length (words st') = length (words st).
Proof.
  revert st. induction recs as [|rec recs IH]; intros st; simpl.
  - by intros [= <-].
  - unfold mbind, res_bind.
    destruct (apply_verdict rec st) as [st1| |] eqn:Hrec; [|done|done].
    intros Hrest. apply IH in Hrest. apply apply_verdict_length in Hrec.
    congruence.
Qed.

Lemma process_batch_length st st' :
  process_batch st = Ok st' → length (words st') = length (words st).
Proof.
  unfold Improver.process_batch.
  destruct (request _ _ _) as [[[|results]|] n]; [|  |done].
  - by intros [= <-].
  - intros Hrecs. by apply apply_verdicts_length in Hrecs.
Qed.

Lemma process_batches_length batches st st' :
  process_batches batches st = Ok st' →
  length (words st') = length (words st).
Proof.
  revert st. induction batches as [|batch batches IH]; intros st; simpl.
  - by intros [= <-].
  - unfold mbind, res_bind.
    destruct (process_batch st) as [st1| |] eqn:Hb; [|done|done].
    intros Hrest. apply IH in Hrest. apply process_batch_length in Hb.
    congruence.
Qed.

Lemma fill_length ws pool added :
  length (fill ws pool added).1 = length ws.
Proof.
  revert pool added. induction ws as [|w ws IH]; intros pool added; simpl;
    [done|].
  destruct (is_placeholder w).
  - destruct (next_candidate _ _ _ _ _) as [[candidate pool']|].
    + specialize (IH pool' ({[candidate]} ∪ added)).
      destruct (fill ws pool' _) as [rest added']. simpl in *. by rewrite IH.
    + specialize (IH [] added).
      destruct (fill ws [] added) as [rest added']. simpl in *. by rewrite IH.
  - specialize (IH pool added).
    destruct (fill ws pool added) as [rest added']. simpl in *. by rewrite IH.
Qed.

Lemma fill_placeholders_length st :
  length (words (fill_placeholders st)) = length (words st).
Proof.
  unfold Improver.fill_placeholders. destruct (placeholders st); [done|].
  pose proof (fill_length (words st) common_pool (bloom st)) as Hfill.
  by destruct (fill _ _ _) as [ws added].
Qed.

Lemma refine_state_length lines st :
  refine_state lines = Ok st → Z.of_nat (length (words st)) = 65536%Z.
Proof.
  unfold Improver.refine_state, mbind, res_bind.
  destruct (load lines) as [st0| |] eqn:Hload; [|done|done].
  destruct (chunked _ _) as [batches| |]; [|done|done].
  destruct (process_batches batches st0) as [st1| |] eqn:Hb; [|done|done].
  intros [= <-]. rewrite fill_placeholders_length.
  apply process_batches_length in Hb. rewrite Hb.
  by apply (load_length lines).
Qed.

(** The final length check passes and the sorted list is written. *)
Lemma refine_wordlist_writes lines st :
  refine_state lines = Ok st →
  refine_wordlist lines = Ok (Py.sorted (words st)).
Proof.
  intros Hrun. pose proof (refine_state_length lines st Hrun) as Hlen.
  unfold Improver.refine_wordlist, mbind, res_bind.
  fold refine_state. rewrite Hrun. by case_bool_decide.
Qed.

(** C10.  The working list keeps its length.  A processed verdict
    leaves the state as it is (word unknown, or verdict KEEP) or removes
    one occurrence of the word and appends exactly one entry, a usable
    replacement or the word's placeholder; the purge and the filling of
    placeholders keep the length too.  So the state that reaches the
    final check holds 65,536 words, the check passes, and the sorted
    list is written. *)
Theorem working_list_keeps_its_length
    (lines : list string) (st : state)
    (rec : verdict) (st0 st1 : state) :
  refine_state lines = Ok st →
  apply_verdict rec st0 = Ok st1 →
  Z.of_nat (length (words st)) = 65536%Z
  ∧ refine_wordlist lines = Ok (Py.sorted (words st))
  ∧ Z.of_nat (length (Py.sorted (words st))) = 65536%Z
  ∧ (∀ found sa sb, purge found sa = Ok sb →
                    length (words sb) = length (words sa))
  ∧ length (words st1) = length (words st0)
  ∧ let word := Py.lower (default "" (v_word rec)) in
    (st1 = st0 ∧ (word ∉ wordset st0 ∨ default true (v_keep rec) = true))
    ∨ (word ∈ wordset st0 ∧ default true (v_keep rec) = false
       ∧ ∃ ws entry, list_remove word (words st0) = Some ws
                     ∧ words st1 = ws ++ [entry]
                     ∧ (entry = placeholder_of word
                        ∨ (Py.isalpha entry = true
                           ∧ obvious_bad zipf_frequency entry
                               (freq_threshold opts) = false))).
Proof.
  intros Hrun Hstep.
  pose proof (refine_state_length lines st Hrun) as Hlen.
  split; [done|]. split; [by apply refine_wordlist_writes|].
  split; [by rewrite sorted_length|].
  split; [apply purge_length|].
  split; [by apply apply_verdict_length in Hstep|].
  by apply apply_verdict_cases.
Qed.

End Run.

Import Examples.

(** *** Loading the sample dictionary *)

Lemma read_words_clean l :
  Forall (λ w, Py.strip w = w ∧ w ≠ "") l → read_words l = l.
Proof.
  unfold read_words. induction 1 as [|w l [Hs Hne] _ IH]; [done|].
  cbn [map]. rewrite Hs, filter_cons_True by done. by f_equal.
Qed.

Lemma lower_clean l : Forall (λ w, Py.lower w = w) l → map Py.lower l = l.
Proof.
  induction 1 as [|w l Hw _ IH]; [done|]. cbn [map]. by rewrite Hw, IH.
Qed.

Lemma purge_one bw st ws :
  list_remove bw (words st) = Some ws →
  purge [bw] st
  = Ok {| words := ws ++ [placeholder_of bw];
          wordset := {[ placeholder_of bw ]} ∪ (wordset st ∖ {[ bw ]});
          bloom := {[ placeholder_of bw ]} ∪ bloom st;
          placeholders := placeholders st ++ [placeholder_of bw];
          log := log st;
          calls := calls st |}.
Proof. intros Hrm. cbn [purge]. by rewrite Hrm. Qed.

Lemma banned_among_damn_and_cats n :
  (list_to_set ("damn" :: replicate n "cat") : gset string) ∩ BANNED
  = {[ "damn" ]}.
Proof.
  apply set_eq. intros x.
  rewrite elem_of_intersection, elem_of_singleton, elem_of_list_to_set,
    elem_of_cons, elem_of_replicate.
  split.
  - intros [[->|[-> _]] Hbanned]; [done|].
    exfalso. revert Hbanned. apply (bool_decide_unpack _). vm_compute. exact I.
  - intros ->. split; [by left|].
    apply (bool_decide_unpack _). vm_compute. exact I.
Qed.

Lemma load_damn_and_cats n :
  Z.of_nat n = 65535%Z →
  load ("damn" :: replicate n "cat") = Ok (loaded_damn_and_cats n).
Proof.
  intros Hn. unfold load.
  assert (Hclean : Forall (λ w, Py.strip w = w ∧ w ≠ "")
                     ("damn" :: replicate n "cat")).
  { constructor; [by split|]. apply Forall_replicate. by split. }
  assert (Hlower : Forall (λ w, Py.lower w = w) ("damn" :: replicate n "cat")).
  { constructor; [done|]. by apply Forall_replicate. }
  rewrite (read_words_clean _ Hclean), (lower_clean _ Hlower).
  rewrite bool_decide_eq_false_2
    by (cbn [length]; rewrite length_replicate; lia).
  rewrite banned_among_damn_and_cats, elements_singleton.
  rewrite (purge_one "damn" _ (replicate n "cat"));
    [done|cbn [words list_remove]; by rewrite String.eqb_refl].
Qed.

(** *** A run in which the classifier changes nothing *)

Section Quiet.

Variable zipf_frequency : string → Q.
Variable common_pool : list string.
Variable api : nat → reply.
Variable bloom_false_positive : gset string → string → bool.
Variable opts : options.

Local Abbreviation process_batch :=
  (process_batch zipf_frequency api bloom_false_positive opts).
Local Abbreviation process_batches :=
  (process_batches zipf_frequency api bloom_false_positive opts).
Local Abbreviation next_candidate :=
  (next_candidate zipf_frequency bloom_false_positive opts).
Local Abbreviation fill := (fill zipf_frequency bloom_false_positive opts).
Local Abbreviation unusable := (unusable zipf_frequency opts).
Local Abbreviation refine_state :=
  (refine_state zipf_frequency common_pool api bloom_false_positive opts).
Local Abbreviation refine_wordlist :=
  (refine_wordlist zipf_frequency common_pool api bloom_false_positive opts).

Hypothesis retries : (0 < max_retries opts)%Z.
Hypothesis quiet_api : ∀ n, ∃ r, api n = Response r ∧ quiet r.

Lemma with_calls_same st : with_calls (calls st) st = st.
Proof. by destruct st. Qed.

Lemma process_batch_quiet st :
  process_batch st = Ok (with_calls (S (calls st)) st).
Proof.
  unfold Improver.process_batch.
  destruct (Z.to_nat (max_retries opts)) as [|k] eqn:Hk; [lia|].
  cbn [request].
  destruct (quiet_api (calls st)) as (r & -> & [->|[->| ->]]); done.
Qed.

Lemma process_batches_quiet batches st :
  process_batches batches st
  = Ok (with_calls (calls st + length batches) st).
Proof.
  revert st. induction batches as [|batch batches IH]; intros st.
  - cbn. by rewrite Nat.add_0_r, with_calls_same.
  - cbn [Improver.process_batches]. unfold mbind, res_bind.
    rewrite process_batch_quiet, IH. cbn [calls with_calls length].
    replace (S (calls st) + length batches) with (calls st + S (length batches))
      by lia.
    by destruct st.
Qed.

Lemma next_candidate_unusable pool added :
  Forall (unusable added) pool → next_candidate pool added = None.
Proof.
  induction 1 as [|c pool Hc _ IH]; [done|]. cbn [Improver.next_candidate].
  assert (Py.isalpha c && negb (bloom_contains bloom_false_positive added c)
          && negb (obvious_bad zipf_frequency c (freq_threshold opts)) = false)
    as ->; [|done].
  destruct Hc as [->|[Hin| ->]]; [done| |by rewrite andb_false_r].
  unfold bloom_contains. rewrite (bool_decide_eq_true_2 _ Hin).
  by rewrite andb_false_r.
Qed.

Lemma fill_unusable ws pool added :
  Forall (unusable added) pool → (fill ws pool added).1 = ws.
Proof.
  revert pool. induction ws as [|w ws IH]; intros pool Hpool; [done|].
  cbn [Improver.fill]. rewrite (next_candidate_unusable _ _ Hpool).
  destruct (is_placeholder w).
  - specialize (IH [] (Forall_nil_2 _)).
    destruct (fill ws [] added). simpl in *. by rewrite IH.
  - specialize (IH pool Hpool).
    destruct (fill ws pool added). simpl in *. by rewrite IH.
Qed.

(** With a quiet classifier and a pool without a usable word, the run on
    ['damn'] and 65,535 times ['cat'] reaches its final check with the
    list as loaded, placeholder included. *)
Lemma quiet_run n :
  Z.of_nat n = 65535%Z →
  batch_size opts ≠ 0%Z →
  Forall (λ c, c ∈ ["damn"; "cat"; "_missing_damn_"]
               ∨ obvious_bad zipf_frequency c (freq_threshold opts) = true)
         common_pool →
  ∃ st, refine_state ("damn" :: replicate n "cat") = Ok st
        ∧ words st = replicate n "cat" ++ ["_missing_damn_"].
Proof.
  intros Hn Hbatch Hpool'.
  assert (Hpool : Forall (unusable (bloom (loaded_damn_and_cats n))) common_pool).
  { eapply Forall_impl; [exact Hpool'|]. intros c [Hc|Hc]; [|by right; right].
    right; left. cbn [bloom loaded_damn_and_cats].
    rewrite elem_of_union, elem_of_singleton, elem_of_list_to_set,
      elem_of_cons, elem_of_replicate.
    rewrite !elem_of_cons in Hc.
    destruct Hc as [->|[->|[->|Hc]]];
      [by right; left|right; right; split; [done|lia]|by left|].
    by apply not_elem_of_nil in Hc. }
  clear Hpool'.
  unfold Improver.refine_state, mbind, res_bind.
  rewrite (load_damn_and_cats n Hn).
  unfold chunked. destruct (Z.eqb_spec (batch_size opts) 0); [done|].
  set (batches := if (batch_size opts <? 0)%Z then _ else _).
  assert (∃ bs, batches = Ok bs) as [bs ->]
    by (unfold batches; destruct (_ <? _)%Z; eauto).
  rewrite process_batches_quiet. eexists. split; [done|].
  unfold Improver.fill_placeholders.
  cbn [placeholders with_calls loaded_damn_and_cats words bloom].
  pose proof (fill_unusable (replicate n "cat" ++ ["_missing_damn_"])
                common_pool _ Hpool) as Hfill.
  cbn [bloom loaded_damn_and_cats] in Hfill.
  by destruct (fill _ _ _).
Qed.

(** C3.  A run that ends normally and writes a placeholder.  The input
    holds the banned word ['damn'] and 65,535 times ['cat']; the
    classifier changes nothing; and no word of the common pool can fill a
    gap (each is already in the list, or fails the frequency threshold).
    The banned word is replaced by its placeholder, the filling step finds
    no candidate, the length check passes, and the file is written with
    the line ['_missing_damn_'] in it. *)
Theorem placeholder_is_written :
  batch_size opts ≠ 0%Z →
  Forall (λ c, c ∈ ["damn"; "cat"; "_missing_damn_"]
               ∨ obvious_bad zipf_frequency c (freq_threshold opts) = true)
         common_pool →
  ∃ out,
    refine_wordlist damn_and_cats = Ok out
    ∧ "_missing_damn_" ∈ out
    ∧ is_placeholder "_missing_damn_" = true
    ∧ Z.of_nat (length out) = 65536%Z.
Proof.
  intros Hbatch Hpool.
  destruct (quiet_run (Z.to_nat 65535)) as (st & Hrun & Hwords);
    [lia|done|done|].
  exists (Py.sorted (words st)).
  split; [by apply refine_wordlist_writes|].
  split; [|split; [vm_compute; reflexivity|]].
  - unfold Py.sorted. rewrite merge_sort_Permutation, Hwords.
    apply elem_of_app. right. by apply list_elem_of_singleton.
  - rewrite sorted_length. by apply refine_state_length in Hrun.
Qed.

End Quiet.

Lemma placeholder_is_written_witness :
  ∃ out,
    refine_wordlist common_zipf ["cat"] keeps_all exact_bloom
      improver_defaults damn_and_cats = Ok out
    ∧ "_missing_damn_" ∈ out
    ∧ is_placeholder "_missing_damn_" = true
    ∧ Z.of_nat (length out) = 65536%Z.
Proof.
  apply (placeholder_is_written common_zipf ["cat"] keeps_all exact_bloom
           improver_defaults).
  - vm_compute. reflexivity.
  - intros n. eexists. split; [reflexivity|]. right; right; reflexivity.
  - vm_compute. discriminate.
  - constructor; [|constructor]. left.
    apply elem_of_cons; right. apply elem_of_cons; left. reflexivity.
Defined.

Lemma working_list_keeps_its_length_witness :
  ∃ st,
    refine_state common_zipf ["cat"] keeps_all exact_bloom
      improver_defaults damn_and_cats = Ok st
    ∧ Z.of_nat (length (words st)) = 65536%Z
    ∧ refine_wordlist common_zipf ["cat"] keeps_all exact_bloom
        improver_defaults damn_and_cats = Ok (Py.sorted (words st))
    ∧ Z.of_nat (length (Py.sorted (words st))) = 65536%Z
    ∧ (∀ found sa sb, purge found sa = Ok sb →
                      length (words sb) = length (words sa))
    ∧ length (words cow_and_dog) = length (words cat_and_cow)
    ∧ let word := Py.lower (default "" (v_word cat_rejected)) in
      (cow_and_dog = cat_and_cow
       ∧ (word ∉ wordset cat_and_cow
          ∨ default true (v_keep cat_rejected) = true))
      ∨ (word ∈ wordset cat_and_cow
         ∧ default true (v_keep cat_rejected) = false
         ∧ ∃ ws entry, list_remove word (words cat_and_cow) = Some ws
                       ∧ words cow_and_dog = ws ++ [entry]
                       ∧ (entry = placeholder_of word
                          ∨ (Py.isalpha entry = true
                             ∧ obvious_bad common_zipf entry
                                 (freq_threshold improver_defaults) = false))).
Proof.
  destruct (quiet_run common_zipf ["cat"] keeps_all exact_bloom
              improver_defaults) with (n := Z.to_nat 65535)
    as (st & Hrun & _).
  - vm_compute. reflexivity.
  - intros n. eexists. split; [reflexivity|]. right; right; reflexivity.
  - lia.
  - vm_compute. discriminate.
  - constructor; [|constructor]. left.
    apply elem_of_cons; right. apply elem_of_cons; left. reflexivity.
  - exists st. split; [exact Hrun|].
    apply (working_list_keeps_its_length common_zipf ["cat"] keeps_all
             exact_bloom improver_defaults damn_and_cats st
             cat_rejected cat_and_cow cow_and_dog).
    + exact Hrun.
    + vm_compute. reflexivity.
Defined.

Section Batches.

Variable zipf_frequency : string → Q.
Variable api : nat → reply.
Variable bloom_false_positive : gset string → string → bool.
Variable opts : options.

Local Abbreviation process_batch :=
  (process_batch zipf_frequency api bloom_false_positive opts).

(** The retry loop after [j] failed attempts. *)
Lemma request_after_errors attempts n j :
  (∀ k, k < j → api (n + k) = ApiError) →
  (j ≤ attempts)%nat →
  request api attempts n = request api (attempts - j) (n + j).
Proof.
  revert attempts n. induction j as [|j IH]; intros attempts n Herr Hj.
  - by rewrite Nat.sub_0_r, Nat.add_0_r.
  - destruct attempts as [|attempts]; [lia|]. cbn [request].
    rewrite <- (Nat.add_0_r n) at 1. rewrite (Herr 0) by lia.
    rewrite IH; [|intros k Hk|lia].
    + f_equal; lia.
    + replace (S n + k) with (n + S k) by lia. apply Herr. lia.
Qed.

Lemma transport_failure_aborts (st : state) :
  (∀ k, k < Z.to_nat (max_retries opts) → api (calls st + k) = ApiError) →
  process_batch st
  = Raise (SystemExit "Too many consecutive OpenAI errors; aborting.").
Proof.
  intros Hall. unfold Improver.process_batch.
  rewrite (request_after_errors _ _ (Z.to_nat (max_retries opts)))
    by (done || lia).
  by rewrite Nat.sub_diag.
Qed.

(** C4 (amended).  Only transport errors are retried.  When, after [j]
    failed attempts within the ceiling, a message arrives that cannot be
    parsed (or that carries no results), the batch is skipped: no further
    request is made for it, the run goes on, and all its words are kept.
    When all [max_retries] attempts for a batch fail in transport, the run
    is aborted. *)
Theorem unparsable_reply_skips_batch
    (st st' : state) (j : nat) (r : response) :
  (Z.of_nat j < max_retries opts)%Z →
  (∀ k, k < j → api (calls st + k) = ApiError) →
  api (calls st + j) = Response r →
  quiet r →
  (∀ k, k < Z.to_nat (max_retries opts) → api (calls st' + k) = ApiError) →
  process_batch st = Ok (with_calls (S (calls st + j)) st)
  ∧ words (with_calls (S (calls st + j)) st) = words st
  ∧ process_batch st'
    = Raise (SystemExit "Too many consecutive OpenAI errors; aborting.").
Proof.
  intros Hj Herr Hreply Hr Hall.
  split; [|split; [done|by apply transport_failure_aborts]].
  unfold Improver.process_batch.
  rewrite (request_after_errors _ _ j) by (done || lia).
  destruct (Z.to_nat (max_retries opts) - j) as [|rest] eqn:Hrest; [lia|].
  cbn [request]. rewrite Hreply.
  by destruct Hr as [->|[->| ->]].
Qed.

End Batches.

Lemma unparsable_reply_skips_batch_witness :
  process_batch common_zipf fails_five_times exact_bloom improver_defaults
    (with_calls 4 cat_and_cow)
  = Ok (with_calls (S (calls (with_calls 4 cat_and_cow) + 1))
          (with_calls 4 cat_and_cow))
  ∧ words (with_calls (S (calls (with_calls 4 cat_and_cow) + 1))
             (with_calls 4 cat_and_cow))
    = words (with_calls 4 cat_and_cow)
  ∧ process_batch common_zipf fails_five_times exact_bloom improver_defaults
      cat_and_cow
    = Raise (SystemExit "Too many consecutive OpenAI errors; aborting.").
Proof.
  apply (unparsable_reply_skips_batch common_zipf fails_five_times
           exact_bloom improver_defaults (with_calls 4 cat_and_cow)
           cat_and_cow 1 Unparsable).
  - vm_compute. reflexivity.
  - intros k Hk. assert (k = 0) as -> by lia. reflexivity.
  - reflexivity.
  - left. reflexivity.
  - intros k Hk. do 5 (destruct k as [|k]; [reflexivity|]).
    vm_compute in Hk. lia.
Defined.

(** C4 (as stated) fails.  With a classifier whose every message fails to
    parse and a ceiling of five attempts, a batch costs a single request:
    it is not retried, nothing is raised, and its words stay.  A whole run
    over 65,536 words ends normally and writes its list, no batch having
    been retried or having stopped the run. *)
Lemma unparsable_reply_is_not_retried :
  max_retries improver_defaults = 5%Z
  ∧ process_batch common_zipf garbles_all exact_bloom improver_defaults
      cat_and_cow = Ok (with_calls 1 cat_and_cow)
  ∧ words (with_calls 1 cat_and_cow) = words cat_and_cow
  ∧ ∃ st,
      refine_state common_zipf ["cat"] garbles_all exact_bloom
        improver_defaults damn_and_cats = Ok st
      ∧ refine_wordlist common_zipf ["cat"] garbles_all exact_bloom
          improver_defaults damn_and_cats = Ok (Py.sorted (words st)).
Proof.
  split; [reflexivity|]. split; [vm_compute; reflexivity|].
  split; [reflexivity|].
  destruct (quiet_run common_zipf ["cat"] garbles_all exact_bloom
              improver_defaults) with (n := Z.to_nat 65535)
    as (st & Hrun & _).
  - vm_compute. reflexivity.
  - intros n. eexists. split; [reflexivity|]. left; reflexivity.
  - lia.
  - vm_compute. discriminate.
  - constructor; [|constructor]. left.
    apply elem_of_cons; right. apply elem_of_cons; left. reflexivity.
  - exists st. split; [exact Hrun|]. by apply refine_wordlist_writes.
Qed.

End ImproverFacts.

(** * Further properties *)

Module DecimalFacts.

Lemma digits_fuel_app fuel n acc :
  Py.digits_fuel fuel n acc = Py.digits_fuel fuel n [] ++ acc.
Proof.
  revert n acc. induction fuel as [|fuel IH]; intros n acc; simpl; [done|].
  destruct (n / 10 =? 0)%N; [done|].
  rewrite (IH _ (_ :: acc)), (IH _ [_]). by rewrite <- app_assoc.
Qed.

Lemma digits_value_snoc l c :
  digits_value (l ++ [c]) = (10 * digits_value l + (Py.code c - 48))%N.
Proof. unfold digits_value. by rewrite fold_left_app. Qed.

Lemma digit_code (d : N) :
  (d < 10)%N → (Py.code (ascii_of_N (48 + d)) - 48 = d)%N.
Proof.
  intros Hd. unfold Py.code. rewrite N_ascii_embedding by lia. lia.
Qed.

Lemma digits_fuel_value fuel n :
  (n < 2 ^ N.of_nat fuel)%N →
  digits_value (Py.digits_fuel fuel n []) = n.
Proof.
  revert n. induction fuel as [|fuel IH]; intros n Hn.
  - simpl in *. unfold digits_value. simpl. lia.
  - cbn [Py.digits_fuel].
    pose proof (N.Div0.div_mod n 10) as Hdm.
    pose proof (N.mod_lt n 10 ltac:(lia)) as Hlt.
    destruct (N.eqb_spec (n / 10) 0) as [Hz|Hnz].
    + unfold digits_value. cbn [fold_left]. rewrite digit_code by done. lia.
    + rewrite digits_fuel_app, digits_value_snoc, digit_code by done.
      rewrite IH; [lia|].
      rewrite Nat2N.inj_succ, N.pow_succ_r' in Hn.
      apply N.Div0.div_lt_upper_bound. lia.
Qed.

Lemma decimal_value n : digits_value (Py.decimal n) = n.
Proof.
  unfold Py.decimal. apply digits_fuel_value.
  rewrite Nat2N.inj_succ, N2Nat.id.
  destruct (N.eq_dec n 0%N) as [->|Hn]; [done|].
  apply N.log2_spec. lia.
Qed.

Lemma digits_value_zeros k l :
  digits_value (replicate k "0"%char ++ l) = digits_value l.
Proof. induction k as [|k IH]; [done|]. exact IH. Qed.

Lemma zero_padded_value width n :
  digits_value (Py.chars (Py.zero_padded width n)) = n.
Proof.
  unfold Py.zero_padded, Py.chars.
  rewrite String.list_ascii_of_string_of_list_ascii, digits_value_zeros.
  apply decimal_value.
Qed.

Global Instance numbered_inj : Inj (=) (=) FixDuplicates.numbered.
Proof.
  intros n m Heq. unfold FixDuplicates.numbered in Heq.
  cbn [String.append] in Heq. injection Heq as Heq.
  change (Py.zero_padded 5 n = Py.zero_padded 5 m) in Heq.
  apply (f_equal (λ s, digits_value (Py.chars s))) in Heq.
  cbv beta in Heq. by rewrite !zero_padded_value in Heq.
Qed.

Lemma numbered_not_alpha n : Py.isalpha (FixDuplicates.numbered n) = false.
Proof. apply SizeFacts.pad_word_not_alpha. Qed.

End DecimalFacts.

Module SetFacts.

Lemma size_list_to_set_le (l : list string) :
  (size (list_to_set l : gset string) ≤ length l)%nat.
Proof.
  induction l as [|x l IH]; [by rewrite list_to_set_nil, size_empty|].
  rewrite list_to_set_cons, size_union_alt, size_singleton. cbn [length].
  pose proof (subseteq_size (list_to_set l ∖ {[x]}) (list_to_set l : gset string)
                ltac:(apply subseteq_difference_l; done)).
  lia.
Qed.

Lemma size_list_to_set_NoDup (l : list string) :
  size (list_to_set l : gset string) = length l ↔ NoDup l.
Proof.
  split; [|apply size_list_to_set].
  induction l as [|x l IH]; [constructor|].
  rewrite list_to_set_cons. cbn [length]. intros Hsize.
  pose proof (size_list_to_set_le l) as Hle.
  destruct (decide (x ∈ l)) as [Hin|Hnin].
  - exfalso.
    assert (({[x]} ∪ list_to_set l : gset string) = list_to_set l) as Heq.
    { apply set_eq. intros w.
      rewrite elem_of_union, elem_of_singleton, elem_of_list_to_set.
      split; [intros [->|?]; done|tauto]. }
    rewrite Heq in Hsize. lia.
  - rewrite size_union, size_singleton in Hsize.
    + constructor; [done|]. apply IH. lia.
    + apply disjoint_singleton_l. by rewrite elem_of_list_to_set.
Qed.

End SetFacts.

Module SortFacts.

Global Instance str_le_total : Total Py.str_le.
Proof.
  intros a b. unfold Py.str_le.
  destruct (String.leb_total a b) as [H|H]; [by left|by right].
Qed.

Global Instance str_le_trans : Transitive Py.str_le.
Proof. intros a b c. apply LetterGenFacts.str_leb_trans. Qed.

End SortFacts.

Module PaddingFacts.
Import DecimalFacts SortFacts LetterGenFacts.

(** X13.  The padding of [create_readable_dictionary] brings the list
    to exactly 65,536 entries (a longer list is left alone), and each
    entry it appends is ['word'] followed by its own position in the
    list, zero-padded to five digits.  The padding entries are pairwise
    distinct, and none of them equals an alphabetic word of the
    selection. *)
Theorem padding_is_numbered_by_position (fuel : nat) (ws : list string) :
  (65536 - Z.of_nat (length ws) ≤ Z.of_nat fuel)%Z →
  ∃ pads,
    ReadableDict.pad fuel ws = Some (ws ++ pads)
    ∧ Z.of_nat (length (ws ++ pads)) = Z.max (Z.of_nat (length ws)) 65536
    ∧ pads = (λ i, FixDuplicates.numbered (N.of_nat i))
               <$> seq (length ws) (length pads)
    ∧ NoDup pads
    ∧ (Forall (λ w, Py.isalpha w = true) ws → ∀ p, p ∈ pads → p ∉ ws).
Proof.
  intros Hfuel.
  assert (∃ pads,
    ReadableDict.pad fuel ws = Some (ws ++ pads)
    ∧ Z.of_nat (length (ws ++ pads)) = Z.max (Z.of_nat (length ws)) 65536
    ∧ pads = (λ i, FixDuplicates.numbered (N.of_nat i))
               <$> seq (length ws) (length pads)) as (pads & Hpad & Hlen & Hpads).
  { revert ws Hfuel. induction fuel as [|fuel IH]; intros ws Hfuel.
    - exists []. simpl. rewrite app_nil_r.
      destruct (Z.ltb_spec (Z.of_nat (length ws)) 65536); [lia|].
      split; [done|]. split; [lia|done].
    - cbn [ReadableDict.pad].
      destruct (Z.ltb_spec (Z.of_nat (length ws)) 65536).
      + destruct (IH (ws ++ ["word" +:+ Py.zero_padded 5
                                         (N.of_nat (length ws))]))
          as (pads & -> & Hlen & Hpads).
        { rewrite length_app. simpl. lia. }
        exists (FixDuplicates.numbered (N.of_nat (length ws)) :: pads).
        split; [by rewrite <- app_assoc|]. split.
        * rewrite !length_app in *. cbn [length] in *. lia.
        * cbn [length seq fmap list_fmap]. f_equal.
          rewrite Hpads at 1. rewrite length_app. simpl.
          by replace (length ws + 1)%nat with (S (length ws)) by lia.
      + exists []. rewrite app_nil_r. split; [done|]. split; [lia|done]. }
  exists pads. split; [done|]. split; [done|]. split; [done|]. split.
  - rewrite Hpads. apply (NoDup_fmap_2 _), NoDup_seq.
  - intros Halpha p Hp Hin. rewrite Forall_forall in Halpha.
    apply Halpha in Hin. rewrite Hpads in Hp.
    apply list_elem_of_fmap in Hp as (i & -> & _).
    by rewrite numbered_not_alpha in Hin.
Qed.

Lemma truly_readable_pad_spec fuel idx ws :
  (65536 - Z.of_nat (length ws) ≤ Z.of_nat fuel)%Z →
  ∃ pads,
    TrulyReadableMain.pad fuel idx ws = Some (ws ++ pads)
    ∧ Z.of_nat (length (ws ++ pads)) = Z.max (Z.of_nat (length ws)) 65536
    ∧ pads = (λ i, FixDuplicates.numbered (idx + N.of_nat i))
               <$> seq 0 (length pads).
Proof.
  revert idx ws. induction fuel as [|fuel IH]; intros idx ws Hfuel.
  - exists []. simpl. rewrite app_nil_r.
    destruct (Z.ltb_spec (Z.of_nat (length ws)) 65536); [lia|].
    split; [done|]. split; [lia|done].
  - cbn [TrulyReadableMain.pad].
    destruct (Z.ltb_spec (Z.of_nat (length ws)) 65536).
    + destruct (IH (idx + 1)%N (ws ++ ["word" +:+ Py.zero_padded 5 idx]))
        as (pads & -> & Hlen & Hpads).
      { rewrite length_app. simpl. lia. }
      exists (FixDuplicates.numbered idx :: pads).
      split; [by rewrite <- app_assoc|]. split.
      * rewrite !length_app in *. cbn [length] in *. lia.
      * cbn [length seq fmap list_fmap]. rewrite N.add_0_r. f_equal.
        rewrite Hpads at 1. rewrite <- (fmap_S_seq 0), <- list_fmap_compose.
        apply list_fmap_ext. intros _ i _. cbn. f_equal. lia.
    + exists []. rewrite app_nil_r. split; [done|]. split; [lia|done].
Qed.

(** X14.  The end of [create_truly_readable_dictionary.main] always
    gives exactly 65,536 entries: the first 65,536 words of the set in
    sorted order, followed by ['word00000'], ['word00001'], ...
    numbered from zero, not from their position.  When the set holds
    alphabetic words only, no entry occurs twice. *)
Theorem truly_readable_list_is_filled_from_zero
    (fuel : nat) (all_words : gset string) :
  (65536 ≤ Z.of_nat fuel)%Z →
  let kept := take (Z.to_nat 65536) (Py.sorted (elements all_words)) in
  ∃ pads,
    TrulyReadableMain.finish fuel all_words = Some (kept ++ pads)
    ∧ Z.of_nat (length (kept ++ pads)) = 65536%Z
    ∧ pads = (λ i, FixDuplicates.numbered (N.of_nat i))
               <$> seq 0 (length pads)
    ∧ StronglySorted Py.str_le kept
    ∧ (set_Forall (λ w, Py.isalpha w = true) all_words →
       NoDup (kept ++ pads)).
Proof.
  intros Hfuel kept.
  assert (Hsorted : StronglySorted Py.str_le kept).
  { unfold kept. rewrite <- (take_drop (Z.to_nat 65536) (Py.sorted _)).
    eapply StronglySorted_app_1_l. rewrite take_drop, take_drop.
    apply StronglySorted_merge_sort; apply _. }
  assert (Hnd : NoDup kept).
  { eapply sublist_NoDup; [|apply sublist_take].
    unfold Py.sorted. rewrite merge_sort_Permutation. apply NoDup_elements. }
  assert (Hin : ∀ w, w ∈ kept → w ∈ all_words).
  { intros w Hw. apply elem_of_take_l in Hw. revert Hw.
    unfold Py.sorted. rewrite merge_sort_Permutation.
    apply elem_of_elements. }
  assert (∃ pads,
    TrulyReadableMain.finish fuel all_words = Some (kept ++ pads)
    ∧ Z.of_nat (length (kept ++ pads)) = 65536%Z
    ∧ pads = (λ i, FixDuplicates.numbered (N.of_nat i))
               <$> seq 0 (length pads)) as (pads & Hrun & Hlen & Hpads).
  { unfold TrulyReadableMain.finish. fold kept.
    destruct (Z.ltb_spec (Z.of_nat (length kept)) 65536) as [Hshort|Hfull].
    - destruct (truly_readable_pad_spec fuel 0 kept) as (pads & -> & Hlen & Hp);
        [lia|].
      exists pads. split; [done|]. split; [lia|]. exact Hp.
    - exists []. rewrite app_nil_r. split; [done|]. split; [|done].
      assert (length kept ≤ Z.to_nat 65536)%nat
        by (unfold kept; rewrite length_take; lia).
      lia. }
  exists pads. split; [done|]. split; [done|]. split; [done|].
  split; [done|]. intros Halpha.
  apply NoDup_app. split; [done|]. split.
  - intros w Hw Hp. apply Hin, Halpha in Hw. rewrite Hpads in Hp.
    apply list_elem_of_fmap in Hp as (i & -> & _).
    by rewrite numbered_not_alpha in Hw.
  - rewrite Hpads. apply (NoDup_fmap_2 _), NoDup_seq.
Qed.

Lemma padding_is_numbered_by_position_witness :
  ∃ pads,
    ReadableDict.pad (Z.to_nat 65536) ["cat"] = Some (["cat"] ++ pads)
    ∧ Z.of_nat (length (["cat"] ++ pads))
      = Z.max (Z.of_nat (length ["cat"])) 65536
    ∧ pads = (λ i, FixDuplicates.numbered (N.of_nat i))
               <$> seq (length ["cat"]) (length pads)
    ∧ NoDup pads
    ∧ (Forall (λ w, Py.isalpha w = true) ["cat"] →
       ∀ p, p ∈ pads → p ∉ ["cat"]).
Proof.
  apply (padding_is_numbered_by_position (Z.to_nat 65536) ["cat"]).
  simpl length. lia.
Defined.

Lemma truly_readable_list_is_filled_from_zero_witness :
  let kept := take (Z.to_nat 65536) (Py.sorted (elements Examples.three_words)) in
  ∃ pads,
    TrulyReadableMain.finish (Z.to_nat 65536) Examples.three_words
    = Some (kept ++ pads)
    ∧ Z.of_nat (length (kept ++ pads)) = 65536%Z
    ∧ pads = (λ i, FixDuplicates.numbered (N.of_nat i))
               <$> seq 0 (length pads)
    ∧ StronglySorted Py.str_le kept
    ∧ (set_Forall (λ w, Py.isalpha w = true) Examples.three_words →
       NoDup (kept ++ pads)).
Proof.
  apply (truly_readable_list_is_filled_from_zero (Z.to_nat 65536)
           Examples.three_words).
  lia.
Defined.

End PaddingFacts.

Module FixDuplicatesFacts.
Import FixDuplicates DecimalFacts.

Lemma push_keeps_well_formed w st :
  well_formed st → w ∉ seen st → well_formed (push w st).
Proof.
  intros [Hnd Hseen] Hw. split; cbn [push unique_words seen].
  - apply NoDup_app. split; [done|]. split; [|apply NoDup_singleton].
    intros x Hx Hx'. apply list_elem_of_singleton in Hx' as ->.
    by apply Hw, Hseen.
  - intros x. rewrite elem_of_union, elem_of_singleton, elem_of_app,
      list_elem_of_singleton, Hseen. tauto.
Qed.

Lemma dedupe_keeps_first_occurrences words st :
  well_formed st →
  well_formed (dedupe words st)
  ∧ (∀ w, w ∈ unique_words (dedupe words st)
          ↔ w ∈ unique_words st ∨ w ∈ words)
  ∧ unique_words st `prefix_of` unique_words (dedupe words st).
Proof.
  revert st. induction words as [|word words IH]; intros st Hwf; simpl.
  - split; [done|]. split; [|done]. intros w. rewrite elem_of_nil. tauto.
  - case_bool_decide as Hnew.
    + destruct (IH (push word st)) as (Hwf' & Hin & Hpre);
        [by apply push_keeps_well_formed|].
      split; [done|]. split.
      * intros w. rewrite Hin. cbn [push unique_words].
        rewrite elem_of_app, list_elem_of_singleton, elem_of_cons. tauto.
      * etrans; [|exact Hpre]. by apply prefix_app_r.
    + destruct (IH st Hwf) as (Hwf' & Hin & Hpre).
      split; [done|]. split; [|done].
      intros w. rewrite Hin, elem_of_cons. split; [tauto|].
      intros [?|[->|?]]; [tauto| |tauto]. left.
      by apply Hwf.
Qed.

Lemma pad_terminates fuel idx st (passed : gset string) :
  well_formed st →
  (∀ w, w ∈ seen st → w ∈ passed ∨ ∃ j, (j < idx)%N ∧ w = numbered j) →
  (65536 - Z.of_nat (length (unique_words st)) + Z.of_nat (size passed)
   ≤ Z.of_nat fuel)%Z →
  ∃ st' pads,
    pad fuel idx st = Some st'
    ∧ well_formed st'
    ∧ unique_words st' = unique_words st ++ pads
    ∧ Forall (λ p, ∃ i, p = numbered i) pads
    ∧ Z.of_nat (length (unique_words st'))
      = Z.max (Z.of_nat (length (unique_words st))) 65536.
Proof.
  revert idx st passed.
  induction fuel as [|fuel IH]; intros idx st passed Hwf Hseen Hfuel;
    cbn [pad];
    destruct (Z.ltb_spec (Z.of_nat (length (unique_words st))) 65536)
      as [Hshort|Hfull];
    try lia;
    try (exists st, []; rewrite app_nil_r;
         split; [done|]; split; [done|]; split; [done|];
         split; [constructor|lia]).
  case_bool_decide as Hnew.
  - destruct (IH (idx + 1)%N (push (numbered idx) st) passed)
      as (st' & pads & Hpad & Hwf' & Hwords & Hpads & Hlen).
    + by apply push_keeps_well_formed.
    + intros w. cbn [push seen]. rewrite elem_of_union, elem_of_singleton.
      intros [->|Hw]; [right; exists idx; split; [lia|done]|].
      destruct (Hseen w Hw) as [?|(j & ? & ->)]; [by left|right].
      exists j. split; [lia|done].
    + cbn [push unique_words]. rewrite length_app. simpl. lia.
    + exists st', (numbered idx :: pads). split; [done|]. split; [done|].
      cbn [push unique_words] in Hwords, Hlen.
      rewrite <- app_assoc in Hwords. split; [done|].
      split; [constructor; [by eexists|done]|].
      rewrite length_app in Hlen. simpl in Hlen. lia.
  - assert (Hin : numbered idx ∈ passed).
    { destruct (Hseen _ Hnew) as [?|(j & Hj & Heq)]; [done|].
      apply (inj numbered) in Heq. lia. }
    assert (Hsize : size (passed ∖ {[ numbered idx ]}) = (size passed - 1)%nat).
    { rewrite size_difference, size_singleton; [done|].
      by apply singleton_subseteq_l. }
    assert (size passed ≠ 0%nat).
    { intros Hz. apply size_empty_inv in Hz. by apply Hz in Hin. }
    destruct (IH (idx + 1)%N st (passed ∖ {[ numbered idx ]}))
      as (st' & pads & Hpad & Hrest); [done| |lia|by exists st', pads].
    intros w Hw. destruct (decide (w = numbered idx)) as [->|Hne].
    + right. exists idx. split; [lia|done].
    + destruct (Hseen w Hw) as [?|(j & ? & ->)].
      * left. apply elem_of_difference. split; [done|].
        by rewrite not_elem_of_singleton.
      * right. exists j. split; [lia|done].
Qed.



End FixDuplicatesFacts.

Module FixSizeFacts.
Import FixSize SetFacts.

Lemma collect_spec set needed lines acc :
  (Z.of_nat (length acc) < needed)%Z →
  collect set needed lines acc
  = acc ++ take (Z.to_nat needed - length acc)
             (filter (λ w, acceptable set w = true) (Py.strip <$> lines)).
Proof.
  revert acc. induction lines as [|line lines IH]; intros acc Hacc;
    cbn [collect fmap list_fmap].
  - by rewrite filter_nil, take_nil, app_nil_r.
  - destruct (acceptable set (Py.strip line)) eqn:Hok.
    + rewrite filter_cons_True by done.
      destruct (Z.leb_spec needed (Z.of_nat (length (acc ++ [Py.strip line]))))
        as [Hfull|Hmore]; rewrite length_app in *; cbn [length] in *.
      * replace (Z.to_nat needed - length acc)%nat with 1%nat by lia.
        by rewrite firstn_cons, take_0.
      * rewrite IH by (rewrite length_app; cbn [length]; lia).
        rewrite length_app. cbn [length]. rewrite <- app_assoc. cbn [app].
        replace (Z.to_nat needed - length acc)%nat
          with (S (Z.to_nat needed - (length acc + 1)))%nat by lia.
        done.
    + rewrite filter_cons_False by (by rewrite Hok). by apply IH.
Qed.

(** X16.  [fix_dictionary_size] writes a file exactly when the
    dictionary has fewer than 65,536 words and the list it builds has
    no repetition; that list is the dictionary as read, followed by the
    first acceptable lines of the frequency list, as many as are
    missing (fewer when the frequency list runs out).  A dictionary
    with a repeated word, or a frequency list that repeats an
    acceptable word among those taken, leaves the file untouched. *)
Theorem fix_dictionary_size_writes_iff
    (dict_lines freq_lines out : list string) :
  let current_words := read_words dict_lines in
  fix_dictionary_size dict_lines freq_lines = Written out
  ↔ (Z.of_nat (length current_words) < 65536)%Z
    ∧ out = current_words
            ++ take (Z.to_nat 65536 - length current_words)
                 (filter (λ w, acceptable (list_to_set current_words) w = true)
                    (Py.strip <$> freq_lines))
    ∧ NoDup out.
Proof.
  intros current_words. unfold fix_dictionary_size. fold current_words.
  destruct (Z.leb_spec (65536 - Z.of_nat (length current_words)) 0)
    as [Hfull|Hshort].
  { split; [done|]. intros [? _]. lia. }
  rewrite collect_spec by (cbn; lia). cbn [app length].
  rewrite Nat.sub_0_r, take_take, Nat.min_id.
  replace (Z.to_nat (65536 - Z.of_nat (length current_words)))
    with (Z.to_nat 65536 - length current_words)%nat by lia.
  set (final := current_words ++ _).
  case_bool_decide as Hdup.
  - split; [done|]. intros (_ & -> & Hnd).
    by apply size_list_to_set_NoDup in Hnd.
  - split.
    + intros [= <-]. split; [lia|]. split; [done|].
      by apply size_list_to_set_NoDup.
    + by intros (_ & -> & _).
Qed.

End FixSizeFacts.

Module FinalDictFacts.
Import FinalDict FinalDictInv.

Lemma isalpha_append a b :
  Py.isalpha a = true → Py.isalpha b = true → Py.isalpha (a +:+ b) = true.
Proof.
  unfold Py.isalpha. rewrite !andb_true_iff, !negb_true_iff.
  intros [Ha Hca] [_ Hcb]. split.
  - destruct a; [done|]. done.
  - rewrite SizeFacts.chars_append, forallb_app. by rewrite Hca, Hcb.
Qed.

Lemma push_extends w st :
  well_formed st → w ∉ seen st → Py.isalpha w = true →
  extends st (push w st).
Proof.
  intros (Hnd & Hseen & Halpha) Hw Hwa.
  split; [|by apply prefix_app_r].
  split; [|split]; cbn [push unique_words seen].
  - apply NoDup_app. split; [done|]. split; [|apply NoDup_singleton].
    intros x Hx Hx'. apply list_elem_of_singleton in Hx' as ->.
    by apply Hw, Hseen.
  - intros x. rewrite elem_of_union, elem_of_singleton, elem_of_app,
      list_elem_of_singleton, Hseen. tauto.
  - apply Forall_app. split; [done|]. by constructor.
Qed.

Lemma extends_refl st : well_formed st → extends st st.
Proof. by split. Qed.

Lemma extends_trans st1 st2 st3 :
  extends st1 st2 → extends st2 st3 → extends st1 st3.
Proof. intros [_ H12] [Hwf H23]. split; [done|by etrans]. Qed.

Lemma dedupe_extends words st :
  well_formed st →
  extends st (dedupe words st)
  ∧ (∀ w, w ∈ unique_words (dedupe words st)
          ↔ w ∈ unique_words st ∨ (w ∈ words ∧ Py.isalpha w = true)).
Proof.
  revert st. induction words as [|word words IH]; intros st Hwf; simpl.
  - split; [by apply extends_refl|]. intros w. rewrite elem_of_nil. tauto.
  - destruct (bool_decide (word ∉ seen st)) eqn:Hnew;
      destruct (Py.isalpha word) eqn:Halpha; cbn [andb].
    + apply bool_decide_eq_true in Hnew.
      pose proof (push_extends word st Hwf Hnew Halpha) as Hext.
      destruct (IH (push word st)) as (Hext' & Hin); [apply Hext|].
      split; [by eapply extends_trans|].
      intros w. rewrite Hin. cbn [push unique_words].
      rewrite elem_of_app, list_elem_of_singleton, elem_of_cons.
      split; [intros [[?| ->]|[? ?]]; tauto|].
      intros [?|[[->|?] ?]]; tauto.
    + destruct (IH st Hwf) as (Hext & Hin). split; [done|].
      intros w. rewrite Hin, elem_of_cons.
      split; [tauto|]. intros [?|[[->|?] ?]]; [tauto|congruence|tauto].
    + destruct (IH st Hwf) as (Hext & Hin). split; [done|].
      intros w. rewrite Hin, elem_of_cons.
      split; [tauto|]. intros [?|[[->|?] ?]]; [tauto| |tauto].
      apply bool_decide_eq_false in Hnew. apply dec_stable in Hnew.
      left. by apply Hwf.
    + destruct (IH st Hwf) as (Hext & Hin). split; [done|].
      intros w. rewrite Hin, elem_of_cons.
      split; [tauto|]. intros [?|[[->|?] ?]]; [tauto|congruence|tauto].
Qed.

Lemma try_affixes_extends mk affixes st :
  well_formed st →
  Forall (λ a, Py.isalpha (mk a) = true) affixes →
  extends st (try_affixes mk affixes st).
Proof.
  revert st. induction affixes as [|a affixes IH]; intros st Hwf Hmk;
    cbn [try_affixes]; [by apply extends_refl|].
  apply Forall_cons in Hmk as [Ha Hmk].
  destruct (bool_decide (mk a ∉ seen st)) eqn:Hnew; cbn [andb];
    [|by apply IH].
  destruct (_ <=? 12)%Z; [|by apply IH].
  apply bool_decide_eq_true in Hnew.
  pose proof (push_extends (mk a) st Hwf Hnew Ha) as Hext.
  destruct (_ <=? _)%Z; [done|].
  eapply extends_trans; [exact Hext|]. apply IH; [apply Hext|done].
Qed.

Lemma try_bases_extends mk affixes base_words st :
  well_formed st →
  Forall (λ base, Forall (λ a, Py.isalpha (mk base a) = true) affixes)
    base_words →
  extends st (try_bases mk affixes base_words st).
Proof.
  revert st. induction base_words as [|base base_words IH]; intros st Hwf Hmk;
    cbn [try_bases]; [by apply extends_refl|].
  apply Forall_cons in Hmk as [Hbase Hmk].
  destruct (_ <=? _)%Z; [by apply extends_refl|].
  pose proof (try_affixes_extends (mk base) affixes st Hwf Hbase) as Hext.
  eapply extends_trans; [exact Hext|]. apply IH; [apply Hext|done].
Qed.

Lemma try_objects_extends color objs st :
  well_formed st → Py.isalpha color = true →
  Forall (λ obj, Py.isalpha obj = true) objs →
  extends st (try_objects color objs st).
Proof.
  revert st. induction objs as [|obj objs IH]; intros st Hwf Hc Hobjs;
    cbn [try_objects]; [by apply extends_refl|].
  apply Forall_cons in Hobjs as [Hobj Hobjs].
  destruct (_ <=? _)%Z; [by apply extends_refl|].
  case_bool_decide as Hnew; [|by apply IH].
  pose proof (push_extends (color +:+ obj) st Hwf Hnew
                (isalpha_append _ _ Hc Hobj)) as Hext.
  eapply extends_trans; [exact Hext|]. apply IH; [apply Hext|done..].
Qed.

Lemma try_colors_extends cols st :
  well_formed st →
  Forall (λ c, Py.isalpha c = true) cols →
  extends st (try_colors cols st).
Proof.
  revert st. induction cols as [|c cols IH]; intros st Hwf Hcols;
    cbn [try_colors]; [by apply extends_refl|].
  apply Forall_cons in Hcols as [Hc Hcols].
  assert (Hobjs : Forall (λ obj, Py.isalpha obj = true) objects)
    by (apply (bool_decide_unpack _); vm_compute; exact I).
  pose proof (try_objects_extends c objects st Hwf Hc Hobjs) as Hext.
  eapply extends_trans; [exact Hext|]. apply IH; [apply Hext|done].
Qed.

Lemma fill_extends st : well_formed st → extends st (fill st).
Proof.
  intros Hwf. unfold fill.
  destruct (count st <? 65536)%Z; [|by apply extends_refl].
  assert (Hbase : Forall (λ w, Py.isalpha w = true)
                    (take (Z.to_nat 10000) (unique_words st)))
    by (apply Forall_take, Hwf).
  assert (Hsuf : Forall (λ a, Py.isalpha a = true) suffixes)
    by (apply (bool_decide_unpack _); vm_compute; exact I).
  assert (Hpre : Forall (λ a, Py.isalpha a = true) prefixes)
    by (apply (bool_decide_unpack _); vm_compute; exact I).
  assert (Hcol : Forall (λ a, Py.isalpha a = true) colors)
    by (apply (bool_decide_unpack _); vm_compute; exact I).
  set (bases := take _ _) in *.
  pose proof (try_bases_extends (λ base suffix, base +:+ suffix) suffixes
                bases st Hwf) as H1.
  set (st1 := try_bases _ suffixes bases st) in *.
  assert (Hext1 : extends st st1).
  { apply H1. eapply Forall_impl; [exact Hbase|]. intros base Hb.
    eapply Forall_impl; [exact Hsuf|]. intros a Ha. by apply isalpha_append. }
  set (st2 := if (count st1 <? 65536)%Z then _ else st1).
  assert (Hext2 : extends st1 st2).
  { unfold st2. destruct (count st1 <? 65536)%Z; [|apply extends_refl, Hext1].
    apply try_bases_extends; [apply Hext1|].
    eapply Forall_impl; [exact Hbase|]. intros base Hb.
    eapply Forall_impl; [exact Hpre|]. intros a Ha. by apply isalpha_append. }
  eapply extends_trans; [exact Hext1|].
  eapply extends_trans; [exact Hext2|].
  destruct (count st2 <? 65536)%Z; [|apply extends_refl, Hext2].
  apply try_colors_extends; [apply Hext2|done].
Qed.


End FinalDictFacts.

Module LetterGenMoreFacts.
Import LetterGen LetterGenInv LetterGenFacts Examples SetFacts.

Section Requests.

Variable api : nat → option string.

Lemma query_attempts_spec attempts n :
  match query_attempts api attempts n with
  | (Some text, n') =>
      ∃ k content,
        (k < attempts)%nat ∧ n' = S (n + k)
        ∧ (∀ j, (j < k)%nat → api (n + j)%nat = None)
        ∧ api (n + k)%nat = Some content ∧ text = Py.strip content
  | (None, n') =>
      n' = (n + attempts)%nat
      ∧ ∀ j, (j < attempts)%nat → api (n + j)%nat = None
  end.
Proof.
  revert n. induction attempts as [|a IH]; intros n; cbn [query_attempts].
  - split; [lia|]. intros j Hj. lia.
  - destruct (api n) as [content|] eqn:Hn.
    + exists 0%nat, content. rewrite Nat.add_0_r.
      split; [lia|]. split; [done|]. split; [intros j Hj; lia|done].
    + specialize (IH (S n)).
      destruct (query_attempts api a (S n)) as [[text|] n'].
      * destruct IH as (k & content & Hk & -> & Hfail & Hok & ->).
        exists (S k), content. split; [lia|]. split; [lia|].
        split; [|split; [|done]].
        -- intros [|j] Hj; [by rewrite Nat.add_0_r|].
           replace (n + S j)%nat with (S n + j)%nat by lia. apply Hfail. lia.
        -- by replace (n + S k)%nat with (S n + k)%nat by lia.
      * destruct IH as [-> Hfail]. split; [lia|].
        intros [|j] Hj; [by rewrite Nat.add_0_r|].
        replace (n + S j)%nat with (S n + j)%nat by lia. apply Hfail. lia.
Qed.

(** X8.  [query_model] returns the first reply that arrives, stripped,
    after fewer than [retries] failed requests; it raises
    [RuntimeError] exactly when [retries] requests in a row failed,
    and with [retries <= 0] it raises without sending any request. *)
Theorem query_model_gives_first_reply (retries : Z) (n : nat) :
  match query_model api retries n with
  | (Ok text, n') =>
      ∃ k content,
        (Z.of_nat k < retries)%Z ∧ n' = S (n + k)
        ∧ (∀ j, (j < k)%nat → api (n + j)%nat = None)
        ∧ api (n + k)%nat = Some content ∧ text = Py.strip content
  | (Raise e, n') =>
      e = RuntimeError "OpenAI API failed too many times"
      ∧ n' = (n + Z.to_nat retries)%nat
      ∧ ∀ j, (Z.of_nat j < retries)%Z → api (n + j)%nat = None
  | (OutOfFuel, _) => False
  end.
Proof.
  unfold query_model.
  pose proof (query_attempts_spec (Z.to_nat retries) n) as H.
  destruct (query_attempts api _ n) as [[text|] n'].
  - destruct H as (k & content & Hk & H). exists k, content.
    split; [lia|done].
  - destruct H as [-> Hfail]. split; [done|]. split; [done|].
    intros j Hj. apply Hfail. lia.
Qed.

End Requests.

(** *** The proper-noun flag *)

Lemma is_az_not_upper c : Py.is_az c = true → Py.char_isupper c = false.
Proof.
  unfold Py.is_az, Py.in_range, Py.char_isupper, Py.between.
  intros H. apply andb_true_iff in H as [H1 H2].
  apply N.leb_le in H1, H2.
  rewrite !orb_false_iff, !andb_false_iff, !N.leb_gt. lia.
Qed.

Section Flag.

Variable zipf_frequency : string → Q.
Variable api : nat → option string.

Lemma is_valid_flag w t banned re_word a1 a2 :
  w ≠ "" →
  is_valid zipf_frequency w t banned re_word a1
  = is_valid zipf_frequency w t banned re_word a2.
Proof.
  intros Hw. unfold is_valid.
  destruct (bool_decide (w ∈ banned)); [done|].
  destruct (fullmatch re_word w) eqn:Hre; [|done]. cbn [negb].
  destruct (Qltb _ _); [done|].
  destruct w as [|c w]; [done|]. cbn [String.get].
  unfold fullmatch in Hre. rewrite !andb_true_iff in Hre.
  destruct Hre as [[Haz _] _]. cbn in Haz.
  apply andb_true_iff in Haz as [Hc _].
  rewrite (is_az_not_upper c Hc). by destruct a1, a2.
Qed.

Variable opts : options.
Variable b : bool.

Local Abbreviation opts' := (with_allow_proper_nouns b opts).

Lemma select_new_flag re_word banned thr lines final seen :
  select_new zipf_frequency opts' re_word banned thr lines final seen
  = select_new zipf_frequency opts re_word banned thr lines final seen.
Proof.
  induction lines as [|line lines IH]; [done|]. cbn [select_new].
  rewrite IH. destruct (String.eqb_spec (Py.lower (Py.strip line)) "") as [->|Hne];
    [done|].
  cbn [negb andb allow_proper_nouns with_allow_proper_nouns].
  by rewrite (is_valid_flag _ _ _ _ b (allow_proper_nouns opts) Hne).
Qed.

Lemma letter_loop_flag re_word banned thr fuel seen st added :
  letter_loop zipf_frequency api opts' re_word banned thr fuel seen st added
  = letter_loop zipf_frequency api opts re_word banned thr fuel seen st added.
Proof.
  revert seen st added. induction fuel as [|fuel IH]; intros seen st added;
    cbn [letter_loop per_letter_max max_retries with_allow_proper_nouns];
    [done|].
  destruct (_ <? _)%Z; [|done].
  destruct (query_model api (max_retries opts) (calls st)) as [reply n'].
  destruct reply as [text| |]; [|done|done]. cbn [mbind res_bind].
  destruct (String.eqb text ""); [done|].
  rewrite select_new_flag.
  destruct (select_new _ _ _ _ _ _ _ _) as [[|w batch]| |]; try done.
  cbn [mbind res_bind]. apply IH.
Qed.

Lemma alphabet_letters_flag re_word banned thr fuel letters st added :
  alphabet_letters zipf_frequency api opts' re_word banned thr fuel letters
    st added
  = alphabet_letters zipf_frequency api opts re_word banned thr fuel letters
      st added.
Proof.
  revert st added. induction letters as [|l letters IH]; intros st added;
    [done|].
  cbn [alphabet_letters]. rewrite letter_loop_flag.
  destruct (letter_loop _ _ _ _ _ _ _ _ _ _) as [[st' added']| |]; try done.
  cbn [mbind res_bind]. apply IH.
Qed.

Lemma cycle_step_flag banned fsub fuel s :
  cycle_step zipf_frequency api opts' banned fsub fuel s
  = cycle_step zipf_frequency api opts banned fsub fuel s.
Proof.
  unfold cycle_step, alphabet_pass.
  cbn [max_cycles min_length max_length target_size auto_loosen loosen_step
       min_freq with_allow_proper_nouns].
  by rewrite alphabet_letters_flag.
Qed.

Lemma main_loop_flag banned fsub fuel pass_fuel s :
  main_loop zipf_frequency api opts' banned fsub fuel pass_fuel s
  = main_loop zipf_frequency api opts banned fsub fuel pass_fuel s.
Proof.
  revert s. induction fuel as [|fuel IH]; intros s; [done|].
  cbn [main_loop]. rewrite cycle_step_flag.
  destruct (cycle_step zipf_frequency api opts banned fsub pass_fuel s)
    as [[s'|why s']| |]; cbn [mbind res_bind]; [|reflexivity..].
  apply IH.
Qed.

(** X9.  The proper-noun test of [is_valid] is dead code: a word that
    reaches it has matched [[a-z]{min,max}], so its first character is
    never upper case.  For the same replies of the model, a run with
    [--allow-proper-nouns] set either way accepts, writes and returns
    the same (the flag only changes the wording of the prompt). *)
Theorem allow_proper_nouns_changes_nothing
    (banned : gset string) (fsub : Q → Q → Q) (fuel pass_fuel : nat)
    (existing : list string) :
  main zipf_frequency api (with_allow_proper_nouns b opts) banned fsub
    fuel pass_fuel existing
  = main zipf_frequency api opts banned fsub fuel pass_fuel existing.
Proof.
  unfold main. rewrite main_loop_flag. done.
Qed.

End Flag.

(** *** Invariants of the store *)

Lemma is_az_not_space c : Py.is_az c = true → Py.char_isspace c = false.
Proof.
  unfold Py.is_az, Py.in_range, Py.char_isspace, Py.between.
  intros H. apply andb_true_iff in H as [H1 H2].
  apply N.leb_le in H1, H2.
  rewrite !orb_false_iff, !andb_false_iff, !N.leb_gt, !N.eqb_neq. lia.
Qed.

Lemma lstrip_chars_az l :
  forallb Py.is_az l = true → Py.lstrip_chars l = l.
Proof.
  destruct l as [|c l]; [done|]. cbn. intros H.
  apply andb_true_iff in H as [Hc _]. by rewrite (is_az_not_space c Hc).
Qed.

Lemma strip_az w : forallb Py.is_az (Py.chars w) = true → Py.strip w = w.
Proof.
  intros H. unfold Py.strip. rewrite (lstrip_chars_az _ H).
  rewrite lstrip_chars_az.
  - rewrite rev_involutive. apply String.string_of_list_ascii_of_string.
  - rewrite forallb_forall in H |- *. intros c Hc. apply H.
    by apply in_rev.
Qed.

Lemma fullmatch_az re_word w :
  fullmatch re_word w = true → forallb Py.is_az (Py.chars w) = true.
Proof.
  unfold fullmatch. rewrite !andb_true_iff. tauto.
Qed.

Section Store.

Variable zipf_frequency : string → Q.
Variable api : nat → option string.
Variable opts : options.
Variable banned : gset string.
Variable fsub : Q → Q → Q.

Local Abbreviation is_valid := (is_valid zipf_frequency).
Local Abbreviation select_new := (select_new zipf_frequency opts).
Local Abbreviation letter_loop := (letter_loop zipf_frequency api opts).
Local Abbreviation alphabet_letters :=
  (alphabet_letters zipf_frequency api opts).
Local Abbreviation cycle_step :=
  (cycle_step zipf_frequency api opts banned fsub).
Local Abbreviation main_loop :=
  (main_loop zipf_frequency api opts banned fsub).
Local Abbreviation main := (main zipf_frequency api opts banned fsub).

Local Abbreviation admitted := (admitted zipf_frequency opts banned).

Lemma select_new_admits re_word thr lines final seen batch :
  select_new re_word banned thr lines final seen = Ok batch →
  Forall (admitted re_word thr) batch.
Proof.
  revert batch. induction lines as [|line lines IH]; intros batch;
    cbn [LetterGen.select_new].
  - by intros [= <-].
  - destruct (String.eqb_spec (Py.lower (Py.strip line)) "") as [Heq|Hne];
      [by apply IH|].
    cbn [negb andb]. destruct (_ && _); [|by apply IH].
    destruct (is_valid _ _ _ _ _) as [[|]|] eqn:Hvalid; [|by apply IH|done].
    unfold mbind, res_bind.
    destruct (select_new _ _ _ lines final seen) as [rest| |]; [|done|done].
    intros [= <-]. constructor; [done|by apply IH].
Qed.

Section Pass.

Variable P : store → Prop.
Variable re_word : word_re.
Variable thr : Q.
Hypothesis P_calls : ∀ st n, P st → P (with_calls n st).
Hypothesis P_batch : ∀ st batch,
  P st → Forall (admitted re_word thr) batch → P (with_batch batch st).

Lemma letter_loop_invariant fuel seen st added st' added' :
  letter_loop re_word banned thr fuel seen st added = Ok (st', added') →
  P st → P st'.
Proof.
  revert seen st added.
  induction fuel as [|fuel IH]; intros seen st added;
    cbn [LetterGen.letter_loop];
    destruct (Z.of_nat (size seen) <? per_letter_max opts)%Z;
    try done; try (by intros [= <- <-]).
  destruct (query_model api (max_retries opts) (calls st)) as [reply n'].
  unfold mbind, res_bind.
  destruct reply as [text| |]; [|done|done].
  destruct (String.eqb text "");
    [intros [= <- <-] HP; by apply (P_calls st n')|].
  cbn [final_words out_lines].
  pose proof (select_new_admits re_word thr (splitlines text)
                (final_words st) seen) as Ha.
  destruct (select_new _ _ _ _ _ seen) as [batch| |]; [|done|done].
  destruct batch as [|w batch];
    [intros [= <- <-] HP; by apply (P_calls st n')|].
  intros Hrec HP. apply IH in Hrec; [done|].
  apply (P_batch (with_calls n' st) (w :: batch)); [by apply P_calls|].
  by apply Ha.
Qed.

Lemma alphabet_letters_invariant fuel letters st added st' added' :
  alphabet_letters re_word banned thr fuel letters st added
  = Ok (st', added') →
  P st → P st'.
Proof.
  revert st added.
  induction letters as [|letter letters IH]; intros st added; simpl.
  - by intros [= <- <-].
  - unfold mbind, res_bind.
    destruct (letter_loop _ _ _ _ _ st added) as [[st1 added1]| |] eqn:Hl;
      [|done|done].
    intros Hrest HP. apply IH in Hrest; [done|].
    by eapply letter_loop_invariant.
Qed.

End Pass.

Section Loop.

Variable P : store → Prop.
Variable floor : Q → Prop.
Hypothesis floor_kept : ∀ fuel s c,
  cycle_step fuel s = Ok c → floor (freq_current s) →
  floor (freq_current (state_of c)).
Hypothesis P_calls : ∀ st n, P st → P (with_calls n st).
Hypothesis P_batch : ∀ thr st batch,
  floor thr → P st →
  Forall (admitted (make_word_re (min_length opts) (max_length opts)) thr)
    batch →
  P (with_batch batch st).

Lemma cycle_step_invariant fuel s c :
  cycle_step fuel s = Ok c →
  floor (freq_current s) → P (st_store s) → P (st_store (state_of c)).
Proof.
  intros Hstep Hfloor HP. revert Hstep.
  unfold LetterGen.cycle_step, alphabet_pass.
  destruct (_ && _); [by intros [= <-]|].
  unfold mbind, res_bind. cbn [st_store freq_current cycle passes].
  destruct (alphabet_letters _ _ _ _ _ _ _) as [[st added]| |] eqn:Hpass;
    [|done|done].
  assert (P st).
  { eapply (alphabet_letters_invariant P _ (freq_current s)); [done| |done..].
    intros st0 batch. by apply P_batch. }
  destruct (_ && _); [by intros [= <-]|].
  destruct (added =? 0)%Z; [|by intros [= <-]].
  destruct (_ || _); by intros [= <-].
Qed.

Lemma main_loop_invariant fuel pass_fuel s why s' :
  main_loop fuel pass_fuel s = Ok (why, s') →
  floor (freq_current s) → P (st_store s) → P (st_store s').
Proof.
  revert s. induction fuel as [|fuel IH]; intros s; [done|].
  cbn [LetterGen.main_loop]. unfold mbind, res_bind.
  destruct (cycle_step pass_fuel s) as [c| |] eqn:Hstep; [|done|done].
  pose proof (cycle_step_invariant _ _ _ Hstep) as HP.
  pose proof (floor_kept _ _ _ Hstep) as Hf.
  destruct c as [s1|why1 s1]; cbn [state_of] in *.
  - intros Hrec ? ?. apply (IH s1); auto.
  - intros [= <- <-] ? ?. auto.
Qed.

End Loop.

(** What a loop has written: the lines [new], counted one by one, whose
    words are now accepted; when there are any, one of them is new. *)
Local Abbreviation wrote st added st' added' :=
  (∃ new : list string,
     out_lines st' = out_lines st ++ new
     ∧ added' = (added + Z.of_nat (length new))%Z
     ∧ final_words st' = final_words st ∪ list_to_set new
     ∧ (new = [] ∨ ∃ w, w ∈ new ∧ w ∉ final_words st)).

Lemma letter_loop_counts re_word thr fuel seen st added st' added' :
  letter_loop re_word banned thr fuel seen st added = Ok (st', added') →
  wrote st added st' added'.
Proof.
  revert seen st added.
  assert (Hnone : ∀ (st : store) n added,
            wrote st added (with_calls n st) added).
  { intros st n added. exists [].
    split; [by rewrite app_nil_r|]. split; [simpl; lia|]. split; [|by left].
    cbn [with_calls final_words]. rewrite list_to_set_nil.
    by rewrite (right_id_L ∅ (∪)). }
  assert (Hsame : ∀ (st : store) added, wrote st added st added).
  { intros st added. exists [].
    split; [by rewrite app_nil_r|]. split; [simpl; lia|]. split; [|by left].
    rewrite list_to_set_nil. by rewrite (right_id_L ∅ (∪)). }
  induction fuel as [|fuel IH]; intros seen st added;
    cbn [LetterGen.letter_loop];
    destruct (Z.of_nat (size seen) <? per_letter_max opts)%Z;
    try done;
    try (intros [= <- <-]; apply Hsame).
  destruct (query_model api (max_retries opts) (calls st)) as [reply n'].
  unfold mbind, res_bind.
  destruct reply as [text| |]; [|done|done].
  destruct (String.eqb text ""); [intros [= <- <-]; apply Hnone|].
  cbn [final_words out_lines].
  pose proof (select_new_accepts zipf_frequency opts banned re_word thr
                (splitlines text) (final_words st) seen) as Ha.
  destruct (select_new _ _ _ _ _ seen) as [batch| |]; [|done|done].
  destruct batch as [|w batch]; [intros [= <- <-]; apply Hnone|].
  intros Hrec. apply IH in Hrec as (new & Hout & Hadded & Hfinal & _).
  cbn [out_lines final_words] in *.
  specialize (Ha _ eq_refl). apply Forall_cons in Ha as [(_ & Hw & _) _].
  exists ((w :: batch) ++ new).
  split; [by rewrite Hout, app_assoc|]. split.
  - rewrite Hadded, length_app. lia.
  - split.
    + by rewrite Hfinal, list_to_set_app_L, (assoc_L (∪)).
    + right. exists w. split; [by left|done].
Qed.

Lemma alphabet_letters_counts re_word thr fuel letters st added st' added' :
  alphabet_letters re_word banned thr fuel letters st added
  = Ok (st', added') →
  wrote st added st' added'.
Proof.
  revert st added.
  induction letters as [|letter letters IH]; intros st added; simpl.
  - intros [= <- <-]. exists []. rewrite app_nil_r.
    split; [done|]. split; [simpl; lia|]. split; [|by left].
    rewrite list_to_set_nil. by rewrite (right_id_L ∅ (∪)).
  - unfold mbind, res_bind.
    destruct (letter_loop _ _ _ _ _ st added) as [[st1 added1]| |] eqn:Hl;
      [|done|done].
    intros Hrest.
    apply letter_loop_counts in Hl as (new1 & Hout1 & Hadded1 & Hfinal1 & Hnew1).
    apply IH in Hrest as (new2 & Hout2 & Hadded2 & Hfinal2 & Hnew2).
    exists (new1 ++ new2).
    split; [by rewrite Hout2, Hout1, app_assoc|]. split.
    + rewrite Hadded2, Hadded1, length_app. lia.
    + split.
      * by rewrite Hfinal2, Hfinal1, list_to_set_app_L, (assoc_L (∪)).
      * destruct Hnew1 as [->|(w & Hw & Hnew)].
        -- destruct Hnew2 as [->|(w & Hw & Hnew)]; [by left|right].
           exists w. split; [done|]. rewrite Hfinal1 in Hnew.
           rewrite list_to_set_nil in Hnew.
           by rewrite (right_id_L ∅ (∪)) in Hnew.
        -- right. exists w. split; [|done]. apply elem_of_app. by left.
Qed.

(** X18.  An alphabet pass counts the lines it writes: the number it
    returns is the number of lines appended to the output file, the
    accepted set grows by exactly the words on those lines (a word the
    model repeats within one reply is written and counted twice), and
    the pass returns 0 exactly when the accepted set is unchanged. *)
Theorem alphabet_pass_counts_written_lines
    (re_word : word_re) (thr : Q) (fuel : nat) (letters : string)
    (st st' : store) (added : Z) :
  alphabet_pass zipf_frequency api opts re_word banned thr fuel letters st
  = Ok (st', added) →
  (∃ new : list string,
     out_lines st' = out_lines st ++ new
     ∧ added = Z.of_nat (length new)
     ∧ final_words st' = final_words st ∪ list_to_set new)
  ∧ (Z.of_nat (size (final_words st'))
     ≤ Z.of_nat (size (final_words st)) + added)%Z
  ∧ (added = 0%Z ↔ final_words st' = final_words st).
Proof.
  unfold alphabet_pass. intros Hpass.
  apply alphabet_letters_counts in Hpass
    as (new & Hout & Hadded & Hfinal & Hnew).
  split; [exists new; split; [done|]; split; [lia|done]|].
  split.
  - rewrite Hfinal, Hadded.
    pose proof (size_union_alt (final_words st) (list_to_set new)) as Hs.
    pose proof (subseteq_size (list_to_set new ∖ final_words st)
                  (list_to_set new : gset string)
                  ltac:(apply subseteq_difference_l; done)) as Hd.
    pose proof (size_list_to_set_le new). lia.
  - split.
    + intros Hz. assert (new = []) as -> by (destruct new; [done|simpl in *; lia]).
      rewrite Hfinal, list_to_set_nil. by rewrite (right_id_L ∅ (∪)).
    + intros Hsame. destruct Hnew as [->|(w & Hw & Hnew)]; [simpl in *; lia|].
      exfalso. apply Hnew. rewrite <- Hsame, Hfinal.
      apply elem_of_union_r. by apply elem_of_list_to_set.
Qed.

Lemma trim_to_target_elem (words : gset string) target min_len max_len w :
  w ∈ trim_to_target zipf_frequency words target min_len max_len →
  w ∈ words ∧ in_window min_len max_len w.
Proof.
  unfold trim_to_target. rewrite trim_list_ranking.
  rewrite list_elem_of_fmap. intros (x & -> & Hx).
  assert (Hx' : x ∈ ranking zipf_frequency min_len max_len (elements words)).
  { revert Hx. unfold slice_to. destruct (_ <=? _)%Z; apply elem_of_take_l. }
  apply ranking_elem in Hx' as (w & -> & Hw & Hwin).
  split; [by apply elem_of_elements|done].
Qed.

Lemma is_valid_checks w thr re_word allow_proper :
  is_valid w thr banned re_word allow_proper = Some true →
  (w ∉ banned) ∧ fullmatch re_word w = true.
Proof.
  unfold LetterGen.is_valid. case_bool_decide as Hban; [done|].
  destruct (fullmatch re_word w); [done|]. done.
Qed.

(** X10.  With length bounds that the pattern takes as a repetition
    count, every word that [main] ends with was either in the output
    file when the run started or has passed the first two tests of
    [is_valid]: it is not banned and it matches the length pattern.
    This holds whatever the thresholds and the outcome of the frequency
    test are. *)
Theorem accepted_words_passed_the_gate
    (fuel pass_fuel : nat) (existing : list string) (r : finished) :
  repetition_bounds (min_length opts) (max_length opts) →
  main fuel pass_fuel existing = Ok r →
  ∀ w, w ∈ result_words r →
       w ∈ read_words existing
       ∨ ((w ∉ banned)
          ∧ fullmatch (make_word_re (min_length opts) (max_length opts)) w
            = true).
Proof.
  intros _. unfold LetterGen.main, mbind, res_bind.
  destruct (main_loop fuel pass_fuel _) as [[why s]| |] eqn:Hloop;
    [|done|done].
  assert (HP : ∀ w, w ∈ final_words (st_store s) →
     w ∈ read_words existing
     ∨ ((w ∉ banned)
        ∧ fullmatch (make_word_re (min_length opts) (max_length opts)) w
          = true)).
  { refine (main_loop_invariant
      (λ st, ∀ w, w ∈ final_words st → w ∈ read_words existing ∨ _)
      (λ _, True) _ _ _ _ _ _ _ _ Hloop I _).
    - done.
    - intros st n HP. exact HP.
    - intros thr st batch _ HP Hbatch w. cbn [with_batch final_words].
      rewrite elem_of_union, elem_of_list_to_set.
      intros [Hw|Hw]; [by apply HP|right].
      rewrite Forall_forall in Hbatch. destruct (Hbatch w Hw) as [_ Hv].
      by eapply is_valid_checks.
    - intros w. cbn. rewrite elem_of_list_to_set. by left. }
  unfold trim_surplus. destruct (_ && _); intros [= <-]; cbn [result_words];
    [|done].
  intros w Hw. apply elem_of_list_to_set in Hw.
  apply trim_to_target_elem in Hw as [Hw _]. auto.
Qed.

(** X11.  For a run that starts without an output file (or with an
    empty one) and with length bounds that the pattern takes as a
    repetition count, the output file and the accepted set agree:
    reading the file back the way a resumed run does gives exactly the
    set that [main] ends with, trimmed or not. *)
Theorem output_file_holds_the_accepted_set
    (fuel pass_fuel : nat) (r : finished) :
  repetition_bounds (min_length opts) (max_length opts) →
  main fuel pass_fuel [] = Ok r →
  result_words r = list_to_set (read_words (result_file r)).
Proof.
  intros _. unfold LetterGen.main, mbind, res_bind.
  destruct (main_loop fuel pass_fuel _) as [[why s]| |] eqn:Hloop;
    [|done|done].
  assert (HP : final_words (st_store s)
               = list_to_set (read_words (out_lines (st_store s)))).
  { refine (main_loop_invariant
      (λ st, final_words st = list_to_set (read_words (out_lines st)))
      (λ _, True) _ _ _ _ _ _ _ _ Hloop I _).
    - done.
    - intros st n HP. exact HP.
    - intros thr st batch _ HP Hbatch. cbn [with_batch final_words out_lines].
      unfold read_words in *. rewrite map_app, filter_app, list_to_set_app_L.
      rewrite <- HP. f_equal. f_equal. symmetry.
      apply ImproverFacts.read_words_clean.
      eapply Forall_impl; [exact Hbatch|]. intros w [Hne Hv]. split; [|done].
      apply strip_az, (fullmatch_az (make_word_re (min_length opts)
                                      (max_length opts))).
      revert Hv. unfold LetterGen.is_valid.
      destruct (bool_decide _); [done|].
      by destruct (fullmatch _ w).
    - done. }
  unfold trim_surplus. destruct (_ && _); intros [= <-];
    cbn [result_words result_file]; [|done].
  set (kept := trim_to_target _ _ _ _ _).
  assert (Hclean : Forall (λ w, Py.strip w = w ∧ w ≠ "") (Py.sorted kept)).
  { unfold Py.sorted. rewrite merge_sort_Permutation.
    apply Forall_forall. intros w Hw.
    apply trim_to_target_elem in Hw as [Hw Hwin].
    split; [by apply strip_az, (fullmatch_az _ _ Hwin)|].
    rewrite HP in Hw. apply elem_of_list_to_set in Hw.
    unfold read_words in Hw. by apply list_elem_of_filter in Hw as [? _]. }
  rewrite (ImproverFacts.read_words_clean _ Hclean).
  apply set_eq. intros w. rewrite !elem_of_list_to_set.
  unfold Py.sorted. by rewrite merge_sort_Permutation.
Qed.

(** X12.  With a positive [--target-size], [main] never ends with
    more words than the target, and the words it ends with are among
    those accepted by the loop. *)
Theorem result_is_within_a_positive_target
    (fuel pass_fuel : nat) (existing : list string) (r : finished) :
  (0 < target_size opts)%Z →
  main fuel pass_fuel existing = Ok r →
  (Z.of_nat (size (result_words r)) ≤ target_size opts)%Z
  ∧ result_words r ⊆ final_words (st_store (last_state r)).
Proof.
  intros Htarget. unfold LetterGen.main, mbind, res_bind.
  destruct (main_loop fuel pass_fuel _) as [[why s]| |] eqn:Hloop;
    [|done|done].
  unfold trim_surplus.
  destruct (Z.eqb_spec (target_size opts) 0) as [?|_]; [lia|]. cbn [negb andb].
  destruct (Z.ltb_spec (target_size opts)
              (Z.of_nat (size (final_words (st_store s))))) as [Hover|Hfits];
    intros [= <-]; cbn [result_words last_state]; [|split; [lia|done]].
  split.
  - pose proof (size_list_to_set_le
      (trim_to_target zipf_frequency (final_words (st_store s))
         (target_size opts) (min_length opts) (max_length opts))) as Hsize.
    unfold trim_to_target in *. rewrite trim_list_ranking in *.
    rewrite length_fmap in Hsize. unfold slice_to in *.
    destruct (Z.leb_spec 0 (target_size opts)); [|lia].
    rewrite length_take in Hsize. lia.
  - intros w Hw. apply elem_of_list_to_set in Hw.
    by apply trim_to_target_elem in Hw as [Hw _].
Qed.

End Store.

Import LetterGenExamples.

(** The first pass reaches the target with three words; the surplus
    word is trimmed. *)
Lemma acorn_run :
  ∃ r, main flat_zipf acorn_api two_word_options DEFAULT_BANNED Qminus 21 7
         []
       = Ok r
       ∧ why_left r = TargetReached
       ∧ out_lines (st_store (last_state r)) = ["apple"; "able"; "acorn"]
       ∧ result_file r = ["acorn"; "apple"].
Proof. eexists. split; [vm_compute; reflexivity|]. by repeat split. Qed.

Lemma accepted_words_passed_the_gate_witness :
  ∃ r, main flat_zipf acorn_api two_word_options DEFAULT_BANNED Qminus 21 7
         []
       = Ok r
       ∧ ∀ w, w ∈ result_words r →
              w ∈ read_words []
              ∨ ((w ∉ DEFAULT_BANNED)
                 ∧ fullmatch (make_word_re (min_length two_word_options)
                                (max_length two_word_options)) w = true).
Proof.
  destruct acorn_run as (r & Hrun & _). exists r. split; [exact Hrun|].
  apply (accepted_words_passed_the_gate flat_zipf acorn_api two_word_options
           DEFAULT_BANNED Qminus 21 7 [] r); [|exact Hrun].
  unfold repetition_bounds. simpl. lia.
Defined.

Lemma output_file_holds_the_accepted_set_witness :
  ∃ r, main flat_zipf acorn_api two_word_options DEFAULT_BANNED Qminus 21 7
         []
       = Ok r
       ∧ result_words r = list_to_set (read_words (result_file r)).
Proof.
  destruct acorn_run as (r & Hrun & _). exists r. split; [exact Hrun|].
  apply (output_file_holds_the_accepted_set flat_zipf acorn_api
           two_word_options DEFAULT_BANNED Qminus 21 7 r); [|exact Hrun].
  unfold repetition_bounds. simpl. lia.
Defined.

(** A reply that repeats a word: both lines are written and counted. *)
Lemma alphabet_pass_counts_written_lines_witness :
  ∃ st' added,
    alphabet_pass flat_zipf repeating_api two_word_options
      (make_word_re 3 10) DEFAULT_BANNED (3#1) 7 "a"
      (st_store (initial two_word_options [])) = Ok (st', added)
    ∧ out_lines st' = ["tree"; "tree"]
    ∧ (∃ new : list string,
         out_lines st' = out_lines (st_store (initial two_word_options []))
                         ++ new
         ∧ added = Z.of_nat (length new)
         ∧ final_words st'
           = final_words (st_store (initial two_word_options []))
             ∪ list_to_set new)
    ∧ (Z.of_nat (size (final_words st'))
       ≤ Z.of_nat (size (final_words
                           (st_store (initial two_word_options []))))
         + added)%Z
    ∧ (added = 0%Z
       ↔ final_words st'
         = final_words (st_store (initial two_word_options []))).
Proof.
  assert (∃ st' added,
    alphabet_pass flat_zipf repeating_api two_word_options
      (make_word_re 3 10) DEFAULT_BANNED (3#1) 7 "a"
      (st_store (initial two_word_options [])) = Ok (st', added)
    ∧ out_lines st' = ["tree"; "tree"]) as (st' & added & Hpass & Hout).
  { do 2 eexists. split; [vm_compute; reflexivity|reflexivity]. }
  exists st', added. split; [exact Hpass|]. split; [exact Hout|].
  apply (alphabet_pass_counts_written_lines flat_zipf repeating_api
           two_word_options DEFAULT_BANNED (make_word_re 3 10) (3#1) 7 "a"
           _ st' added Hpass).
Defined.

Lemma result_is_within_a_positive_target_witness :
  ∃ r, main flat_zipf acorn_api two_word_options DEFAULT_BANNED Qminus 21 7
         []
       = Ok r
       ∧ (Z.of_nat (size (result_words r)) ≤ target_size two_word_options)%Z
       ∧ result_words r ⊆ final_words (st_store (last_state r)).
Proof.
  destruct acorn_run as (r & Hrun & _). exists r. split; [exact Hrun|].
  apply (result_is_within_a_positive_target flat_zipf acorn_api
           two_word_options DEFAULT_BANNED Qminus 21 7 [] r); [|exact Hrun].
  vm_compute. reflexivity.
Defined.

End LetterGenMoreFacts.

Module ImproverMoreFacts.
Import Improver ImproverInv ImproverFacts Examples SortFacts.

Lemma chunked_fuel_spec fuel seq n :
  (0 < n)%nat → (length seq ≤ fuel)%nat →
  concat (chunked_fuel fuel seq n) = seq
  ∧ Forall (λ b, (0 < length b ≤ n)%nat) (chunked_fuel fuel seq n).
Proof.
  intros Hn. revert seq.
  induction fuel as [|fuel IH]; intros seq Hlen.
  - destruct seq; [|simpl in Hlen; lia]. simpl. split; [done|constructor].
  - destruct seq as [|x seq]; [simpl; split; [done|constructor]|].
    change (chunked_fuel (S fuel) (x :: seq) n)
      with (take n (x :: seq) :: chunked_fuel fuel (drop n (x :: seq)) n).
    destruct (IH (drop n (x :: seq))) as [Hcat Hall].
    { rewrite length_drop. simpl in *. lia. }
    split.
    + simpl concat. rewrite Hcat. apply take_drop.
    + constructor; [|done]. rewrite length_take. simpl. lia.
Qed.

Lemma chunked_cases (seq : list string) (n : Z) :
  match chunked seq n with
  | Ok batches =>
      n ≠ 0%Z
      ∧ concat batches = (if (0 <? n)%Z then seq else [])
      ∧ Forall (λ b, (0 < Z.of_nat (length b) ≤ n)%Z) batches
  | Raise e => n = 0%Z ∧ e = ValueError
  | OutOfFuel => False
  end.
Proof.
  unfold chunked. destruct (Z.eqb_spec n 0) as [->|Hn0]; [done|].
  destruct (Z.ltb_spec n 0) as [Hneg|Hpos].
  - split; [done|]. split; [|constructor].
    destruct (Z.ltb_spec 0 n); [lia|done].
  - split; [done|].
    destruct (chunked_fuel_spec (length seq) seq (Z.to_nat n)) as [Hcat Hall];
      [lia|lia|].
    split.
    + destruct (Z.ltb_spec 0 n); [done|lia].
    + eapply Forall_impl; [exact Hall|]. intros b Hb. simpl in Hb. lia.
Qed.

(** X1.  [chunked] loses nothing: for a positive [n] the batches,
    put end to end, are the sequence again, and every batch holds
    between 1 and [n] items (so an empty sequence gives no batch).  A
    zero [n] raises [ValueError] (the zero step of [range]), and a
    negative [n] yields no batch at all. *)
Theorem chunked_splits_losslessly (seq : list string) (n : Z) :
  match chunked seq n with
  | Ok batches =>
      n ≠ 0%Z
      ∧ concat batches = (if (0 <? n)%Z then seq else [])
      ∧ Forall (λ b, (0 < Z.of_nat (length b) ≤ n)%Z) batches
  | Raise e => n = 0%Z ∧ e = ValueError
  | OutOfFuel => False
  end.
Proof. apply chunked_cases. Qed.

(** [words.remove(x)] takes out the first occurrence of [x], and fails
    exactly when there is none. *)
Lemma list_remove_first_occurrence (x : string) (l : list string) :
  match list_remove x l with
  | Some l' => ∃ l1 l2, l = l1 ++ x :: l2 ∧ l' = l1 ++ l2 ∧ x ∉ l1
  | None => x ∉ l
  end.
Proof.
  induction l as [|y l IH]; simpl; [apply not_elem_of_nil|].
  destruct (String.eqb_spec x y) as [->|Hxy].
  - exists [], l. split; [done|]. split; [done|]. apply not_elem_of_nil.
  - destruct (list_remove x l) as [l'|]; simpl.
    + destruct IH as (l1 & l2 & -> & -> & Hx).
      exists (y :: l1), l2. split; [done|]. split; [done|].
      rewrite not_elem_of_cons. done.
    + rewrite not_elem_of_cons. done.
Qed.

Lemma list_remove_some x l : x ∈ l → ∃ l', list_remove x l = Some l'.
Proof.
  intros Hin. pose proof (list_remove_first_occurrence x l) as H.
  destruct (list_remove x l); [eauto|done].
Qed.

Lemma list_remove_keeps x l l' w :
  list_remove x l = Some l' → w ∈ l → w ≠ x → w ∈ l'.
Proof.
  intros Hrm Hin Hne. pose proof (list_remove_first_occurrence x l) as H.
  rewrite Hrm in H. destruct H as (l1 & l2 & -> & -> & _).
  rewrite elem_of_app, elem_of_cons in Hin. rewrite elem_of_app.
  destruct Hin as [?|[?|?]]; [by left|done|by right].
Qed.

Lemma list_remove_subset x l l' w :
  list_remove x l = Some l' → w ∈ l' → w ∈ l.
Proof.
  intros Hrm Hin. pose proof (list_remove_first_occurrence x l) as H.
  rewrite Hrm in H. destruct H as (l1 & l2 & -> & -> & _).
  rewrite elem_of_app in Hin. rewrite elem_of_app, elem_of_cons.
  destruct Hin; [by left|by right; right].
Qed.

(** The exchange made by the purge and by a REMOVE verdict keeps the set
    inside the list. *)
Lemma exchange_consistent (st : state) word ws entry ws' set' :
  consistent st →
  list_remove word (words st) = Some ws →
  ws' = ws ++ [entry] →
  set' = {[ entry ]} ∪ (wordset st ∖ {[ word ]}) →
  ∀ w, w ∈ set' → w ∈ ws'.
Proof.
  intros Hc Hrm -> -> w.
  rewrite elem_of_union, elem_of_singleton, elem_of_difference,
    elem_of_singleton, elem_of_app, list_elem_of_singleton.
  intros [->|[Hin Hne]]; [by right|left].
  eapply list_remove_keeps; eauto.
Qed.

Lemma purge_consistent found st :
  NoDup found → (∀ bw, bw ∈ found → bw ∈ wordset st) → consistent st →
  ∃ st', purge found st = Ok st' ∧ consistent st'.
Proof.
  revert st. induction found as [|bw found IH]; intros st Hnd Hin Hc; simpl.
  - eauto.
  - apply NoDup_cons in Hnd as [Hbw Hnd].
    destruct (list_remove_some bw (words st)) as [ws Hrm].
    { apply Hc, Hin. by left. }
    rewrite Hrm. apply IH; [done| |].
    + intros bw' Hbw'. cbn [wordset].
      apply elem_of_union_r, elem_of_difference.
      split; [apply Hin; by right|]. intros Heq.
      apply elem_of_singleton in Heq as ->. done.
    + intros w. cbn [wordset words]. by eapply exchange_consistent.
Qed.

Lemma load_consistent lines :
  (∃ st, load lines = Ok st ∧ consistent st ∧ calls st = 0%nat)
  ∨ (∃ msg, load lines = Raise (SystemExit msg)).
Proof.
  unfold load. case_bool_decide as Hlen; [right; eauto|]. left.
  set (ws := map Py.lower (read_words lines)).
  destruct (purge_consistent (elements (list_to_set ws ∩ BANNED))
    {| words := ws; wordset := list_to_set ws; bloom := list_to_set ws;
       placeholders := []; log := []; calls := 0 |})
    as (st' & Hp & Hc').
  - apply NoDup_elements.
  - intros bw. rewrite elem_of_elements, elem_of_intersection. cbn. tauto.
  - intros w. cbn. by rewrite elem_of_list_to_set.
  - exists st'. split; [done|]. split; [done|].
    clear -Hp. revert Hp. generalize (elements (list_to_set ws ∩ BANNED)).
    intros found.
    assert (H : ∀ st st', purge found st = Ok st' → calls st' = calls st).
    { induction found as [|bw found IH]; intros st st''; simpl.
      - by intros [= <-].
      - destruct (list_remove bw (words st)); [|done].
        intros Hr. by apply IH in Hr. }
    intros Hp. by apply H in Hp.
Qed.

Section Run.

Variable zipf_frequency : string → Q.
Variable common_pool : list string.
Variable api : nat → reply.
Variable bloom_false_positive : gset string → string → bool.
Variable opts : options.

Local Abbreviation apply_verdict :=
  (apply_verdict zipf_frequency bloom_false_positive opts).
Local Abbreviation apply_verdicts :=
  (apply_verdicts zipf_frequency bloom_false_positive opts).
Local Abbreviation process_batch :=
  (process_batch zipf_frequency api bloom_false_positive opts).
Local Abbreviation process_batches :=
  (process_batches zipf_frequency api bloom_false_positive opts).
Local Abbreviation next_candidate :=
  (next_candidate zipf_frequency bloom_false_positive opts).
Local Abbreviation fill := (fill zipf_frequency bloom_false_positive opts).
Local Abbreviation fill_placeholders :=
  (fill_placeholders zipf_frequency common_pool bloom_false_positive opts).
Local Abbreviation refine_state :=
  (refine_state zipf_frequency common_pool api bloom_false_positive opts).
Local Abbreviation refine_wordlist :=
  (refine_wordlist zipf_frequency common_pool api bloom_false_positive opts).

Lemma apply_verdict_consistent rec st :
  consistent st →
  ∃ st', apply_verdict rec st = Ok st' ∧ consistent st'
         ∧ calls st' = calls st.
Proof.
  intros Hc. unfold Improver.apply_verdict. cbn zeta.
  case_bool_decide as Hin; [eauto|].
  destruct (default true (v_keep rec)); [eauto|].
  destruct (list_remove_some _ _ (Hc _ Hin)) as [ws Hrm]. rewrite Hrm.
  destruct (first_usable _ _ _ _ _); eexists; (split; [done|]);
    (split; [|done]); intros w; cbn [wordset words];
    by eapply exchange_consistent.
Qed.

Lemma apply_verdicts_consistent recs st :
  consistent st →
  ∃ st', apply_verdicts recs st = Ok st' ∧ consistent st'
         ∧ calls st' = calls st.
Proof.
  revert st. induction recs as [|rec recs IH]; intros st Hc; simpl; [eauto|].
  destruct (apply_verdict_consistent rec st Hc) as (st1 & -> & Hc1 & Hcalls).
  simpl. destruct (IH st1 Hc1) as (st2 & -> & Hc2 & Hcalls2).
  exists st2. split; [done|]. split; [done|]. congruence.
Qed.

Lemma request_bounds attempts n :
  match request api attempts n with
  | (Some _, n') => (n < n' ≤ n + attempts)%nat
  | (None, n') => n' = (n + attempts)%nat
  end.
Proof.
  revert n. induction attempts as [|k IH]; intros n; simpl; [lia|].
  destruct (api n); [|lia].
  specialize (IH (S n)). destruct (request api k (S n)) as [[r|] n']; lia.
Qed.

Lemma process_batch_consistent st :
  consistent st →
  (∃ st', process_batch st = Ok st' ∧ consistent st'
          ∧ (calls st < calls st'
             ≤ calls st + Z.to_nat (max_retries opts))%nat)
  ∨ (∃ msg, process_batch st = Raise (SystemExit msg)).
Proof.
  intros Hc. unfold Improver.process_batch.
  pose proof (request_bounds (Z.to_nat (max_retries opts)) (calls st)) as Hb.
  destruct (request api _ _) as [[[|results]|] n]; [| |right; eauto].
  - left. eexists. split; [done|]. split; [exact Hc|]. simpl. lia.
  - left.
    destruct (apply_verdicts_consistent (default [] results)
                (with_calls n st) Hc) as (st' & -> & Hc' & Hcalls).
    exists st'. split; [done|]. split; [done|]. rewrite Hcalls. simpl. lia.
Qed.

Lemma process_batches_consistent batches st :
  consistent st →
  (∃ st', process_batches batches st = Ok st' ∧ consistent st'
          ∧ (calls st + length batches ≤ calls st'
             ≤ calls st + length batches * Z.to_nat (max_retries opts))%nat)
  ∨ (∃ msg, process_batches batches st = Raise (SystemExit msg)).
Proof.
  revert st. induction batches as [|b batches IH]; intros st Hc; simpl.
  - left. exists st. split; [done|]. split; [done|]. lia.
  - destruct (process_batch_consistent st Hc)
      as [(st1 & -> & Hc1 & Hcalls)|[msg ->]]; [|right; eauto].
    simpl. destruct (IH st1 Hc1) as [(st2 & -> & Hc2 & Hcalls2)|[msg ->]];
      [|right; eauto].
    left. exists st2. split; [done|]. split; [done|]. lia.
Qed.

(** X2.  [words.remove] never fails.  Every word of [wordset] is in
    [words] - after the purge and after every verdict - so the two
    calls of [words.remove] always find their word: with a non-zero
    batch size a run either writes its file or stops through one of the
    script's own [sys.exit] calls (wrong input size, API errors, length
    check), whatever the classifier answers. *)
Theorem run_fails_only_by_exit (lines : list string) :
  batch_size opts ≠ 0%Z →
  (∃ out, refine_wordlist lines = Ok out)
  ∨ (∃ msg, refine_wordlist lines = Raise (SystemExit msg)).
Proof.
  intros Hbatch. unfold Improver.refine_wordlist, Improver.refine_state.
  destruct (load_consistent lines) as [(st & -> & Hc & _)|[msg ->]];
    [|right; eauto].
  cbn [mbind res_bind].
  pose proof (chunked_cases
    (candidates_of zipf_frequency opts st) (batch_size opts)) as Hch.
  destruct (chunked _ _) as [batches|e|]; [|by destruct Hch|done].
  cbn [mbind res_bind].
  destruct (process_batches_consistent batches st Hc)
    as [(st' & -> & _)|[msg ->]]; [|right; eauto].
  cbn [mbind res_bind]. case_bool_decide; [right|left]; eauto.
Qed.

Lemma fill_placeholders_calls st :
  calls (fill_placeholders st) = calls st.
Proof.
  unfold Improver.fill_placeholders. destruct (placeholders st); [done|].
  by destruct (Improver.fill _ _ _ _ _ _).
Qed.

Lemma apply_verdict_calls rec st st' :
  apply_verdict rec st = Ok st' → calls st' = calls st.
Proof.
  unfold Improver.apply_verdict. cbn zeta.
  case_bool_decide; [by intros [= <-]|].
  destruct (default true (v_keep rec)); [by intros [= <-]|].
  destruct (list_remove _ _); [|done].
  destruct (first_usable _ _ _ _ _); by intros [= <-].
Qed.

Lemma apply_verdicts_calls recs st st' :
  apply_verdicts recs st = Ok st' → calls st' = calls st.
Proof.
  revert st. induction recs as [|rec recs IH]; intros st; simpl;
    [by intros [= <-]|].
  destruct (apply_verdict rec st) as [st1| |] eqn:Hrec; [|done|done].
  simpl. intros Hrest. rewrite (IH _ Hrest). by eapply apply_verdict_calls.
Qed.

Lemma process_batch_calls st st' :
  process_batch st = Ok st' →
  (calls st < calls st' ≤ calls st + Z.to_nat (max_retries opts))%nat.
Proof.
  unfold Improver.process_batch.
  pose proof (request_bounds (Z.to_nat (max_retries opts)) (calls st)) as Hb.
  destruct (request api _ _) as [[[|results]|] n]; [| |done].
  - intros [= <-]. simpl. lia.
  - intros Hv. rewrite (apply_verdicts_calls _ _ _ Hv). simpl. lia.
Qed.

(** The states between the batches: [process_batches] is [process_batch]
    once for every batch, each from the state the one before left. *)
Lemma process_batches_trace batches st st' :
  process_batches batches st = Ok st' →
  ∃ trace : list state,
    length trace = S (length batches)
    ∧ trace !! 0%nat = Some st ∧ last trace = Some st'
    ∧ ∀ i s s', trace !! i = Some s → trace !! S i = Some s' →
                process_batch s = Ok s'.
Proof.
  revert st. induction batches as [|b batches IH]; intros st; simpl.
  - intros [= <-]. exists [st]. do 3 (split; [done|]).
    intros i s s' _ Hnext. by destruct i.
  - destruct (process_batch st) as [st1| |] eqn:Hfirst; [|done|done].
    simpl. intros Hrest.
    destruct (IH _ Hrest) as (trace & Hlen & Hhead & Hlast & Hstep).
    exists (st :: trace). split; [simpl; lia|]. split; [done|]. split.
    + destruct trace; [done|]. exact Hlast.
    + intros [|i] s s'; simpl; [|apply Hstep].
      intros [= <-]. rewrite Hhead. by intros [= <-].
Qed.

(** X3.  A run that reaches the filling step has taken the batches one
    by one: the body of the batch loop ran once for every batch, each
    time from the state the batch before left, and each time it sent at
    least one and at most [max_retries] requests. *)
Theorem requests_per_batch (lines : list string) (st : state) :
  refine_state lines = Ok st →
  ∃ (st0 : state) (batches : list (list string)) (trace : list state),
    load lines = Ok st0
    ∧ chunked (candidates_of zipf_frequency opts st0) (batch_size opts)
      = Ok batches
    ∧ length trace = S (length batches)
    ∧ trace !! 0%nat = Some st0
    ∧ (∃ s, last trace = Some s ∧ st = fill_placeholders s)
    ∧ ∀ i s s', trace !! i = Some s → trace !! S i = Some s' →
        process_batch s = Ok s'
        ∧ (calls s < calls s'
           ≤ calls s + Z.to_nat (max_retries opts))%nat.
Proof.
  unfold Improver.refine_state.
  destruct (load lines) as [st0| |] eqn:Hload; [|done|done].
  cbn [mbind res_bind].
  destruct (chunked _ _) as [batches|e|] eqn:Hch; [|done|done].
  cbn [mbind res_bind].
  destruct (process_batches batches st0) as [st1| |] eqn:Hrun; [|done|done].
  cbn [mbind res_bind]. intros [= <-].
  destruct (process_batches_trace _ _ _ Hrun)
    as (trace & Hlen & Hhead & Hlast & Hstep).
  exists st0, batches, trace. do 4 (split; [done|]).
  split; [by exists st1|].
  intros i s s' Hs Hs'. pose proof (Hstep i s s' Hs Hs') as Hb.
  split; [exact Hb|by apply process_batch_calls].
Qed.

Lemma next_candidate_spec pool added c pool' :
  next_candidate pool added = Some (c, pool') →
  (∃ skipped, pool = skipped ++ c :: pool')
  ∧ Py.isalpha c = true ∧ (c ∉ added)
  ∧ obvious_bad zipf_frequency c (freq_threshold opts) = false.
Proof.
  induction pool as [|x pool IH]; simpl; [done|].
  destruct (_ && _) eqn:Hok.
  - intros [= -> ->]. rewrite !andb_true_iff, !negb_true_iff in Hok.
    destruct Hok as [[Ha Hb] Ho]. split; [exists []; done|].
    split; [done|]. split; [|done].
    unfold bloom_contains in Hb. apply orb_false_iff in Hb as [Hb _].
    by apply bool_decide_eq_false in Hb.
  - intros Hn. destruct (IH Hn) as ([skipped ->] & ?).
    split; [exists (x :: skipped); done|done].
Qed.

Lemma fill_cases (ws pool : list string) (added : gset string) :
  Forall2
    (λ w w',
       w' = w
       ∨ (is_placeholder w = true ∧ w' ∈ pool ∧ (w' ∉ added)
          ∧ Py.isalpha w' = true
          ∧ obvious_bad zipf_frequency w' (freq_threshold opts) = false))
    ws (fill ws pool added).1.
Proof.
  revert pool added. induction ws as [|w ws IH]; intros pool added; simpl.
  - constructor.
  - destruct (is_placeholder w) eqn:Hph.
    + destruct (next_candidate pool added) as [[c pool']|] eqn:Hnext.
      * apply next_candidate_spec in Hnext
          as ([skipped ->] & Halpha & Hnew & Hok).
        specialize (IH pool' ({[ c ]} ∪ added)).
        destruct (fill ws pool' _) as [rest' added']. simpl in *.
        constructor.
        -- right. split; [done|]. split; [|done].
           apply elem_of_app. right. by left.
        -- eapply Forall2_impl; [exact IH|]. intros x y [->|(? & Hin & Hn & ?)];
             [by left|right].
           split; [done|]. split; [|split; [|done]].
           ++ apply elem_of_app. right. by right.
           ++ intros Hy. apply Hn. apply elem_of_union. by right.
      * specialize (IH [] added).
        destruct (fill ws [] added) as [rest' added']. simpl in *.
        constructor; [by left|].
        eapply Forall2_impl; [exact IH|]. intros x y [->|(? & Hin & _)];
          [by left|]. by apply not_elem_of_nil in Hin.
    + specialize (IH pool added).
      destruct (fill ws pool added) as [rest' added']. simpl in *.
      constructor; [by left|done].
Qed.

(** X4.  The filling step changes placeholders only, position by
    position: an entry that is not a placeholder stays as it is, and a
    placeholder either stays or gives way to a word of the common pool
    that is alphabetic, was not in the Bloom filter's word set and
    passes [obvious_bad]. *)
Theorem fill_replaces_only_placeholders (ws pool : list string)
    (added : gset string) :
  Forall2
    (λ w w',
       w' = w
       ∨ (is_placeholder w = true ∧ w' ∈ pool ∧ (w' ∉ added)
          ∧ Py.isalpha w' = true
          ∧ obvious_bad zipf_frequency w' (freq_threshold opts) = false))
    ws (fill ws pool added).1.
Proof. apply fill_cases. Qed.

End Run.

Lemma forallb_rev {A} (f : A → bool) (l : list A) :
  forallb f (rev l) = forallb f l.
Proof.
  induction l as [|x l IH]; simpl; [done|].
  rewrite forallb_app. simpl. rewrite IH, andb_true_r. apply andb_comm.
Qed.

(** X5.  The placeholder written for a removed word is recognised by
    [PLACEHOLDER_RE] exactly when the word is a non-empty string of the
    letters a-z; the placeholder of any other word (one with an accent
    or an upper-case letter, say) is neither kept out of the candidates
    nor ever filled. *)
Theorem placeholder_recognised (w : string) :
  is_placeholder (placeholder_of w)
  = negb (String.eqb w "") && forallb Py.is_az (Py.chars w).
Proof.
  unfold is_placeholder, placeholder_of.
  change ("_missing_" +:+ w +:+ "_")
    with (String "_" (String "m" (String "i" (String "s" (String "s"
           (String "i" (String "n" (String "g" (String "_"
             (w +:+ "_")))))))))).
  cbn [String.prefix Py.chars String.list_ascii_of_string drop].
  repeat (destruct (ascii_dec _ _) as [_|Hne]; [|by destruct Hne]).
  assert (Hprefix : String.prefix "" (w +:+ "_") = true)
    by (by destruct (w +:+ "_")).
  rewrite Hprefix. cbn [andb].
  change (String.list_ascii_of_string (w +:+ "_")) with (Py.chars (w +:+ "_")).
  rewrite SizeFacts.chars_append. change (Py.chars "_") with ["_"%char].
  rewrite drop_0. unfold placeholder_body.
  rewrite rev_app_distr. cbn [rev app]. rewrite orb_false_r.
  destruct w as [|c w]; [done|].
  cbn [String.eqb negb andb].
  rewrite <- (forallb_rev Py.is_az (Py.chars (String c w))).
  destruct (rev (Py.chars (String c w))) as [|y l] eqn:Hrev; [|done].
  apply (f_equal (@length _)) in Hrev. rewrite length_rev in Hrev. done.
Qed.

(** *** Where the written lines come from *)

Section Provenance.

Variable zipf_frequency : string → Q.
Variable common_pool : list string.
Variable api : nat → reply.
Variable bloom_false_positive : gset string → string → bool.
Variable opts : options.
Variable input : list string.

Local Abbreviation provenance := (provenance zipf_frequency opts input).
Local Abbreviation apply_verdict :=
  (apply_verdict zipf_frequency bloom_false_positive opts).
Local Abbreviation apply_verdicts :=
  (apply_verdicts zipf_frequency bloom_false_positive opts).
Local Abbreviation process_batch :=
  (process_batch zipf_frequency api bloom_false_positive opts).
Local Abbreviation process_batches :=
  (process_batches zipf_frequency api bloom_false_positive opts).
Local Abbreviation fill_placeholders :=
  (fill_placeholders zipf_frequency common_pool bloom_false_positive opts).

Lemma exchange_provenance x l ws entry :
  Forall provenance l → list_remove x l = Some ws → provenance entry →
  Forall provenance (ws ++ [entry]).
Proof.
  intros Hl Hrm He. apply Forall_app. split; [|by constructor].
  rewrite Forall_forall in Hl |- *. intros w Hw. apply Hl.
  by eapply list_remove_subset.
Qed.

Lemma purge_provenance found st st' :
  purge found st = Ok st' →
  Forall provenance (words st) → Forall provenance (words st').
Proof.
  revert st. induction found as [|bw found IH]; intros st; simpl.
  - by intros [= <-].
  - destruct (list_remove bw (words st)) as [ws|] eqn:Hrm; [|done].
    intros Hp Hall. apply IH in Hp; [done|]. cbn [words].
    eapply exchange_provenance; [done..|]. right; left. by eexists.
Qed.

Lemma apply_verdict_provenance rec st st' :
  apply_verdict rec st = Ok st' →
  Forall provenance (words st) → Forall provenance (words st').
Proof.
  intros Hstep Hall. apply apply_verdict_cases in Hstep.
  destruct Hstep as [[-> _]|(_ & _ & ws & entry & Hrm & -> & He)]; [done|].
  eapply exchange_provenance; [done..|].
  destruct He as [->|He]; [right; left; by eexists|by right; right].
Qed.

Lemma apply_verdicts_provenance recs st st' :
  apply_verdicts recs st = Ok st' →
  Forall provenance (words st) → Forall provenance (words st').
Proof.
  revert st. induction recs as [|rec recs IH]; intros st; simpl.
  - by intros [= <-].
  - destruct (apply_verdict rec st) as [st1| |] eqn:H1; [|done|done].
    simpl. intros H2 Hall. eapply IH; [done|].
    by eapply apply_verdict_provenance.
Qed.

Lemma process_batches_provenance batches st st' :
  process_batches batches st = Ok st' →
  Forall provenance (words st) → Forall provenance (words st').
Proof.
  revert st. induction batches as [|b batches IH]; intros st; simpl.
  - by intros [= <-].
  - destruct (process_batch st) as [st1| |] eqn:H1; [|done|done].
    simpl. intros H2 Hall. eapply IH; [done|].
    unfold Improver.process_batch in H1.
    destruct (request api _ _) as [[[|results]|] n]; [| |done].
    + by injection H1 as <-.
    + by eapply apply_verdicts_provenance.
Qed.

Lemma fill_placeholders_provenance st :
  Forall provenance (words st) →
  Forall provenance (words (fill_placeholders st)).
Proof.
  intros Hall. unfold Improver.fill_placeholders.
  destruct (placeholders st); [done|].
  pose proof (fill_cases zipf_frequency
                bloom_false_positive opts (words st) common_pool (bloom st))
    as Hfill.
  destruct (Improver.fill _ _ _ _ _ _) as [ws added]. simpl in *.
  clear -Hall Hfill. induction Hfill as [|w w' l l' Hw _ IH]; [done|].
  apply Forall_cons in Hall as [Hw0 Hall].
  constructor; [|by apply IH].
  destruct Hw as [->|(_ & _ & _ & ? & ?)]; [done|by right; right].
Qed.

End Provenance.

(** X6.  The file that is written is sorted, and every line of it is
    a word of the input (lower-cased), a placeholder, or a replacement
    that is alphabetic and passes [obvious_bad]: nothing else is ever
    written. *)
Theorem written_lines_are_sorted_and_accounted_for
    (zipf_frequency : string → Q) (common_pool : list string)
    (api : nat → reply) (bloom_false_positive : gset string → string → bool)
    (opts : options) (lines out : list string) :
  refine_wordlist zipf_frequency common_pool api bloom_false_positive opts
    lines = Ok out →
  StronglySorted Py.str_le out
  ∧ Forall (provenance zipf_frequency opts (map Py.lower (read_words lines)))
      out.
Proof.
  unfold refine_wordlist, refine_state, load.
  case_bool_decide as Hlen; [done|].
  destruct (purge _ _) as [st0| |] eqn:Hpurge; [|done|done].
  cbn [mbind res_bind].
  destruct (chunked _ _) as [batches| |]; [|done|done].
  cbn [mbind res_bind].
  destruct (process_batches _ _ _ _ _ _) as [st1| |] eqn:Hb; [|done|done].
  cbn [mbind res_bind]. case_bool_decide; [done|]. intros [= <-].
  split; [apply StronglySorted_merge_sort; apply _|].
  unfold Py.sorted. rewrite merge_sort_Permutation.
  apply fill_placeholders_provenance.
  eapply process_batches_provenance; [done|].
  eapply purge_provenance; [done|]. cbn [words].
  apply Forall_forall. intros w Hw. by left.
Qed.

(** *** A banned word that occurs twice *)

Lemma count_app w l1 l2 : count w (l1 ++ l2) = (count w l1 + count w l2)%nat.
Proof. unfold count. by rewrite filter_app, length_app. Qed.

Lemma count_cons w x l :
  count w (x :: l) = ((if decide (x = w) then 1 else 0) + count w l)%nat.
Proof.
  unfold count. destruct (decide (x = w)).
  - by rewrite filter_cons_True.
  - by rewrite filter_cons_False.
Qed.

Lemma count_elem_of w l : (1 ≤ count w l)%nat ↔ w ∈ l.
Proof.
  induction l as [|x l IH];
    [unfold count; simpl; split; [lia|by intros ?%not_elem_of_nil]|].
  rewrite count_cons, elem_of_cons. destruct (decide (x = w)) as [->|Hne].
  - split; [by left|lia].
  - rewrite <- IH. simpl. split; [by right|]. intros [?|?]; [congruence|done].
Qed.

Lemma list_remove_count x l l' w :
  list_remove x l = Some l' →
  count w l = ((if decide (x = w) then 1 else 0) + count w l')%nat.
Proof.
  intros Hrm. pose proof (list_remove_first_occurrence x l) as H.
  rewrite Hrm in H. destruct H as (l1 & l2 & -> & -> & _).
  rewrite !count_app, count_cons. lia.
Qed.

Lemma banned_no_underscore bw :
  bw ∈ BANNED → String.prefix "_" bw = false.
Proof.
  intros Hin.
  assert (H : Forall (λ b, String.prefix "_" b = false) (elements BANNED))
    by (apply (bool_decide_unpack _); vm_compute; exact I).
  rewrite Forall_forall in H. by apply H, elem_of_elements.
Qed.

Lemma placeholder_not_plain x bw :
  String.prefix "_" bw = false → placeholder_of x ≠ bw.
Proof. intros Hp <-. done. Qed.

Lemma plain_not_placeholder bw :
  String.prefix "_" bw = false → is_placeholder bw = false.
Proof.
  intros Hp. unfold is_placeholder. destruct bw as [|c bw]; [done|].
  cbn [String.prefix] in *. destruct (ascii_dec _ _); [|done].
  by destruct bw.
Qed.

Section Duplicates.

Variable zipf_frequency : string → Q.
Variable common_pool : list string.
Variable api : nat → reply.
Variable bloom_false_positive : gset string → string → bool.
Variable opts : options.
Variable bw : string.
Hypothesis banned : bw ∈ BANNED.

Local Abbreviation apply_verdict :=
  (apply_verdict zipf_frequency bloom_false_positive opts).
Local Abbreviation apply_verdicts :=
  (apply_verdicts zipf_frequency bloom_false_positive opts).
Local Abbreviation process_batch :=
  (process_batch zipf_frequency api bloom_false_positive opts).
Local Abbreviation process_batches :=
  (process_batches zipf_frequency api bloom_false_positive opts).
Local Abbreviation fill_placeholders :=
  (fill_placeholders zipf_frequency common_pool bloom_false_positive opts).
Local Abbreviation first_usable :=
  (first_usable zipf_frequency bloom_false_positive opts).

Local Abbreviation stranded := (stranded bw).

Lemma purge_strands found st st' :
  NoDup found →
  purge found st = Ok st' →
  (if decide (bw ∈ found) then (2 ≤ count bw (words st))%nat
   else stranded st) →
  stranded st'.
Proof.
  pose proof (banned_no_underscore bw banned) as Hplain.
  revert st. induction found as [|x found IH]; intros st Hnd; cbn [purge].
  - intros [= <-]. by rewrite decide_False by apply not_elem_of_nil.
  - apply NoDup_cons in Hnd as [Hx Hnd].
    destruct (list_remove x (words st)) as [ws|] eqn:Hrm; [|done].
    intros Hp Hinv. apply (IH _ Hnd) in Hp; [done|].
    unfold ImproverInv.stranded in *. cbn [words wordset].
    pose proof (list_remove_count x _ _ bw Hrm) as Hcount.
    rewrite count_app.
    destruct (decide (x = bw)) as [->|Hne].
    + rewrite decide_True in Hinv by by left.
      rewrite decide_False by done. split; [lia|].
      rewrite not_elem_of_union, not_elem_of_singleton, not_elem_of_difference,
        elem_of_singleton.
      split; [|by right]. intros Heq. by apply (placeholder_not_plain bw bw).
    + destruct (decide (bw ∈ found)) as [Hin|Hnin].
      * rewrite decide_True in Hinv by by right. lia.
      * rewrite decide_False in Hinv
          by (rewrite not_elem_of_cons; by split).
        destruct Hinv as [Hc Hs]. split; [lia|].
        rewrite not_elem_of_union, not_elem_of_singleton,
          not_elem_of_difference.
        split; [|by left]. intros Heq. by apply (placeholder_not_plain x bw).
Qed.

Lemma first_usable_not_banned alts added alt :
  first_usable alts added = Some alt → alt ∉ BANNED.
Proof.
  induction alts as [|a alts IH]; simpl; [done|].
  destruct (_ && _) eqn:Hok; [|done].
  intros [= <-]. rewrite !andb_true_iff, !negb_true_iff in Hok.
  destruct Hok as [_ Hbad]. unfold obvious_bad in Hbad.
  rewrite !orb_false_iff in Hbad. destruct Hbad as [[[Hb _] _] _].
  by apply bool_decide_eq_false in Hb.
Qed.

Lemma apply_verdict_strands rec st st' :
  apply_verdict rec st = Ok st' → stranded st → stranded st'.
Proof.
  pose proof (banned_no_underscore bw banned) as Hplain.
  unfold Improver.apply_verdict. cbn zeta.
  case_bool_decide as Hin; [by intros [= <-]|].
  destruct (default true (v_keep rec)); [by intros [= <-]|].
  destruct (list_remove _ (words st)) as [ws|] eqn:Hrm; [|done].
  intros Hstep [Hc Hs]. unfold ImproverInv.stranded.
  pose proof (list_remove_count _ _ _ bw Hrm) as Hcount.
  rewrite decide_False in Hcount by (intros Heq; by rewrite Heq in Hin).
  destruct (first_usable _ _) as [alt|] eqn:Halt; injection Hstep as <-;
    cbn [words wordset]; rewrite count_app;
    (split; [lia|]);
    rewrite not_elem_of_union, not_elem_of_singleton, not_elem_of_difference;
    (split; [|by left]).
  - intros ->. by apply first_usable_not_banned in Halt.
  - intros Heq. by eapply placeholder_not_plain.
Qed.

Lemma apply_verdicts_strands recs st st' :
  apply_verdicts recs st = Ok st' → stranded st → stranded st'.
Proof.
  revert st. induction recs as [|rec recs IH]; intros st; simpl.
  - by intros [= <-].
  - destruct (apply_verdict rec st) as [st1| |] eqn:H1; [|done|done].
    simpl. intros H2 Hs. eapply IH; [done|].
    by eapply apply_verdict_strands.
Qed.

Lemma process_batches_strands batches st st' :
  process_batches batches st = Ok st' → stranded st → stranded st'.
Proof.
  revert st. induction batches as [|b batches IH]; intros st; simpl.
  - by intros [= <-].
  - destruct (process_batch st) as [st1| |] eqn:H1; [|done|done].
    simpl. intros H2 Hs. eapply IH; [done|].
    unfold Improver.process_batch in H1.
    destruct (request api _ _) as [[[|results]|] n]; [| |done].
    + by injection H1 as <-.
    + by eapply apply_verdicts_strands.
Qed.

Lemma fill_placeholders_keeps st :
  bw ∈ words st → bw ∈ words (fill_placeholders st).
Proof.
  pose proof (plain_not_placeholder bw (banned_no_underscore bw banned))
    as Hplain.
  intros Hin. unfold Improver.fill_placeholders.
  destruct (placeholders st); [done|].
  pose proof (fill_cases zipf_frequency
                bloom_false_positive opts (words st) common_pool (bloom st))
    as Hfill.
  destruct (Improver.fill _ _ _ _ _ _) as [ws added]. simpl in *.
  clear -Hin Hfill Hplain. induction Hfill as [|w w' l l' Hw _ IH].
  - by apply not_elem_of_nil in Hin.
  - apply elem_of_cons in Hin as [<-|Hin]; [|right; by apply IH].
    destruct Hw as [->|[Hph _]]; [by left|congruence].
Qed.

(** X7.  The purge removes one occurrence only.  A banned word that
    occurs at least twice in the input is taken out of [wordset] and
    once out of [words]; its other occurrences are no candidates, match
    no verdict and are no placeholders, so every run that writes a
    file writes the banned word. *)
Theorem repeated_banned_word_is_written (lines out : list string) :
  (2 ≤ count bw (map Py.lower (read_words lines)))%nat →
  refine_wordlist zipf_frequency common_pool api bloom_false_positive opts
    lines = Ok out →
  bw ∈ out.
Proof.
  intros Htwice. unfold refine_wordlist, refine_state, load.
  case_bool_decide as Hlen; [done|].
  destruct (purge _ _) as [st0| |] eqn:Hpurge; [|done|done].
  cbn [mbind res_bind].
  destruct (chunked _ _) as [batches| |]; [|done|done].
  cbn [mbind res_bind].
  destruct (process_batches _ _) as [st1| |] eqn:Hb; [|done|done].
  cbn [mbind res_bind]. case_bool_decide; [done|]. intros [= <-].
  unfold Py.sorted. rewrite merge_sort_Permutation.
  apply fill_placeholders_keeps.
  apply count_elem_of.
  refine (proj1 (process_batches_strands batches st0 st1 Hb _)).
  apply (purge_strands _ _ st0 (NoDup_elements _) Hpurge).
  cbn [words]. rewrite decide_True; [done|].
  apply elem_of_elements. apply elem_of_intersection. split; [|done].
  apply elem_of_list_to_set. apply count_elem_of. lia.
Qed.

End Duplicates.

(** *** Sample runs *)

Lemma load_succeeds lines :
  Z.of_nat (length (read_words lines)) = 65536%Z →
  ∃ st, load lines = Ok st.
Proof.
  intros Hlen. destruct (load_consistent lines) as [(st & H & _)|[msg H]];
    [eauto|].
  unfold load in H. rewrite bool_decide_eq_false_2 in H
    by (rewrite length_map; lia).
  destruct (purge_consistent
    (elements (list_to_set (map Py.lower (read_words lines)) ∩ BANNED))
    {| words := map Py.lower (read_words lines);
       wordset := list_to_set (map Py.lower (read_words lines));
       bloom := list_to_set (map Py.lower (read_words lines));
       placeholders := []; log := []; calls := 0 |})
    as (st' & Hp & _).
  - apply NoDup_elements.
  - intros bw. rewrite elem_of_elements, elem_of_intersection. cbn. tauto.
  - intros w. cbn. by rewrite elem_of_list_to_set.
  - congruence.
Qed.

Lemma quiet_run_completes zipf_frequency common_pool api
    bloom_false_positive opts lines :
  (0 < max_retries opts)%Z →
  (∀ n, ∃ r, api n = Response r ∧ quiet r) →
  batch_size opts ≠ 0%Z →
  Z.of_nat (length (read_words lines)) = 65536%Z →
  ∃ st, refine_state zipf_frequency common_pool api bloom_false_positive
          opts lines = Ok st.
Proof.
  intros Hretries Hquiet Hbatch Hlen. unfold refine_state.
  destruct (load_succeeds lines Hlen) as [st0 ->]. cbn [mbind res_bind].
  pose proof (chunked_cases
    (candidates_of zipf_frequency opts st0) (batch_size opts)) as Hch.
  destruct (chunked _ _) as [batches|e|]; [|by destruct Hch|done].
  cbn [mbind res_bind].
  rewrite (process_batches_quiet zipf_frequency api bloom_false_positive opts
             Hretries Hquiet).
  cbn [mbind res_bind]. eauto.
Qed.

Lemma two_damns_and_cats_clean :
  map Py.lower (read_words Examples2.two_damns_and_cats)
  = Examples2.two_damns_and_cats.
Proof.
  unfold Examples2.two_damns_and_cats.
  rewrite read_words_clean, lower_clean; [done| |].
  - do 2 (constructor; [done|]). by apply Forall_replicate.
  - do 2 (constructor; [by split|]). apply Forall_replicate. by split.
Qed.

Lemma run_fails_only_by_exit_witness :
  (∃ out, refine_wordlist common_zipf ["cat"] keeps_all exact_bloom
            improver_defaults ["cat"] = Ok out)
  ∨ (∃ msg, refine_wordlist common_zipf ["cat"] keeps_all exact_bloom
              improver_defaults ["cat"] = Raise (SystemExit msg)).
Proof.
  apply (run_fails_only_by_exit common_zipf ["cat"] keeps_all exact_bloom
           improver_defaults ["cat"]).
  vm_compute. discriminate.
Defined.

Lemma requests_per_batch_witness :
  ∃ st,
    refine_state common_zipf ["cat"] keeps_all exact_bloom
      improver_defaults damn_and_cats = Ok st
    ∧ ∃ (st0 : state) (batches : list (list string)) (trace : list state),
        load damn_and_cats = Ok st0
        ∧ chunked (candidates_of common_zipf improver_defaults st0)
            (batch_size improver_defaults) = Ok batches
        ∧ length trace = S (length batches)
        ∧ trace !! 0%nat = Some st0
        ∧ (∃ s, last trace = Some s
                ∧ st = fill_placeholders common_zipf ["cat"] exact_bloom
                         improver_defaults s)
        ∧ ∀ i s s', trace !! i = Some s → trace !! S i = Some s' →
            process_batch common_zipf keeps_all exact_bloom
              improver_defaults s = Ok s'
            ∧ (calls s < calls s'
               ≤ calls s + Z.to_nat (max_retries improver_defaults))%nat.
Proof.
  destruct (quiet_run common_zipf ["cat"] keeps_all exact_bloom
              improver_defaults) with (n := Z.to_nat 65535)
    as (st & Hrun & _).
  - vm_compute. reflexivity.
  - intros n. eexists. split; [reflexivity|]. right; right; reflexivity.
  - lia.
  - vm_compute. discriminate.
  - constructor; [|constructor]. left.
    apply elem_of_cons; right. apply elem_of_cons; left. reflexivity.
  - exists st. split; [exact Hrun|].
    apply (requests_per_batch common_zipf ["cat"] keeps_all exact_bloom
             improver_defaults damn_and_cats st Hrun).
Defined.

Lemma written_lines_are_sorted_and_accounted_for_witness :
  ∃ out,
    refine_wordlist common_zipf ["cat"] keeps_all exact_bloom
      improver_defaults damn_and_cats = Ok out
    ∧ StronglySorted Py.str_le out
    ∧ Forall (provenance common_zipf improver_defaults
                (map Py.lower (read_words damn_and_cats))) out.
Proof.
  destruct (quiet_run common_zipf ["cat"] keeps_all exact_bloom
              improver_defaults) with (n := Z.to_nat 65535)
    as (st & Hrun & _).
  - vm_compute. reflexivity.
  - intros n. eexists. split; [reflexivity|]. right; right; reflexivity.
  - lia.
  - vm_compute. discriminate.
  - constructor; [|constructor]. left.
    apply elem_of_cons; right. apply elem_of_cons; left. reflexivity.
  - apply refine_wordlist_writes in Hrun.
    exists (Py.sorted (words st)). split; [exact Hrun|].
    apply (written_lines_are_sorted_and_accounted_for common_zipf ["cat"]
             keeps_all exact_bloom improver_defaults damn_and_cats _ Hrun).
Defined.

Lemma repeated_banned_word_is_written_witness :
  ∃ out,
    refine_wordlist common_zipf ["cat"] keeps_all exact_bloom
      improver_defaults Examples2.two_damns_and_cats = Ok out
    ∧ "damn" ∈ out.
Proof.
  destruct (quiet_run_completes common_zipf ["cat"] keeps_all exact_bloom
              improver_defaults Examples2.two_damns_and_cats)
    as [st Hrun].
  - vm_compute. reflexivity.
  - intros n. eexists. split; [reflexivity|]. right; right; reflexivity.
  - vm_compute. discriminate.
  - rewrite <- (length_map Py.lower), two_damns_and_cats_clean.
    unfold Examples2.two_damns_and_cats. cbn [length].
    rewrite length_replicate. lia.
  - apply refine_wordlist_writes in Hrun.
    exists (Py.sorted (words st)). split; [exact Hrun|].
    apply (repeated_banned_word_is_written common_zipf ["cat"] keeps_all
             exact_bloom improver_defaults "damn"
             ltac:(apply (bool_decide_unpack _); vm_compute; exact I)
             Examples2.two_damns_and_cats _); [|exact Hrun].
    rewrite two_damns_and_cats_clean. unfold Examples2.two_damns_and_cats.
    rewrite !count_cons. rewrite !decide_True by reflexivity. lia.
Defined.

End ImproverMoreFacts.
